(** * dowel.CsvOutput: the CSV sink of the dowel logger

    A shallow embedding of [src/dowel/csv_output.py] and of the pieces of
    the Python runtime it drives (text files, [csv.DictWriter],
    [csv.DictReader], [fileinput], [set]), followed by the properties of
    the writer: schema commitment, schema extension, the fixed-length
    header patch (on the text of the file and on its bytes), the rewrite at
    close, marking of consumed fields and the de-duplication of warnings. *)

From Stdlib Require Import Ascii String.
From stdpp Require Import base decidable option list sets gmap strings.

#[local] Open Scope list_scope.

(** ** Text

    Python [str] values are sequences of characters.  A file opened in text
    mode is modelled as one such sequence, a character taking one cell; the
    file in bytes comes with [record_enc], further down. *)

Abbreviation str := (list ascii).

Definition txt (s : string) : str := list_ascii_of_string s.

Definition COMMA : ascii := ","%char.
Definition QUOTE : ascii := "034"%char.
Definition CR : ascii := "013"%char.
Definition LF : ascii := "010"%char.
Definition SPACE : ascii := " "%char.
Definition CRLF : str := [CR; LF].

(** [sep.join(parts)] *)
Fixpoint join (sep : str) (parts : list str) : str :=
  match parts with
  | [] => []
  | [p] => p
  | p :: ps => p ++ sep ++ join sep ps
  end.

(** ['{:<{}}'.format(s, width)]: left-justify, fill with spaces. *)
Definition ljust (s : str) (width : nat) : str :=
  s ++ replicate (width - length s) SPACE.

(** ** The Python runtime

    Python fixes no iteration order for a [set]; with hash randomisation it
    changes from one process to the next.  The order in which [list(a_set)]
    enumerates a set and the text [str(a_set)] are therefore parameters of the
    model.  All that is known of the enumeration is that it lists every
    element once. *)

Record PyRuntime := {
  set_iter : gset str → list str;
  set_iter_perm : ∀ X, set_iter X ≡ₚ elements X;
  set_repr : gset str → str
}.

Inductive exn :=
  | ValueError (msg : str)
  | AttributeError (msg : str)
  | TypeError (msg : str)
  | CsvError (msg : str).

(** ** Records: [dowel.TabularInput] *)

(** A Python [dict] with text keys and values, in insertion order.  The
    values are the texts [csv.writer] renders for the primitive values. *)
Abbreviation dict := (list (str * str)).

Definition dict_keys (d : dict) : list str := d.*1.

Fixpoint dict_get (key : str) (d : dict) : option str :=
  match d with
  | [] => None
  | (k, v) :: d' => if decide (k = key) then Some v else dict_get key d'
  end.

(** Modelled from the spec: [dowel.TabularInput] is not among the sources.
    The spec gives the record abstraction two faces: an ordered mapping of
    field name to primitive-coerced value for the current tick
    ([as_primitive_dict]), and a method to mark a field name as consumed
    ([mark]); [_recorded] is the set of names marked so far. *)
Record TabularInput := {
  as_primitive_dict : dict;
  _recorded : gset str
}.

Definition mark (key : str) (t : TabularInput) : TabularInput :=
  {| as_primitive_dict := as_primitive_dict t;
     _recorded := {[ key ]} ∪ _recorded t |}.

(** What a caller may hand to [record]. *)
Inductive PyObject :=
  | PyTabular (t : TabularInput)
  | PyStr (s : str)
  | PyInt (n : Z)
  | PyNone.

(** ** Text files

    Modelled from the spec: [dowel.simple_outputs.FileOutput] is not among
    the sources.  It opens the output stream once, at construction, for
    writing (the file starts empty), and its [close] closes the stream if it
    is still open.  The stream is a Python text file: [write] overwrites from
    the current position and extends the file past its end; every operation
    on a closed file raises [ValueError].  The cells of [content] and the
    position are what the encoding of the stream makes them: characters when
    every character takes one cell, bytes under [record_enc]. *)

Record TextFile := {
  name : str;
  content : str;
  position : nat;
  closed : bool
}.

Definition open_w (file_name : str) : TextFile :=
  {| name := file_name; content := []; position := 0; closed := false |}.

Definition closed_file_error : exn :=
  ValueError (txt "I/O operation on closed file.").

Definition file_write (s : str) (f : TextFile) : exn + TextFile :=
  if closed f then inl closed_file_error
  else inr {| name := name f;
              content := take (position f) (content f) ++ s
                         ++ drop (position f + length s) (content f);
              position := position f + length s;
              closed := false |}.

(** [f.seek(0)] *)
Definition file_seek_start (f : TextFile) : exn + TextFile :=
  if closed f then inl closed_file_error
  else inr {| name := name f; content := content f; position := 0;
              closed := false |}.

(** [f.seek(0, 2)] *)
Definition file_seek_end (f : TextFile) : exn + TextFile :=
  if closed f then inl closed_file_error
  else inr {| name := name f; content := content f;
              position := length (content f); closed := false |}.

Definition file_close (f : TextFile) : TextFile :=
  {| name := name f; content := content f; position := position f;
     closed := true |}.

(** Reading in text mode with the default [newline=None]: every line ending
    is translated to a line feed. *)
Fixpoint universal_newlines (s : str) : str :=
  match s with
  | [] => []
  | c :: s' =>
      if decide (c = CR) then
        LF :: match s' with
              | c' :: s'' =>
                  if decide (c' = LF) then universal_newlines s''
                  else universal_newlines s'
              | [] => []
              end
      else c :: universal_newlines s'
  end.

(** Iterating over a text file: the lines, each with its line ending.  With
    [newline=''] a line ends at a line feed, at a carriage return or at the
    pair; [cur] is the part of the current line already seen. *)
Fixpoint readlines (cur : str) (s : str) : list str :=
  match s with
  | [] => match cur with [] => [] | _ => [cur] end
  | c :: s' =>
      if decide (c = LF) then (cur ++ [c]) :: readlines [] s'
      else if decide (c = CR) then
        match s' with
        | c' :: s'' =>
            if decide (c' = LF) then (cur ++ [c; c']) :: readlines [] s''
            else (cur ++ [c]) :: readlines [] s'
        | [] => [cur ++ [c]]
        end
      else readlines (cur ++ [c]) s'
  end.

(** ** [csv.writer] and [csv.DictWriter] (excel dialect, QUOTE_MINIMAL) *)

Definition special (c : ascii) : bool :=
  bool_decide (c = COMMA) || bool_decide (c = QUOTE)
  || bool_decide (c = CR) || bool_decide (c = LF).

Fixpoint double_quotes (s : str) : str :=
  match s with
  | [] => []
  | c :: s' =>
      if decide (c = QUOTE) then QUOTE :: QUOTE :: double_quotes s'
      else c :: double_quotes s'
  end.

Definition csv_field (s : str) : str :=
  if existsb special s then QUOTE :: double_quotes s ++ [QUOTE] else s.

(** [csv.writer(f).writerow(row)]: the text written.  A record that would be
    empty although it has a field is written as a quoted empty field. *)
Definition csv_writerow (row : list str) : str :=
  let rec := join [COMMA] (csv_field <$> row) in
  match row, rec with
  | _ :: _, [] => [QUOTE; QUOTE] ++ CRLF
  | _, _ => rec ++ CRLF
  end.

(** The writer is always built with [extrasaction='ignore'] and the default
    [restval=''], and writes to [self._log_file]; its one piece of state is
    the list of field names. *)
Record DictWriter := { fieldnames : list str }.

(** [DictWriter._dict_to_list]: [rowdict.get(key, restval)] for each field
    name; keys of [rowdict] outside the field names are ignored. *)
Definition dict_to_list (w : DictWriter) (rowdict : dict) : list str :=
  (λ key, default [] (dict_get key rowdict)) <$> fieldnames w.

(** ** [csv.reader] (excel dialect)

    The reader is the state machine of CPython's [_csv] module, without the
    states only an escape character reaches.  It is fed the characters of a
    line and then an end-of-line mark ([None]).  This reader is the one of
    whoever reads the file back, with the limit on the size of a field
    ([csv.field_size_limit()]) taken out of the way; [close], which runs
    the reader itself and with the limit the module starts with, has
    [reader_rows_limited] below. *)

Inductive ParserState :=
  | START_RECORD | START_FIELD | IN_FIELD
  | IN_QUOTED_FIELD | QUOTE_IN_QUOTED_FIELD | EAT_CRNL.

#[global] Instance ParserState_eq_dec : EqDecision ParserState.
Proof. solve_decision. Defined.

Record Reader := {
  state : ParserState;
  field : str;
  fields : list str
}.

Definition parse_reset : Reader :=
  {| state := START_RECORD; field := []; fields := [] |}.

Definition parse_save_field (st : ParserState) (r : Reader) : Reader :=
  {| state := st; field := []; fields := fields r ++ [field r] |}.

Definition parse_add_char (st : ParserState) (c : ascii) (r : Reader) : Reader :=
  {| state := st; field := field r ++ [c]; fields := fields r |}.

Definition set_state (st : ParserState) (r : Reader) : Reader :=
  {| state := st; field := field r; fields := fields r |}.

Definition is_newline (c : ascii) : bool :=
  bool_decide (c = LF) || bool_decide (c = CR).

Definition start_field (c : option ascii) (r : Reader) : exn + Reader :=
  match c with
  | None => inr (parse_save_field START_RECORD r)
  | Some c =>
      if is_newline c then inr (parse_save_field EAT_CRNL r)
      else if decide (c = QUOTE) then inr (set_state IN_QUOTED_FIELD r)
      else if decide (c = COMMA) then inr (parse_save_field START_FIELD r)
      else inr (parse_add_char IN_FIELD c r)
  end.

Definition parse_process_char (c : option ascii) (r : Reader) : exn + Reader :=
  match state r with
  | START_RECORD =>
      match c with
      | None => inr r
      | Some c' =>
          if is_newline c' then inr (set_state EAT_CRNL r)
          else start_field c r
      end
  | START_FIELD => start_field c r
  | IN_FIELD =>
      match c with
      | None => inr (parse_save_field START_RECORD r)
      | Some c =>
          if is_newline c then inr (parse_save_field EAT_CRNL r)
          else if decide (c = COMMA) then inr (parse_save_field START_FIELD r)
          else inr (parse_add_char IN_FIELD c r)
      end
  | IN_QUOTED_FIELD =>
      match c with
      | None => inr r
      | Some c =>
          if decide (c = QUOTE) then inr (set_state QUOTE_IN_QUOTED_FIELD r)
          else inr (parse_add_char IN_QUOTED_FIELD c r)
      end
  | QUOTE_IN_QUOTED_FIELD =>
      match c with
      | None => inr (parse_save_field START_RECORD r)
      | Some c =>
          if decide (c = QUOTE) then inr (parse_add_char IN_QUOTED_FIELD c r)
          else if decide (c = COMMA) then inr (parse_save_field START_FIELD r)
          else if is_newline c then inr (parse_save_field EAT_CRNL r)
          else inr (parse_add_char IN_FIELD c r)
      end
  | EAT_CRNL =>
      match c with
      | None => inr (set_state START_RECORD r)
      | Some c =>
          if is_newline c then inr r
          else inl (CsvError (txt "new-line character seen in unquoted field"))
      end
  end.

(** Feed the characters of (a part of) a line. *)
Fixpoint parse_chars (s : str) (r : Reader) : exn + Reader :=
  match s with
  | [] => inr r
  | c :: s' =>
      match parse_process_char (Some c) r with
      | inl e => inl e
      | inr r' => parse_chars s' r'
      end
  end.

(** A whole line, then the end-of-line mark. *)
Definition parse_line (line : str) (r : Reader) : exn + Reader :=
  match parse_chars line r with
  | inl e => inl e
  | inr r' => parse_process_char None r'
  end.

(** The rows [csv.reader(lines)] yields, each with the number of lines read
    from the input when it is yielded, and the error that ends the iteration,
    if any.  [r] is the parser in the middle of a record, [lineno] the number
    of lines read so far. *)
Fixpoint reader_rows (r : Reader) (lineno : nat) (lines : list str)
    : list (list str * nat) * option exn :=
  match lines with
  | [] =>
      if bool_decide (field r ≠ []) || bool_decide (state r = IN_QUOTED_FIELD)
      then ([(fields (parse_save_field (state r) r), lineno)], None)
      else ([], None)
  | line :: lines' =>
      match parse_line line r with
      | inl e => ([], Some e)
      | inr r' =>
          match state r' with
          | START_RECORD =>
              let rest := reader_rows parse_reset (S lineno) lines' in
              ((fields r', S lineno) :: rest.1, rest.2)
          | _ => reader_rows r' (S lineno) lines'
          end
      end
  end.

Definition csv_reader (lines : list str) : list (list str * nat) * option exn :=
  reader_rows parse_reset 0 lines.

(** The rows of a reader result, without the line numbers. *)
Definition rows_of (res : list (list str * nat) * option exn)
    : list (list str) * option exn :=
  (res.1.*1, res.2).

(** What [csv.reader] yields for a file opened with [newline='']. *)
Definition csv_rows (text : str) : list (list str) * option exn :=
  rows_of (csv_reader (readlines [] text)).

Definition cons_row (row : list str * nat)
    (res : list (list str * nat) * option exn)
    : list (list str * nat) * option exn :=
  (row :: res.1, res.2).

(** *** The reader, character by character

    [scan] is [reader_rows] fused with [readlines]: it reads a text without
    first cutting it into lines.  [x] is the parser after the characters of
    the current line read so far, [partial] tells whether there are any. *)

Definition feed (c : ascii) (x : exn + Reader) : exn + Reader :=
  match x with
  | inl e => inl e
  | inr r => parse_process_char (Some c) r
  end.

Definition end_line (x : exn + Reader) (lineno : nat)
    (k : Reader → list (list str * nat) * option exn)
    : list (list str * nat) * option exn :=
  match x with
  | inl e => ([], Some e)
  | inr r =>
      match parse_process_char None r with
      | inl e => ([], Some e)
      | inr r' =>
          match state r' with
          | START_RECORD => cons_row (fields r', S lineno) (k parse_reset)
          | _ => k r'
          end
      end
  end.

Fixpoint scan (x : exn + Reader) (partial : bool) (lineno : nat) (s : str)
    : list (list str * nat) * option exn :=
  match s with
  | [] =>
      if partial then end_line x lineno (λ r, reader_rows r (S lineno) [])
      else match x with
           | inl e => ([], Some e)
           | inr r => reader_rows r lineno []
           end
  | c :: s' =>
      if decide (c = LF) then
        end_line (feed c x) lineno (λ r, scan (inr r) false (S lineno) s')
      else if decide (c = CR) then
        match s' with
        | c' :: s'' =>
            if decide (c' = LF) then
              end_line (feed c' (feed c x)) lineno
                       (λ r, scan (inr r) false (S lineno) s'')
            else
              end_line (feed c x) lineno
                       (λ r, scan (inr r) false (S lineno) s')
        | [] => end_line (feed c x) lineno (λ r, reader_rows r (S lineno) [])
        end
      else scan (feed c x) true lineno s'
  end.

(** A parser in state [st] with the field [f] begun and the fields [fs] done. *)
Definition mk (st : ParserState) (f : str) (fs : list str) : Reader :=
  {| state := st; field := f; fields := fs |}.

(** ** [csv.DictReader]

    A row of the reader becomes a dict: the field names zipped with the
    values, later names overwriting earlier equal ones, and [restval] for the
    names the row is too short for.  Values beyond the last field name go
    under the key [None], which no lookup by field name reaches, so they are
    left out.  Rows without any field (blank lines) are skipped. *)

Definition dictreader_row (fieldnames : list str) (restval : str)
    (row : list str) : gmap str str :=
  foldl (λ d kv, <[kv.1 := kv.2]> d) ∅
        (zip fieldnames (row ++ replicate (length fieldnames - length row) restval)).

Definition dict_reader (fieldnames : list str) (restval : str)
    (lines : list str) : list (gmap str str * nat) * option exn :=
  let rows := csv_reader lines in
  ((λ rn, (dictreader_row fieldnames restval rn.1, rn.2))
     <$> filter (λ rn, rn.1 ≠ []) rows.1,
   rows.2).

(** ** The reader with the limit on the size of a field

    [parse_add_char] of the module refuses a character once the field holds
    [field_limit] characters, 131072 unless [csv.field_size_limit] was
    called; the rest of the machine is the one above. *)

Definition field_size_limit : N := 131072.

Definition field_limit_error : exn :=
  CsvError (txt "field larger than field limit (131072)").

Definition parse_add_char_limited (st : ParserState) (c : ascii) (r : Reader)
    : exn + Reader :=
  if (field_size_limit <=? N.of_nat (length (field r)))%N
  then inl field_limit_error
  else inr (parse_add_char st c r).

Definition start_field_limited (c : option ascii) (r : Reader) : exn + Reader :=
  match c with
  | None => inr (parse_save_field START_RECORD r)
  | Some c =>
      if is_newline c then inr (parse_save_field EAT_CRNL r)
      else if decide (c = QUOTE) then inr (set_state IN_QUOTED_FIELD r)
      else if decide (c = COMMA) then inr (parse_save_field START_FIELD r)
      else parse_add_char_limited IN_FIELD c r
  end.

Definition parse_process_char_limited (c : option ascii) (r : Reader)
    : exn + Reader :=
  match state r with
  | START_RECORD =>
      match c with
      | None => inr r
      | Some c' =>
          if is_newline c' then inr (set_state EAT_CRNL r)
          else start_field_limited c r
      end
  | START_FIELD => start_field_limited c r
  | IN_FIELD =>
      match c with
      | None => inr (parse_save_field START_RECORD r)
      | Some c =>
          if is_newline c then inr (parse_save_field EAT_CRNL r)
          else if decide (c = COMMA) then inr (parse_save_field START_FIELD r)
          else parse_add_char_limited IN_FIELD c r
      end
  | IN_QUOTED_FIELD =>
      match c with
      | None => inr r
      | Some c =>
          if decide (c = QUOTE) then inr (set_state QUOTE_IN_QUOTED_FIELD r)
          else parse_add_char_limited IN_QUOTED_FIELD c r
      end
  | QUOTE_IN_QUOTED_FIELD =>
      match c with
      | None => inr (parse_save_field START_RECORD r)
      | Some c =>
          if decide (c = QUOTE) then parse_add_char_limited IN_QUOTED_FIELD c r
          else if decide (c = COMMA) then inr (parse_save_field START_FIELD r)
          else if is_newline c then inr (parse_save_field EAT_CRNL r)
          else parse_add_char_limited IN_FIELD c r
      end
  | EAT_CRNL =>
      match c with
      | None => inr (set_state START_RECORD r)
      | Some c =>
          if is_newline c then inr r
          else inl (CsvError (txt "new-line character seen in unquoted field"))
      end
  end.

Fixpoint parse_chars_limited (s : str) (r : Reader) : exn + Reader :=
  match s with
  | [] => inr r
  | c :: s' =>
      match parse_process_char_limited (Some c) r with
      | inl e => inl e
      | inr r' => parse_chars_limited s' r'
      end
  end.

Definition parse_line_limited (line : str) (r : Reader) : exn + Reader :=
  match parse_chars_limited line r with
  | inl e => inl e
  | inr r' => parse_process_char_limited None r'
  end.

Fixpoint reader_rows_limited (r : Reader) (lineno : nat) (lines : list str)
    : list (list str * nat) * option exn :=
  match lines with
  | [] =>
      if bool_decide (field r ≠ []) || bool_decide (state r = IN_QUOTED_FIELD)
      then ([(fields (parse_save_field (state r) r), lineno)], None)
      else ([], None)
  | line :: lines' =>
      match parse_line_limited line r with
      | inl e => ([], Some e)
      | inr r' =>
          match state r' with
          | START_RECORD =>
              let rest := reader_rows_limited parse_reset (S lineno) lines' in
              ((fields r', S lineno) :: rest.1, rest.2)
          | _ => reader_rows_limited r' (S lineno) lines'
          end
      end
  end.

Definition csv_reader_limited (lines : list str)
    : list (list str * nat) * option exn :=
  reader_rows_limited parse_reset 0 lines.

(** [csv.DictReader] as [close] runs it. *)
Definition dict_reader_limited (fieldnames : list str) (restval : str)
    (lines : list str) : list (gmap str str * nat) * option exn :=
  let rows := csv_reader_limited lines in
  ((λ rn, (dictreader_row fieldnames restval rn.1, rn.2))
     <$> filter (λ rn, rn.1 ≠ []) rows.1,
   rows.2).

(** A text that fits a field of the reader with the limit. *)
Definition within_limit (s : str) : Prop :=
  (N.of_nat (length s) ≤ field_size_limit)%N.

Definition reader_within_limit (r : Reader) : Prop :=
  within_limit (field r) ∧ Forall within_limit (fields r).

(** Between two records the reader holds no begun field. *)
Definition reader_wf (r : Reader) : Prop :=
  state r = START_RECORD ∨ state r = EAT_CRNL → field r = [].

(** ** The writer object and its world

    [CsvOutput] holds the attributes of the Python object.  The calls it
    makes to [warnings.warn] are an effect outside the object: the world
    pairs the writer with the list of warnings shown so far, oldest first. *)

Record CsvOutput := {
  _inconsistency_handling : option str;
  _header_length : nat;
  _log_file : TextFile;
  _writer : option DictWriter;
  _fieldnames : option (gset str);
  _warned_once : gset str;
  _disable_warnings : bool
}.

Record World := {
  self : CsvOutput;
  shown : list str
}.

Definition with_log_file (f : TextFile) (o : CsvOutput) : CsvOutput :=
  {| _inconsistency_handling := _inconsistency_handling o;
     _header_length := _header_length o;
     _log_file := f;
     _writer := _writer o;
     _fieldnames := _fieldnames o;
     _warned_once := _warned_once o;
     _disable_warnings := _disable_warnings o |}.

Definition with_writer (wr : option DictWriter) (o : CsvOutput) : CsvOutput :=
  {| _inconsistency_handling := _inconsistency_handling o;
     _header_length := _header_length o;
     _log_file := _log_file o;
     _writer := wr;
     _fieldnames := _fieldnames o;
     _warned_once := _warned_once o;
     _disable_warnings := _disable_warnings o |}.

Definition with_fieldnames (fs : option (gset str)) (o : CsvOutput) : CsvOutput :=
  {| _inconsistency_handling := _inconsistency_handling o;
     _header_length := _header_length o;
     _log_file := _log_file o;
     _writer := _writer o;
     _fieldnames := fs;
     _warned_once := _warned_once o;
     _disable_warnings := _disable_warnings o |}.

Definition with_warned_once (ms : gset str) (o : CsvOutput) : CsvOutput :=
  {| _inconsistency_handling := _inconsistency_handling o;
     _header_length := _header_length o;
     _log_file := _log_file o;
     _writer := _writer o;
     _fieldnames := _fieldnames o;
     _warned_once := ms;
     _disable_warnings := _disable_warnings o |}.

Definition with_disable_warnings (b : bool) (o : CsvOutput) : CsvOutput :=
  {| _inconsistency_handling := _inconsistency_handling o;
     _header_length := _header_length o;
     _log_file := _log_file o;
     _writer := _writer o;
     _fieldnames := _fieldnames o;
     _warned_once := _warned_once o;
     _disable_warnings := b |}.

(** A method body: it changes the world and returns or raises.  What was
    changed before an exception stays changed. *)
Definition M (A : Type) : Type := World → World * (exn + A).

Definition ret {A} (a : A) : M A := λ w, (w, inr a).
Definition raise {A} (e : exn) : M A := λ w, (w, inl e).
Definition bind {A B} (m : M A) (k : A → M B) : M B :=
  λ w, match m w with
       | (w', inl e) => (w', inl e)
       | (w', inr a) => k a w'
       end.

Notation "x <- m ;; k" := (bind m (λ x, k))
  (at level 100, m at next level, right associativity).
Notation "m ;; k" := (bind m (λ _, k))
  (at level 100, right associativity).

Definition get_self : M CsvOutput := λ w, (w, inr (self w)).
Definition update_self (f : CsvOutput → CsvOutput) : M unit :=
  λ w, ({| self := f (self w); shown := shown w |}, inr tt).

(** An operation of [self._log_file]. *)
Definition on_log_file (op : TextFile → exn + TextFile) : M unit :=
  o <- get_self ;;
  match op (_log_file o) with
  | inl e => raise e
  | inr f => update_self (with_log_file f)
  end.

(** [warnings.warn(colorize(msg, 'yellow'), CsvOutputWarning, stacklevel=3)].
    [dowel.utils.colorize] is not among the sources and only wraps the text
    in colour codes: the warning is recorded by its message. *)
Definition warnings_warn (msg : str) : M unit :=
  λ w, ({| self := self w; shown := shown w ++ [msg] |}, inr tt).

(** [self._writer], which the caller has made sure exists. *)
Definition the_writer : M DictWriter :=
  o <- get_self ;;
  match _writer o with
  | Some wr => ret wr
  | None =>
      raise (AttributeError
               (txt "'NoneType' object has no attribute 'fieldnames'"))
  end.

(** [self._writer.writerow(rowdict)] *)
Definition writer_writerow (rowdict : dict) : M unit :=
  wr <- the_writer ;;
  on_log_file (file_write (csv_writerow (dict_to_list wr rowdict))).

(** [self._writer.writeheader()] *)
Definition writer_writeheader : M unit :=
  wr <- the_writer ;;
  on_log_file (file_write (csv_writerow (fieldnames wr))).

(** ** [CsvOutput] *)

Definition fixed_header_length : str := txt "fixed_header_length".
Definition copy : str := txt "copy".

(** The truth value of [self._inconsistency_handling]. *)
Definition handling_enabled (h : option str) : bool :=
  match h with
  | None => false
  | Some [] => false
  | Some (_ :: _) => true
  end.

Definition __init__ (file_name : str) (implementation : option str)
    (header_length : nat) : CsvOutput :=
  {| _inconsistency_handling := implementation;
     _header_length := header_length;
     _log_file := open_w file_name;
     _writer := None;
     _fieldnames := None;
     _warned_once := ∅;
     _disable_warnings := false |}.

(** [CsvOutput._warn] *)
Definition _warn (msg : str) : M str :=
  o <- get_self ;;
  (if negb (_disable_warnings o) && bool_decide (msg ∉ _warned_once o)
   then warnings_warn msg
   else ret tt) ;;
  update_self (λ o, with_warned_once ({[ msg ]} ∪ _warned_once o) o) ;;
  ret msg.

(** [CsvOutput.disable_warnings] *)
Definition disable_warnings : M unit :=
  update_self (with_disable_warnings true).

Section with_runtime.
Context (rt : PyRuntime).

(** The text of the warning for committed field names [F] and the keys [K]
    of the incoming record. *)
Definition inconsistent_keys_msg (F K : gset str) : str :=
  txt "Inconsistent TabularInput keys detected. CsvOutput keys: "
  ++ set_repr rt F
  ++ txt ". TabularInput keys: "
  ++ set_repr rt K
  ++ txt ". Did you change key sets after your first logger.log(TabularInput)?".

(** [CsvOutput.record], lines 57 to 72: with no writer yet, commit to the
    field names of this record and write the header. *)
Definition record_commit (to_csv : dict) : M unit :=
  o <- get_self ;;
  match _writer o with
  | None =>
      update_self (with_fieldnames (Some (list_to_set (dict_keys to_csv)))) ;;
      let fieldnames_ordered := dict_keys to_csv in
      update_self (with_writer (Some {| fieldnames := fieldnames_ordered |})) ;;
      if decide (_inconsistency_handling o = Some fixed_header_length)
      then
        let header := join [COMMA] fieldnames_ordered in
        let header_padded := ljust header (_header_length o) in
        let header_trucated :=
          take (_header_length o) header_padded ++ CRLF in
        on_log_file (file_write header_trucated)
      else writer_writeheader
  | Some _ => ret tt
  end.

(** [CsvOutput.record], lines 74 to 99: warn when the keys of the record are
    not the committed ones and, with a handling chosen, take in the new
    keys. *)
Definition record_reconcile (to_csv : dict) : M unit :=
  o <- get_self ;;
  match _fieldnames o with
  | None => raise (TypeError (txt "'NoneType' object is not iterable"))
  | Some F =>
      let K : gset str := list_to_set (dict_keys to_csv) in
      if decide (K ≠ F) then
        _warn (inconsistent_keys_msg F K) ;;
        if handling_enabled (_inconsistency_handling o) then
          let fieldnames_new := K ∖ F in
          if decide (fieldnames_new ≠ ∅) then
            update_self (with_fieldnames (Some (F ∪ fieldnames_new))) ;;
            wr <- the_writer ;;
            update_self
              (with_writer
                 (Some {| fieldnames :=
                            fieldnames wr ++ set_iter rt fieldnames_new |})) ;;
            if decide (_inconsistency_handling o = Some fixed_header_length)
            then
              on_log_file file_seek_start ;;
              wr <- the_writer ;;
              let header := join [COMMA] (fieldnames wr) in
              let header_length := length header `min` _header_length o in
              let header_trucated := take header_length header in
              on_log_file (file_write header_trucated) ;;
              on_log_file file_seek_end
            else ret tt
          else ret tt
        else ret tt
      else ret tt
  end.

(** [for k in to_csv.keys(): data.mark(k)] *)
Definition mark_all (keys : list str) (tab : TabularInput) : TabularInput :=
  foldl (λ t k, mark k t) tab keys.

(** [CsvOutput.record].  The method returns nothing; its marks are left on
    the record it was handed, which is the result here. *)
Definition record (data : PyObject) : M PyObject :=
  match data with
  | PyTabular tab =>
      let to_csv := as_primitive_dict tab in
      o <- get_self ;;
      if bool_decide (dict_keys to_csv = []) && bool_decide (_writer o = None)
      then ret data
      else
        record_commit to_csv ;;
        record_reconcile to_csv ;;
        writer_writerow to_csv ;;
        ret (PyTabular (mark_all (dict_keys to_csv) tab))
  | _ => raise (ValueError (txt "Unacceptable type."))
  end.

(** What the loop of [close] prints for one row of the reader: the header in
    place of the first line of the file, the values under the field names
    otherwise. *)
Definition close_print (fieldnames : list str) (rn : gmap str str * nat) : str :=
  let header := join [COMMA] fieldnames in
  (if decide (rn.2 = 1) then header
   else
     let values := (λ key, default [] (rn.1 !! key)) <$> fieldnames in
     join [COMMA] values)
  ++ [LF].

(** [CsvOutput.close].  [fileinput.input(..., inplace=True)] reads the file
    in text mode, line by line, while [print] writes the file anew;
    [f.isfirstline()] holds when one line has been read.  When the reader
    fails, the file keeps the lines printed so far. *)
Definition close : M unit :=
  update_self (λ o, with_log_file (file_close (_log_file o)) o) ;;
  o <- get_self ;;
  if decide (_inconsistency_handling o = Some copy) then
    wr <- the_writer ;;
    let fieldnames := fieldnames wr in
    let f := readlines [] (universal_newlines (content (_log_file o))) in
    let reader := dict_reader_limited fieldnames [] f in
    let printed := concat (close_print fieldnames <$> reader.1) in
    update_self
      (with_log_file
         {| name := name (_log_file o); content := printed;
            position := position (_log_file o); closed := true |}) ;;
    match reader.2 with
    | Some e => raise e
    | None => ret tt
    end
  else ret tt.

(** ** Lifetimes: sequences of calls on one writer *)

Inductive call :=
  | Record_ (data : PyObject)
  | DisableWarnings
  | Close.

Definition do_call (c : call) (w : World) : World :=
  match c with
  | Record_ data => (record data w).1
  | DisableWarnings => (disable_warnings w).1
  | Close => (close w).1
  end.

Definition run (w : World) (calls : list call) : World :=
  foldl (λ w c, do_call c w) w calls.

End with_runtime.

(** A writer just constructed, no warning shown yet. *)
Definition fresh (file_name : str) (implementation : option str)
    (header_length : nat) : World :=
  {| self := __init__ file_name implementation header_length; shown := [] |}.

(** Worlds a writer can be in: a fresh writer after any calls. *)
Definition reachable (rt : PyRuntime) (w : World) : Prop :=
  ∃ file_name implementation header_length calls,
    w = run rt (fresh file_name implementation header_length) calls.

(** The header line written when the schema is committed. *)
Definition header_line (implementation : option str) (header_length : nat)
    (names : list str) : str :=
  if decide (implementation = Some fixed_header_length)
  then take header_length (ljust (join [COMMA] names) header_length) ++ CRLF
  else csv_writerow names.

(** The names a record with key set [K] adds to the committed set [F]:
    none without a handling, else the new keys as the runtime enumerates
    them. *)
Definition schema_extension (rt : PyRuntime) (handling : option str)
    (F K : gset str) : list str :=
  if handling_enabled handling && bool_decide (K ∖ F ≠ ∅)
  then set_iter rt (K ∖ F)
  else [].

(** The text written over the start of the file when the names [ext] are
    added to [names]: nothing unless the handling is the fixed header
    length. *)
Definition header_patch (handling : option str) (header_length : nat)
    (names ext : list str) : str :=
  if decide (ext = []) then []
  else if decide (handling = Some fixed_header_length) then
    let header := join [COMMA] (names ++ ext) in
    take (length header `min` header_length) header
  else [].

(** A write of [s] at the start of a file holding [c]. *)
Definition overwrite (s c : str) : str := s ++ drop (length s) c.

(** The values [DictWriter] writes for a record under the field names. *)
Definition row_of (names : list str) (t : TabularInput) : list str :=
  (λ key, default [] (dict_get key (as_primitive_dict t))) <$> names.

(** ** Invariants of the reachable worlds *)

(** The set [_fieldnames] and the list of the writer hold the same names. *)
Definition schema_inv (o : CsvOutput) : Prop :=
  match _writer o, _fieldnames o with
  | None, None => True
  | Some wr, Some F => F = list_to_set (fieldnames wr)
  | _, _ => False
  end.

(** No warning is shown twice, every shown warning is remembered, and
    while warnings are enabled every remembered message has been shown. *)
Definition warn_inv (w : World) : Prop :=
  NoDup (shown w)
  ∧ (∀ m, m ∈ shown w → m ∈ _warned_once (self w))
  ∧ (_disable_warnings (self w) = false →
     ∀ m, m ∈ _warned_once (self w) → m ∈ shown w).

(** While the file is open the position is its end; the file is empty until
    the schema is committed; with the fixed header length a committed file
    starts with [_header_length] characters and the line terminator. *)
Definition file_inv (o : CsvOutput) : Prop :=
  closed (_log_file o) = false →
  position (_log_file o) = length (content (_log_file o))
  ∧ (_writer o = None → content (_log_file o) = [])
  ∧ (_writer o ≠ None →
     _inconsistency_handling o = Some fixed_header_length →
     ∃ H rest, content (_log_file o) = H ++ CRLF ++ rest
               ∧ length H = _header_length o).

(** The three together. *)
Definition inv (w : World) : Prop :=
  schema_inv (self w) ∧ warn_inv w ∧ file_inv (self w).

(** How often the warning with text [msg] has been shown. *)
Definition times_shown (msg : str) (w : World) : nat :=
  length (filter (λ m, m = msg) (shown w)).

(** The new names of a record in the order of their first appearance in it,
    as the specification words the extension of the schema. *)
Definition first_appearance_extension (F : gset str) (keys : list str)
    : list str :=
  filter (λ k, k ∉ F) keys.

(** ** Two runtimes

    One enumerates a set in the order of stdpp's [elements], the other in the
    reverse order; both print a set as Python does, in their own order. *)

Definition braces_repr (order : gset str → list str) (X : gset str) : str :=
  match order X with
  | [] => txt "set()"
  | l => txt "{" ++ join (txt ", ") ((λ s, txt "'" ++ s ++ txt "'") <$> l)
         ++ txt "}"
  end.

Definition rt_elements : PyRuntime :=
  {| set_iter := elements;
     set_iter_perm := λ X, reflexivity (elements X);
     set_repr := braces_repr elements |}.

Definition rt_reverse : PyRuntime :=
  {| set_iter := λ X, reverse (elements X);
     set_iter_perm := λ X, reverse_Permutation (elements X);
     set_repr := braces_repr (λ X, reverse (elements X)) |}.

(** A record as the logger hands it over, nothing marked yet. *)
Definition tabular (d : list (string * string)) : TabularInput :=
  {| as_primitive_dict := (λ kv, (txt kv.1, txt kv.2)) <$> d;
     _recorded := ∅ |}.

Definition log (d : list (string * string)) : call :=
  Record_ (PyTabular (tabular d)).

(** ** Plain data

    The rewrite of [close] is followed on records whose keys and values need
    no quoting. *)

(** Text without delimiter, quote or line ending: what [csv.writer] writes
    as it is. *)
Definition plain (s : str) : Prop := existsb special s = false.

(** A record whose keys and values are plain; its keys are pairwise
    distinct, as the keys of any dict. *)
Definition plain_record (t : TabularInput) : Prop :=
  NoDup (dict_keys (as_primitive_dict t))
  ∧ Forall (λ kv, plain kv.1 ∧ plain kv.2) (as_primitive_dict t).

(** A record whose keys and values fit a field of the reader of [close]. *)
Definition record_within_limit (t : TabularInput) : Prop :=
  Forall (λ kv, within_limit kv.1 ∧ within_limit kv.2) (as_primitive_dict t).

(** The rows a writer with a handling other than the fixed header length
    writes for the records [ts], starting from the field names [names], and
    the field names it ends with. *)
Fixpoint written_rows (rt : PyRuntime) (h : option str) (names : list str)
    (ts : list TabularInput) : list (list str) * list str :=
  match ts with
  | [] => ([], names)
  | t :: ts' =>
      let names' :=
        names ++ schema_extension rt h (list_to_set names)
                   (list_to_set (dict_keys (as_primitive_dict t))) in
      let rest := written_rows rt h names' ts' in
      (row_of names' t :: rest.1, rest.2)
  end.

(** The file rectangular over the field names [names]: the header, then
    for each record of [ts] its values under these names, one line each as
    [print] ends it. *)
Definition rectangular (names : list str) (ts : list TabularInput) : str :=
  join [COMMA] names ++ [LF]
  ++ concat ((λ t, join [COMMA] (row_of names t) ++ [LF]) <$> ts).

(** A record of plain values as [csv.writer] writes it, without the line
    terminator. *)
Definition record_text (vs : list str) : str :=
  match vs, join [COMMA] vs with
  | _ :: _, [] => [QUOTE; QUOTE]
  | _, rec => rec
  end.

(** ** The accepted types

    [CsvOutput.types_accepted] names the classes the logger may hand to
    [record]. *)

(** The classes of the objects a caller may hand over. *)
Inductive PyType := TabularInput_class | str_class | int_class | NoneType_class.

#[global] Instance PyType_eq_dec : EqDecision PyType.
Proof. solve_decision. Defined.

(** [type(x)] *)
Definition type_of (x : PyObject) : PyType :=
  match x with
  | PyTabular _ => TabularInput_class
  | PyStr _ => str_class
  | PyInt _ => int_class
  | PyNone => NoneType_class
  end.

(** [isinstance(x, classes)] for a tuple of classes, none of which has a
    subclass among the objects modelled. *)
Definition isinstance (x : PyObject) (classes : list PyType) : bool :=
  bool_decide (type_of x ∈ classes).

(** The property [CsvOutput.types_accepted]: the tuple [(TabularInput, )]. *)
Definition types_accepted : list PyType := [TabularInput_class].

(** ** Worlds and records compared *)

(** The world without what the warnings leave behind outside
    [_warned_once]: the flag and the warnings shown. *)
Definition unwarned (w : World) : World :=
  {| self := with_disable_warnings false (self w); shown := [] |}.

(** The keys of the record a call hands over are pairwise distinct, as the
    keys of a [dict] are. *)
Definition distinct_keys (c : call) : Prop :=
  match c with
  | Record_ (PyTabular t) => NoDup (dict_keys (as_primitive_dict t))
  | _ => True
  end.

(** What the rows written for the records [ts] have to do with the records:
    each holds the values of its record under field names that start with the
    names the writer began with and are a beginning of the names it ends
    with; with a handling chosen these names hold every key of the record. *)
Definition row_under (h : option str) (names0 final : list str)
    (row : list str) (t : TabularInput) : Prop :=
  ∃ names,
    names0 `prefix_of` names ∧ names `prefix_of` final
    ∧ row = row_of names t
    ∧ (handling_enabled h = true →
       ∀ k, k ∈ dict_keys (as_primitive_dict t) → k ∈ names).

(** ** Stripping the header of the fixed header length

    The class docstring tells the reader of a file with the fixed header
    length to strip the trailing whitespace of the last field name. *)




(** ** The file in bytes

    [TextFile] above holds the text of the file, and its position counts
    characters.  A Python text file keeps bytes: [write] encodes the text and
    puts the bytes at the position, which [seek(0)] and [seek(0, 2)] set to
    the first byte and past the last.  The two agree as long as the file is
    only added to at its end; they differ when text is written over text of
    another length in bytes, which the header patch of the fixed header
    length does when a field name is not ASCII.  [record_enc] is [record] on
    a file whose cells are the bytes of an encoding [enc]; with the identity
    for [enc] it is [record]. *)

(** A text whose characters are ASCII: each takes one byte in UTF-8. *)
Definition one_byte (s : str) : Prop := Forall (λ c, nat_of_ascii c < 128) s.

(** A record whose keys are ASCII. *)
Definition one_byte_keys (t : TabularInput) : Prop :=
  Forall one_byte (dict_keys (as_primitive_dict t)).

(** UTF-8 of a character below U+0100: one byte below U+0080, two above. *)
Definition utf8_char (c : ascii) : str :=
  let n := nat_of_ascii c in
  if n <? 128 then [c]
  else [ascii_of_nat (192 + n / 64); ascii_of_nat (128 + n mod 64)].

(** [s.encode('utf-8')] *)
Definition utf8 (s : str) : str := concat (utf8_char <$> s).

Section with_encoding.
Context (rt : PyRuntime) (enc : str → str).

(** [self._log_file.write(s)]: the text is encoded and its bytes are written
    at the position. *)
Definition write_text (s : str) : M unit := on_log_file (file_write (enc s)).

(** [self._writer.writerow(rowdict)] *)
Definition writer_writerow_enc (rowdict : dict) : M unit :=
  wr <- the_writer ;;
  write_text (csv_writerow (dict_to_list wr rowdict)).

(** [self._writer.writeheader()] *)
Definition writer_writeheader_enc : M unit :=
  wr <- the_writer ;;
  write_text (csv_writerow (fieldnames wr)).

(** [CsvOutput.record], lines 57 to 72. *)
Definition record_commit_enc (to_csv : dict) : M unit :=
  o <- get_self ;;
  match _writer o with
  | None =>
      update_self (with_fieldnames (Some (list_to_set (dict_keys to_csv)))) ;;
      let fieldnames_ordered := dict_keys to_csv in
      update_self (with_writer (Some {| fieldnames := fieldnames_ordered |})) ;;
      if decide (_inconsistency_handling o = Some fixed_header_length)
      then
        let header := join [COMMA] fieldnames_ordered in
        let header_padded := ljust header (_header_length o) in
        let header_trucated :=
          take (_header_length o) header_padded ++ CRLF in
        write_text header_trucated
      else writer_writeheader_enc
  | Some _ => ret tt
  end.

(** [CsvOutput.record], lines 74 to 99.  The lengths of lines 95 to 97 count
    characters; the position that [seek] sets and [write] moves counts
    bytes. *)
Definition record_reconcile_enc (to_csv : dict) : M unit :=
  o <- get_self ;;
  match _fieldnames o with
  | None => raise (TypeError (txt "'NoneType' object is not iterable"))
  | Some F =>
      let K : gset str := list_to_set (dict_keys to_csv) in
      if decide (K ≠ F) then
        _warn (inconsistent_keys_msg rt F K) ;;
        if handling_enabled (_inconsistency_handling o) then
          let fieldnames_new := K ∖ F in
          if decide (fieldnames_new ≠ ∅) then
            update_self (with_fieldnames (Some (F ∪ fieldnames_new))) ;;
            wr <- the_writer ;;
            update_self
              (with_writer
                 (Some {| fieldnames :=
                            fieldnames wr ++ set_iter rt fieldnames_new |})) ;;
            if decide (_inconsistency_handling o = Some fixed_header_length)
            then
              on_log_file file_seek_start ;;
              wr <- the_writer ;;
              let header := join [COMMA] (fieldnames wr) in
              let header_length := length header `min` _header_length o in
              let header_trucated := take header_length header in
              write_text header_trucated ;;
              on_log_file file_seek_end
            else ret tt
          else ret tt
        else ret tt
      else ret tt
  end.

(** [CsvOutput.record] on the file in bytes. *)
Definition record_enc (data : PyObject) : M PyObject :=
  match data with
  | PyTabular tab =>
      let to_csv := as_primitive_dict tab in
      o <- get_self ;;
      if bool_decide (dict_keys to_csv = []) && bool_decide (_writer o = None)
      then ret data
      else
        record_commit_enc to_csv ;;
        record_reconcile_enc to_csv ;;
        writer_writerow_enc to_csv ;;
        ret (PyTabular (mark_all (dict_keys to_csv) tab))
  | _ => raise (ValueError (txt "Unacceptable type."))
  end.

(** A call on the file in bytes.  [close] is the one above: with the copy
    handling it reads the file as text, one character per cell, so that a
    call of [close] is followed here for the other handlings only, where it
    closes the file and does nothing else. *)
Definition do_call_enc (c : call) (w : World) : World :=
  match c with
  | Record_ data => (record_enc data w).1
  | DisableWarnings => (disable_warnings w).1
  | Close => (close w).1
  end.

Definition run_enc (w : World) (calls : list call) : World :=
  foldl (λ w c, do_call_enc c w) w calls.

End with_encoding.

(** The call hands over nothing with a key that is not ASCII. *)
Definition one_byte_call (c : call) : Prop :=
  match c with
  | Record_ (PyTabular t) => one_byte_keys t
  | _ => True
  end.

(** Two worlds that differ at most in the content of the file and the
    position in it. *)
Definition same_but_file (w1 w2 : World) : Prop :=
  _inconsistency_handling (self w1) = _inconsistency_handling (self w2)
  ∧ _header_length (self w1) = _header_length (self w2)
  ∧ closed (_log_file (self w1)) = closed (_log_file (self w2))
  ∧ _writer (self w1) = _writer (self w2)
  ∧ _fieldnames (self w1) = _fieldnames (self w2)
  ∧ _warned_once (self w1) = _warned_once (self w2)
  ∧ _disable_warnings (self w1) = _disable_warnings (self w2)
  ∧ shown w1 = shown w2.

(** Worlds a writer on a file in bytes can be in. *)
Definition reachable_enc (rt : PyRuntime) (enc : str → str) (w : World) : Prop :=
  ∃ file_name implementation header_length calls,
    w = run_enc rt enc (fresh file_name implementation header_length) calls.

(** * Properties *)

(** ** Symbolic execution of the method bodies

    [mred] unfolds the monad, the methods and the record projections and
    nothing else, so that the sets of field names stay folded. *)

Ltac mred_in H :=
  lazy beta iota zeta delta
    [record record_commit record_reconcile close disable_warnings
     bind ret raise get_self update_self on_log_file the_writer
     writer_writerow writer_writeheader warnings_warn _warn
     file_write file_seek_start file_seek_end file_close
     with_log_file with_writer with_fieldnames with_warned_once
     with_disable_warnings self shown _inconsistency_handling _header_length
     _log_file _writer _fieldnames _warned_once _disable_warnings
     name content position closed fieldnames fst snd] in H.
Ltac mred :=
  lazy beta iota zeta delta
    [record record_commit record_reconcile close disable_warnings
     bind ret raise get_self update_self on_log_file the_writer
     writer_writerow writer_writeheader warnings_warn _warn
     file_write file_seek_start file_seek_end file_close
     with_log_file with_writer with_fieldnames with_warned_once
     with_disable_warnings self shown _inconsistency_handling _header_length
     _log_file _writer _fieldnames _warned_once _disable_warnings
     name content position closed fieldnames fst snd].

(* walk the paths of a method body in [H : body w = (w', r)] *)
Ltac mwalk H :=
  repeat (mred_in H;
          match type of H with
          | context [decide ?P] => destruct (decide P)
          | context [handling_enabled ?h] => destruct (handling_enabled h) eqn:?
          | context [?a && ?b] => destruct (a && b) eqn:?
          | context [match ?x with _ => _ end] => is_var x; destruct x
          end);
  mred_in H.

Ltac world_cases w :=
  let o := fresh "o" in let sh := fresh "sh" in
  destruct w as [o sh];
  let h := fresh "h" in let hl := fresh "hl" in let f := fresh "f" in
  let wr := fresh "wr" in let F := fresh "F" in let ms := fresh "ms" in
  let dw := fresh "dw" in
  destruct o as [h hl f wr F ms dw];
  let nm := fresh "nm" in let c := fresh "c" in let pos := fresh "pos" in
  let cl := fresh "cl" in
  destruct f as [nm c pos cl]; destruct cl.


Lemma set_iter_to_set (rt : PyRuntime) (X : gset str) : list_to_set (set_iter rt X) = X.
Proof.
  apply set_eq; intros x. rewrite elem_of_list_to_set.
  rewrite (set_iter_perm rt X). apply elem_of_elements.
Qed.

Lemma set_iter_nil (rt : PyRuntime) (X : gset str) : set_iter rt X = [] ↔ X = ∅.
Proof.
  split; intros H.
  - rewrite <-(set_iter_to_set rt X), H. done.
  - apply Permutation_nil_r. rewrite (set_iter_perm rt X), H. by rewrite elements_empty.
Qed.

Lemma write_at_end (c s : str) (n : nat) :
  n = length c → take n c ++ s ++ drop (n + length s) c = c ++ s.
Proof. intros ->. rewrite take_ge, drop_ge by lia. by rewrite app_nil_r. Qed.

Lemma world_file_eq {A} h hl nm (c1 c2 : str) (p1 p2 : nat) cl wr F ms dw sh (r : A) :
  c1 = c2 → p1 = p2 →
  ({| self := {| _inconsistency_handling := h; _header_length := hl;
                 _log_file := {| name := nm; content := c1; position := p1; closed := cl |};
                 _writer := wr; _fieldnames := F; _warned_once := ms;
                 _disable_warnings := dw |};
      shown := sh |}, r)
  = ({| self := {| _inconsistency_handling := h; _header_length := hl;
                 _log_file := {| name := nm; content := c2; position := p2; closed := cl |};
                 _writer := wr; _fieldnames := F; _warned_once := ms;
                 _disable_warnings := dw |};
      shown := sh |}, r).
Proof. by intros -> ->. Qed.

Ltac at_end :=
  repeat match goal with
    | |- context [take ?n ?c ++ ?s ++ drop (?n + length ?s) ?c] =>
        rewrite (write_at_end c s n) by (rewrite ?length_app; lia)
    end.

Ltac file_eq :=
  apply world_file_eq;
  [cbn [firstn skipn app Nat.add]; at_end; try done
  |cbn [firstn skipn app Nat.add length]; rewrite ?length_app; try lia].

Lemma record_committed (rt : PyRuntime) t w wr F :
  closed (_log_file (self w)) = false →
  position (_log_file (self w)) = length (content (_log_file (self w))) →
  _writer (self w) = Some wr →
  _fieldnames (self w) = Some F →
  let o := self w in
  let d := as_primitive_dict t in
  let K : gset str := list_to_set (dict_keys d) in
  let msg := inconsistent_keys_msg rt F K in
  let ext := schema_extension rt (_inconsistency_handling o) F K in
  let wr' := {| fieldnames := fieldnames wr ++ ext |} in
  let patch :=
    header_patch (_inconsistency_handling o) (_header_length o)
                 (fieldnames wr) ext in
  let text :=
    overwrite patch (content (_log_file o)) ++ csv_writerow (dict_to_list wr' d) in
  record rt (PyTabular t) w =
    ({| self :=
          {| _inconsistency_handling := _inconsistency_handling o;
             _header_length := _header_length o;
             _log_file :=
               {| name := name (_log_file o); content := text;
                  position := length text; closed := false |};
             _writer := Some wr';
             _fieldnames := Some (F ∪ list_to_set ext);
             _warned_once :=
               if decide (K ≠ F) then {[ msg ]} ∪ _warned_once o
               else _warned_once o;
             _disable_warnings := _disable_warnings o |};
        shown :=
          if decide (K ≠ F) then
            if negb (_disable_warnings o) && bool_decide (msg ∉ _warned_once o)
            then shown w ++ [msg] else shown w
          else shown w |},
     inr (PyTabular (mark_all (dict_keys d) t))).
Proof.
  intros Hcl Hpos Hwr HF.
  destruct w as [[h hl [nm c pos cl] wr0 F0 ms dw] sh].
  simpl in Hcl, Hpos, Hwr, HF. subst.
  unfold schema_extension, header_patch, overwrite.
  mred.
  rewrite (bool_decide_eq_false_2 (Some wr = None)), andb_false_r by done.
  mred.
  set (K := list_to_set (dict_keys (as_primitive_dict t))).
  generalize (inconsistent_keys_msg rt F K). intros msg.
  generalize (csv_writerow). intros enc.
  destruct (decide (K ≠ F)) as [HKF|HKF]; mred.
  - destruct (handling_enabled h) eqn:Hh.
    + destruct (decide (K ∖ F ≠ ∅)) as [Hnew|Hnew].
      * rewrite (bool_decide_eq_true_2 _ Hnew), andb_true_l.
        rewrite set_iter_to_set.
        destruct (decide (set_iter rt (K ∖ F) = [])) as [Hext|Hext];
          [by apply set_iter_nil in Hext|].
        destruct (negb dw && bool_decide (msg ∉ ms)); mred.
        all: destruct (decide (h = Some fixed_header_length)); mred.
        all: by file_eq.
      * rewrite (bool_decide_eq_false_2 _ Hnew), andb_false_r.
        rewrite decide_True by done.
        change (list_to_set []) with (∅ : gset str).
        rewrite union_empty_r_L, app_nil_r.
        destruct (negb dw && bool_decide (msg ∉ ms)); mred.
        all: destruct wr; by file_eq.
    + rewrite andb_false_l, decide_True by done.
      change (list_to_set []) with (∅ : gset str).
      rewrite union_empty_r_L, app_nil_r.
      destruct (negb dw && bool_decide (msg ∉ ms)); mred.
      all: destruct wr; by file_eq.
  - apply dec_stable in HKF.
    rewrite HKF, difference_diag_L.
    rewrite (bool_decide_eq_false_2 (∅ ≠ ∅)), andb_false_r by (by intros []).
    rewrite decide_True by done.
    change (list_to_set []) with (∅ : gset str).
    rewrite union_empty_r_L, app_nil_r.
    destruct wr; by file_eq.
Qed.

Lemma record_noop (rt : PyRuntime) t w :
  dict_keys (as_primitive_dict t) = [] →
  _writer (self w) = None →
  record rt (PyTabular t) w = (w, inr (PyTabular t)).
Proof.
  intros HK Hwr.
  destruct w as [[h hl f wr0 F0 ms dw] sh]. simpl in Hwr. subst.
  mred. by rewrite HK.
Qed.

Lemma record_first (rt : PyRuntime) t w :
  closed (_log_file (self w)) = false →
  position (_log_file (self w)) = length (content (_log_file (self w))) →
  _writer (self w) = None →
  dict_keys (as_primitive_dict t) ≠ [] →
  let o := self w in
  let d := as_primitive_dict t in
  let wr' := {| fieldnames := dict_keys d |} in
  let text :=
    content (_log_file o)
    ++ header_line (_inconsistency_handling o) (_header_length o) (dict_keys d)
    ++ csv_writerow (dict_to_list wr' d) in
  record rt (PyTabular t) w =
    ({| self :=
          {| _inconsistency_handling := _inconsistency_handling o;
             _header_length := _header_length o;
             _log_file :=
               {| name := name (_log_file o); content := text;
                  position := length text; closed := false |};
             _writer := Some wr';
             _fieldnames := Some (list_to_set (dict_keys d));
             _warned_once := _warned_once o;
             _disable_warnings := _disable_warnings o |};
        shown := shown w |},
     inr (PyTabular (mark_all (dict_keys d) t))).
Proof.
  intros Hcl Hpos Hwr HK.
  destruct w as [[h hl [nm c pos cl] wr0 F0 ms dw] sh].
  simpl in Hcl, Hpos, Hwr. subst.
  unfold header_line. mred.
  rewrite (bool_decide_eq_false_2 _ HK), andb_false_l.
  generalize (csv_writerow). intros enc.
  set (K := list_to_set (dict_keys (as_primitive_dict t))).
  destruct (decide (h = Some fixed_header_length)); mred.
  all: rewrite (decide_False (P := K ≠ K)) by (by intros []); mred.
  all: file_eq.
  all: by rewrite <-?(assoc_L (++)).
Qed.

Lemma record_logic (rt : PyRuntime) t w wr :
  _writer (self w) = Some wr →
  let o := self w in
  let K : gset str := list_to_set (dict_keys (as_primitive_dict t)) in
  let w' := (record rt (PyTabular t) w).1 in
  match _fieldnames o with
  | Some F =>
      let msg := inconsistent_keys_msg rt F K in
      let ext := schema_extension rt (_inconsistency_handling o) F K in
      _writer (self w') = Some {| fieldnames := fieldnames wr ++ ext |}
      ∧ _fieldnames (self w') = Some (F ∪ list_to_set ext)
      ∧ _warned_once (self w') =
          (if decide (K ≠ F) then {[ msg ]} ∪ _warned_once o
           else _warned_once o)
      ∧ shown w' =
          (if decide (K ≠ F) then
             if negb (_disable_warnings o) && bool_decide (msg ∉ _warned_once o)
             then shown w ++ [msg] else shown w
           else shown w)
  | None => w' = w
  end.
Proof.
  intros Hwr.
  destruct w as [[h hl [nm c pos cl] wr0 [F|] ms dw] sh].
  2: { simpl in Hwr; subst. mred.
       by rewrite (bool_decide_eq_false_2 (Some wr = None)), andb_false_r. }
  simpl in Hwr. subst.
  unfold schema_extension.
  mred.
  rewrite (bool_decide_eq_false_2 (Some wr = None)), andb_false_r by done.
  mred.
  set (K := list_to_set (dict_keys (as_primitive_dict t))).
  generalize (inconsistent_keys_msg rt F K). intros msg.
  destruct (decide (K ≠ F)) as [HKF|HKF]; mred.
  - destruct (handling_enabled h) eqn:Hh.
    + destruct (decide (K ∖ F ≠ ∅)) as [Hnew|Hnew].
      * rewrite (bool_decide_eq_true_2 _ Hnew), andb_true_l.
        rewrite set_iter_to_set.
        destruct (negb dw && bool_decide (msg ∉ ms)); mred.
        all: destruct (decide (h = Some fixed_header_length)); mred.
        all: destruct cl; mred; done.
      * rewrite (bool_decide_eq_false_2 _ Hnew), andb_false_r.
        change (list_to_set []) with (∅ : gset str).
        rewrite union_empty_r_L, app_nil_r.
        destruct (negb dw && bool_decide (msg ∉ ms)); mred.
        all: destruct wr, cl; mred; done.
    + rewrite andb_false_l.
      change (list_to_set []) with (∅ : gset str).
      rewrite union_empty_r_L, app_nil_r.
      destruct (negb dw && bool_decide (msg ∉ ms)); mred.
      all: destruct wr, cl; mred; done.
  - apply dec_stable in HKF.
    rewrite HKF, difference_diag_L.
    rewrite (bool_decide_eq_false_2 (∅ ≠ ∅)), andb_false_r by (by intros []).
    change (list_to_set []) with (∅ : gset str).
    rewrite union_empty_r_L, app_nil_r.
    destruct wr, cl; mred; done.
Qed.

Lemma record_logic_uncommitted (rt : PyRuntime) t w :
  _writer (self w) = None →
  let keys := dict_keys (as_primitive_dict t) in
  let w' := (record rt (PyTabular t) w).1 in
  shown w' = shown w
  ∧ _warned_once (self w') = _warned_once (self w)
  ∧ (keys = [] ∧ w' = w
     ∨ keys ≠ []
       ∧ _writer (self w') = Some {| fieldnames := keys |}
       ∧ _fieldnames (self w') = Some (list_to_set keys)).
Proof.
  intros Hwr.
  destruct w as [[h hl [nm c pos cl] wr0 F0 ms dw] sh].
  simpl in Hwr. subst. mred.
  destruct (decide (dict_keys (as_primitive_dict t) = [])) as [HK|HK].
  - rewrite HK. mred. rewrite !bool_decide_eq_true_2 by done. mred. auto.
  - rewrite (bool_decide_eq_false_2 _ HK), andb_false_l.
    set (K := list_to_set (dict_keys (as_primitive_dict t))).
    destruct (decide (h = Some fixed_header_length)); mred.
    all: destruct cl; mred; [by split_and?; try right|].
    all: rewrite (decide_False (P := K ≠ K)) by (by intros []); mred.
    all: by split_and?; try right.
Qed.

Lemma record_frame (rt : PyRuntime) data w :
  let w' := (record rt data w).1 in
  _inconsistency_handling (self w') = _inconsistency_handling (self w)
  ∧ _header_length (self w') = _header_length (self w)
  ∧ _disable_warnings (self w') = _disable_warnings (self w)
  ∧ name (_log_file (self w')) = name (_log_file (self w))
  ∧ closed (_log_file (self w')) = closed (_log_file (self w)).
Proof.
  destruct (record rt data w) as [w' r] eqn:E.
  destruct data as [t| | |]; [|by inversion E..].
  world_cases w.
  all: mwalk E.
  all: inversion E; subst; mred; done.
Qed.

Lemma record_other (rt : PyRuntime) data w :
  (∀ t, data ≠ PyTabular t) →
  record rt data w = (w, inl (ValueError (txt "Unacceptable type."))).
Proof. intros H. destruct data; [by destruct (H t)|done..]. Qed.

Lemma close_frame w :
  let w' := (close w).1 in
  _inconsistency_handling (self w') = _inconsistency_handling (self w)
  ∧ _header_length (self w') = _header_length (self w)
  ∧ _writer (self w') = _writer (self w)
  ∧ _fieldnames (self w') = _fieldnames (self w)
  ∧ _warned_once (self w') = _warned_once (self w)
  ∧ _disable_warnings (self w') = _disable_warnings (self w)
  ∧ shown w' = shown w
  ∧ closed (_log_file (self w')) = true.
Proof.
  destruct w as [[h hl [nm c pos cl] wr F ms dw] sh]. mred.
  destruct (decide (h = Some copy)); mred; [|done].
  destruct wr as [wr|]; mred; [|done].
  by destruct (dict_reader_limited _ _ _) as [? [?|]].
Qed.

Lemma disable_warnings_eq w :
  (disable_warnings w).1 =
    {| self := with_disable_warnings true (self w); shown := shown w |}.
Proof. done. Qed.

(** ** The invariants hold in every reachable world *)

Lemma set_iter_elem_of (rt : PyRuntime) (X : gset str) k : k ∈ set_iter rt X ↔ k ∈ X.
Proof. by rewrite (set_iter_perm rt X), elem_of_elements. Qed.

Lemma set_iter_NoDup (rt : PyRuntime) (X : gset str) : NoDup (set_iter rt X).
Proof. rewrite (set_iter_perm rt X). apply NoDup_elements. Qed.

Lemma schema_inv_record (rt : PyRuntime) data w :
  schema_inv (self w) → schema_inv (self (record rt data w).1).
Proof.
  intros Hinv.
  destruct data as [t| | |]; [|done..].
  unfold schema_inv in *.
  destruct (_writer (self w)) as [wr|] eqn:Hwr.
  - pose proof (record_logic rt t w wr Hwr) as HL. cbv zeta in HL.
    destruct (_fieldnames (self w)) as [F|] eqn:HF; [|done].
    destruct HL as (-> & -> & _). subst F.
    cbv beta iota delta [fieldnames].
    by rewrite list_to_set_app_L.
  - destruct (_fieldnames (self w)) eqn:HF; [done|].
    destruct (record_logic_uncommitted rt t w Hwr) as (_ & _ & [[_ ->]|(_ & -> & ->)]).
    + by rewrite Hwr, HF.
    + done.
Qed.

Lemma warn_inv_record (rt : PyRuntime) data w :
  schema_inv (self w) → warn_inv w → warn_inv (record rt data w).1.
Proof.
  intros Hs (Hnd & Hsub & Hall).
  destruct data as [t| | |]; [|done..].
  pose proof (record_frame rt (PyTabular t) w) as (_ & _ & Hdw & _).
  cbv zeta in Hdw. unfold warn_inv. rewrite Hdw.
  unfold schema_inv in Hs.
  destruct (_writer (self w)) as [wr|] eqn:Hwr.
  - pose proof (record_logic rt t w wr Hwr) as HL. cbv zeta in HL.
    destruct (_fieldnames (self w)) as [F|] eqn:HF; [|done].
    destruct HL as (_ & _ & -> & ->).
    set (msg := inconsistent_keys_msg rt F _).
    case_decide; [|done].
    destruct (_disable_warnings (self w)); simpl.
    + split_and!; [done|set_solver|done].
    + case_bool_decide as Hm.
      * split_and!.
        -- apply NoDup_app. split_and!; [done| |apply NoDup_singleton].
           intros m Hm1 ->%list_elem_of_singleton. by apply Hm, Hsub.
        -- intros m [?| ->%list_elem_of_singleton]%elem_of_app; set_solver.
        -- intros _ m [->%elem_of_singleton|?]%elem_of_union;
             rewrite elem_of_app; [right; by apply list_elem_of_singleton|left; by apply Hall].
      * split_and!; [done|set_solver|].
        intros _ m [->%elem_of_singleton|?]%elem_of_union; by apply Hall.
  - destruct (record_logic_uncommitted rt t w Hwr) as (-> & -> & _). done.
Qed.

Lemma header_patch_length h hl names ext :
  length (header_patch h hl names ext) ≤ hl.
Proof.
  unfold header_patch. repeat case_decide; simpl; try lia.
  rewrite length_take. lia.
Qed.

Lemma overwrite_app (p H X : str) :
  length p ≤ length H → overwrite p (H ++ X) = overwrite p H ++ X.
Proof.
  intros Hle. unfold overwrite.
  by rewrite drop_app_le, (assoc_L (++)) by done.
Qed.

Lemma overwrite_length (p H : str) :
  length p ≤ length H → length (overwrite p H) = length H.
Proof.
  intros Hle. unfold overwrite. rewrite length_app, length_drop. lia.
Qed.

Lemma ljust_length (s : str) n : length (ljust s n) = length s `max` n.
Proof. unfold ljust. rewrite length_app, length_replicate. lia. Qed.

Lemma fixed_header_length_exact (s : str) n : length (take n (ljust s n)) = n.
Proof. rewrite length_take, ljust_length. lia. Qed.

Lemma file_inv_record (rt : PyRuntime) data w :
  schema_inv (self w) → file_inv (self w) → file_inv (self (record rt data w).1).
Proof.
  intros Hs Hf.
  destruct data as [t| | |]; [|done..].
  pose proof (record_frame rt (PyTabular t) w) as (Hh & Hhl & _ & _ & Hcl).
  cbv zeta in Hh, Hhl, Hcl.
  unfold file_inv. rewrite Hh, Hhl, Hcl. clear Hh Hhl Hcl. intros Hopen.
  destruct (Hf Hopen) as (Hpos & Hempty & Hfix).
  unfold schema_inv in Hs.
  destruct (_writer (self w)) as [wr|] eqn:Hwr.
  - destruct (_fieldnames (self w)) as [F|] eqn:HF; [|done].
    rewrite (record_committed rt t w wr F) by done.
    cbn [fst self _log_file _writer content position _inconsistency_handling _header_length].
    split_and!; [done|done|].
    intros _ Hfixed.
    destruct Hfix as (H & rest & Hc & HH); [done..|].
    rewrite Hc.
    set (p := header_patch _ _ _ _). set (row := csv_writerow _).
    assert (length p ≤ length H) by (rewrite HH; apply header_patch_length).
    exists (overwrite p H), (rest ++ row).
    by rewrite overwrite_app, overwrite_length, <-!(assoc_L (++)).
  - destruct (decide (dict_keys (as_primitive_dict t) = [])) as [HK|HK].
    + rewrite record_noop by done. cbn [fst]. rewrite Hwr. by split_and!.
    + rewrite record_first by done.
      cbn [fst self _log_file _writer content position _inconsistency_handling _header_length].
      rewrite Hempty by done.
      split_and!; [done|done|].
      intros _ Hfixed. unfold header_line. rewrite decide_True by done.
      set (row := csv_writerow _).
      exists (take (_header_length (self w))
                (ljust (join [COMMA] (dict_keys (as_primitive_dict t)))
                       (_header_length (self w)))), row.
      rewrite app_nil_l, <-!(assoc_L (++)).
      split; [done|]. apply fixed_header_length_exact.
Qed.

Lemma inv_do_call (rt : PyRuntime) c w : inv w → inv (do_call rt c w).
Proof.
  intros (Hs & Hw & Hf). destruct c as [data| |]; unfold do_call.
  - split_and!; [by apply schema_inv_record|by apply warn_inv_record
                |by apply file_inv_record].
  - rewrite disable_warnings_eq. destruct w as [[h hl f wr F ms dw] sh].
    split_and!; [done| |done].
    destruct Hw as (? & ? & ?). by split_and!.
  - pose proof (close_frame w) as (Hh & Hhl & Hwr & HF & Hms & Hdw & Hsh & Hcl).
    cbv zeta in *.
    destruct Hw as (? & ? & ?).
    unfold inv, schema_inv, warn_inv, file_inv in *.
    rewrite Hwr, HF, Hms, Hdw, Hsh, Hcl. by split_and!.
Qed.

Lemma inv_fresh fn impl hl : inv (fresh fn impl hl).
Proof.
  split_and!; [done| |].
  - split_and!; [apply NoDup_nil_2|by intros ? ?%elem_of_nil|set_solver].
  - intros _. split_and!; [done|done|]. by intros [].
Qed.

Lemma run_cons (rt : PyRuntime) w calls c :
  run rt w (c :: calls) = run rt (do_call rt c w) calls.
Proof. done. Qed.

Lemma inv_run (rt : PyRuntime) w calls : inv w → inv (run rt w calls).
Proof.
  revert w. induction calls as [|c calls IH]; intros w Hw; [done|].
  rewrite run_cons. by apply IH, inv_do_call.
Qed.

Lemma reachable_inv (rt : PyRuntime) w : reachable rt w → inv w.
Proof. intros (fn & impl & hl & calls & ->). apply inv_run, inv_fresh. Qed.

(** ** Input validation *)

Lemma unacceptable_not_closed :
  ValueError (txt "Unacceptable type.") ≠ closed_file_error.
Proof. intros H. inversion H. Qed.

(** C9.  Handed anything but a [TabularInput], [record] raises
    [ValueError('Unacceptable type.')] and leaves the world as it was: schema,
    warned messages, file and shown warnings.  Handed a [TabularInput], it
    never raises that error. *)
Theorem record_rejects_other_types (rt : PyRuntime) (data : PyObject) (w : World) :
  match data with
  | PyTabular _ =>
      (record rt data w).2 ≠ inl (ValueError (txt "Unacceptable type."))
  | _ => record rt data w = (w, inl (ValueError (txt "Unacceptable type.")))
  end.
Proof.
  destruct data as [t| | |]; [|done..].
  destruct (record rt (PyTabular t) w) as [w' r] eqn:E.
  world_cases w.
  all: mwalk E.
  all: inversion E; subst; clear E; cbn [snd].
  all: first [ by intros [=]
             | by intros ?%symmetry%inl_inj%symmetry%unacceptable_not_closed
             | idtac ].
Qed.

(** ** Closing a writer that never wrote *)

(** C10.  A writer with the 'copy' handling closed before any schema was
    committed: [close] closes the file, then fails on
    [self._writer.fieldnames] with an [AttributeError]; the file keeps its
    content, nothing is rewritten. *)
Theorem close_copy_before_any_record (w : World) :
  _inconsistency_handling (self w) = Some copy →
  _writer (self w) = None →
  ∃ w',
    close w =
      (w', inl (AttributeError
                  (txt "'NoneType' object has no attribute 'fieldnames'")))
    ∧ closed (_log_file (self w')) = true
    ∧ content (_log_file (self w')) = content (_log_file (self w))
    ∧ _writer (self w') = None
    ∧ shown w' = shown w.
Proof.
  intros Hh Hwr.
  destruct w as [[h hl [nm c pos cl] wr F ms dw] sh].
  simpl in Hh, Hwr. subst. mred.
  rewrite decide_True by done. mred. by eexists.
Qed.

Lemma close_copy_before_any_record_witness :
  ∃ w',
    close (fresh (txt "progress.csv") (Some copy) 140) =
      (w', inl (AttributeError
                  (txt "'NoneType' object has no attribute 'fieldnames'")))
    ∧ closed (_log_file (self w')) = true
    ∧ content (_log_file (self w')) = []
    ∧ _writer (self w') = None
    ∧ shown w' = [].
Proof.
  apply (close_copy_before_any_record (fresh (txt "progress.csv") (Some copy) 140));
    reflexivity.
Defined.

(** ** Empty records before the schema is committed *)

Lemma run_empty_records (rt : PyRuntime) w (es : list TabularInput) :
  Forall (λ e, dict_keys (as_primitive_dict e) = []) es →
  _writer (self w) = None →
  run rt w (Record_ ∘ PyTabular <$> es) = w.
Proof.
  intros Hes Hwr. induction Hes as [|e es He _ IH]; [done|].
  rewrite fmap_cons, run_cons. unfold do_call, compose.
  by rewrite record_noop.
Qed.


(** ** The header of the fixed header length *)

(** C3.  Fixed header length: the first record with fields writes a header
    of exactly [header_length] characters and then the line terminator: the
    comma-joined names followed by spaces when they are shorter, their first
    [header_length] characters when they are longer. *)
Theorem fixed_header_initial (rt : PyRuntime) fn hl
    (es : list TabularInput) (t : TabularInput) :
  Forall (λ e, dict_keys (as_primitive_dict e) = []) es →
  dict_keys (as_primitive_dict t) ≠ [] →
  let w := run rt (fresh fn (Some fixed_header_length) hl)
               (Record_ ∘ PyTabular <$> es) in
  let keys := dict_keys (as_primitive_dict t) in
  let header := join [COMMA] keys in
  ∃ w1 H,
    record rt (PyTabular t) w = (w1, inr (PyTabular (mark_all keys t)))
    ∧ content (_log_file (self w1))
      = H ++ CRLF
        ++ csv_writerow (dict_to_list {| fieldnames := keys |}
                                      (as_primitive_dict t))
    ∧ length H = hl
    ∧ (length header ≤ hl → H = header ++ replicate (hl - length header) SPACE)
    ∧ (hl ≤ length header → H = take hl header).
Proof.
  intros Hes HK w keys header. subst w.
  rewrite run_empty_records by done.
  rewrite record_first by done.
  eexists _, (take hl (ljust header hl)). split; [done|].
  cbn [self _log_file content fresh __init__ open_w _inconsistency_handling
       _header_length].
  unfold header_line. rewrite decide_True by done.
  rewrite app_nil_l, <-(assoc_L (++)).
  split_and!; [done|apply fixed_header_length_exact|..].
  - intros Hle. unfold ljust. rewrite take_ge; [done|].
    rewrite length_app, length_replicate. lia.
  - intros Hle. unfold ljust. by rewrite take_app_le.
Qed.

Lemma fixed_header_initial_witness :
  let t := tabular [("foo", "1"); ("bar", "10")]%string in
  let w := run rt_elements (fresh (txt "progress.csv") (Some fixed_header_length) 5)
               (Record_ ∘ PyTabular <$> [tabular []]) in
  let keys := [txt "foo"; txt "bar"] in
  let header := txt "foo,bar" in
  ∃ w1 H,
    record rt_elements (PyTabular t) w = (w1, inr (PyTabular (mark_all keys t)))
    ∧ content (_log_file (self w1))
      = H ++ CRLF
        ++ csv_writerow (dict_to_list {| fieldnames := keys |}
                                      (as_primitive_dict t))
    ∧ length H = 5
    ∧ (length header ≤ 5 → H = header ++ replicate (5 - length header) SPACE)
    ∧ (5 ≤ length header → H = take 5 header).
Proof.
  apply (fixed_header_initial rt_elements (txt "progress.csv") 5 [tabular []]
           (tabular [("foo", "1"); ("bar", "10")]%string)).
  - repeat constructor.
  - discriminate.
Defined.

(** Decide a closed proposition by evaluation. *)
Ltac by_compute := refine (bool_decide_unpack _ _); vm_compute; exact I.

(** ** Marking consumed fields *)

Lemma mark_all_dict keys t :
  as_primitive_dict (mark_all keys t) = as_primitive_dict t.
Proof.
  unfold mark_all. revert t. induction keys as [|k keys IH]; intros t; [done|].
  simpl. by rewrite IH.
Qed.

Lemma mark_all_recorded keys t :
  _recorded (mark_all keys t) = list_to_set keys ∪ _recorded t.
Proof.
  unfold mark_all. revert t. induction keys as [|k keys IH]; intros t; simpl.
  - by rewrite union_empty_l_L.
  - rewrite IH. simpl. by rewrite (assoc_L (∪)), (comm_L (∪) (list_to_set keys)).
Qed.

(** C5, as the code has it.  A record written to a committed, open file
    never fails; the row holds one value per name of the (possibly extended)
    schema and nothing for the other keys of the record; and every key of
    the record is marked consumed, in the schema or not. *)
Theorem record_marks_every_key (rt : PyRuntime) w (t : TabularInput) wr :
  reachable rt w →
  closed (_log_file (self w)) = false →
  _writer (self w) = Some wr →
  let d := as_primitive_dict t in
  let F : gset str := list_to_set (fieldnames wr) in
  let ext :=
    schema_extension rt (_inconsistency_handling (self w)) F
                     (list_to_set (dict_keys d)) in
  let names := fieldnames wr ++ ext in
  let patch :=
    header_patch (_inconsistency_handling (self w)) (_header_length (self w))
                 (fieldnames wr) ext in
  ∃ w' t',
    record rt (PyTabular t) w = (w', inr (PyTabular t'))
    ∧ _writer (self w') = Some {| fieldnames := names |}
    ∧ content (_log_file (self w'))
      = overwrite patch (content (_log_file (self w)))
        ++ csv_writerow ((λ key, default [] (dict_get key d)) <$> names)
    ∧ as_primitive_dict t' = d
    ∧ _recorded t' = list_to_set (dict_keys d) ∪ _recorded t.
Proof.
  intros (Hs & _ & Hf)%reachable_inv Hopen Hwr d F ext names patch.
  destruct (Hf Hopen) as (Hpos & _).
  unfold schema_inv in Hs. rewrite Hwr in Hs.
  destruct (_fieldnames (self w)) as [F'|] eqn:HF; [|done].
  subst F'.
  rewrite (record_committed rt t w wr _ Hopen Hpos Hwr HF).
  eexists _, _. split; [done|].
  by rewrite mark_all_dict, mark_all_recorded.
Qed.

Lemma record_marks_every_key_witness :
  let w := run rt_elements (fresh (txt "progress.csv") None 140)
               [log [("foo", "1")]%string] in
  let t := tabular [("foo", "2"); ("bar", "20")]%string in
  ∃ w' t',
    record rt_elements (PyTabular t) w = (w', inr (PyTabular t'))
    ∧ _writer (self w') = Some {| fieldnames := [txt "foo"] ++ [] |}
    ∧ content (_log_file (self w'))
      = overwrite [] (content (_log_file (self w)))
        ++ csv_writerow
             ((λ key, default [] (dict_get key (as_primitive_dict t)))
                <$> ([txt "foo"] ++ []))
    ∧ as_primitive_dict t' = as_primitive_dict t
    ∧ _recorded t' = list_to_set [txt "foo"; txt "bar"] ∪ ∅.
Proof.
  apply (record_marks_every_key rt_elements
           (run rt_elements (fresh (txt "progress.csv") None 140)
                [log [("foo", "1")]%string])
           (tabular [("foo", "2"); ("bar", "20")]%string)
           {| fieldnames := [txt "foo"] |}).
  - by eexists _, _, _, _.
  - reflexivity.
  - reflexivity.
Defined.

(** C5 as the specification words it fails: without a handling and with
    the schema [foo], the record [foo, bar] gets [bar] marked although [bar]
    is outside the schema. *)
Lemma extra_field_marked_counterexample :
  let w := run rt_elements (fresh (txt "progress.csv") None 140)
               [log [("foo", "1")]%string] in
  let t := tabular [("foo", "2"); ("bar", "20")]%string in
  ∃ w' t',
    record rt_elements (PyTabular t) w = (w', inr (PyTabular t'))
    ∧ _writer (self w') = Some {| fieldnames := [txt "foo"] |}
    ∧ txt "bar" ∈ dict_keys (as_primitive_dict t)
    ∧ (txt "bar" ∉ [txt "foo"])
    ∧ (txt "bar" ∉ _recorded t)
    ∧ txt "bar" ∈ _recorded t'.
Proof.
  intros w t.
  assert (reachable rt_elements w) as (Hs & _ & Hf)%reachable_inv
    by by eexists _, _, _, _.
  destruct (Hf eq_refl) as (Hpos & _).
  eexists _, _. split.
  { exact (record_committed rt_elements t w {| fieldnames := [txt "foo"] |}
             {[ txt "foo" ]} eq_refl Hpos eq_refl eq_refl). }
  split; [reflexivity|].
  split_and!.
  - by_compute.
  - by_compute.
  - apply not_elem_of_empty.
  - rewrite mark_all_recorded.
    apply elem_of_union_l, elem_of_list_to_set. by_compute.
Qed.

(** ** The schema is only ever extended *)

Lemma do_call_writer (rt : PyRuntime) c w wr :
  _writer (self w) = Some wr →
  ∃ ext, _writer (self (do_call rt c w))
         = Some {| fieldnames := fieldnames wr ++ ext |}.
Proof.
  intros Hwr. destruct c as [data| |]; unfold do_call.
  - destruct data as [t| | |].
    2-4: exists []; rewrite app_nil_r; by destruct wr.
    pose proof (record_logic rt t w wr Hwr) as HL. cbv zeta in HL.
    destruct (_fieldnames (self w)) as [F|].
    + destruct HL as (-> & _). by eexists.
    + rewrite HL, Hwr. exists []. rewrite app_nil_r. by destruct wr.
  - rewrite disable_warnings_eq. exists []. rewrite app_nil_r.
    destruct w as [[]]; simpl in *. by destruct wr.
  - pose proof (close_frame w) as (_ & _ & -> & _).
    exists []. rewrite app_nil_r, Hwr. by destruct wr.
Qed.

Lemma schema_extension_spec (rt : PyRuntime) (h : option str) (F : gset str)
    (keys : list str) :
  let ext := schema_extension rt h F (list_to_set keys) in
  NoDup ext
  ∧ ∀ k, k ∈ ext ↔ handling_enabled h = true ∧ k ∈ keys ∧ k ∉ F.
Proof.
  unfold schema_extension.
  destruct (handling_enabled h); simpl.
  - case_bool_decide as Hnew.
    + split; [apply set_iter_NoDup|]. intros k.
      rewrite set_iter_elem_of, elem_of_difference, elem_of_list_to_set.
      split; [by intros [? ?]|by intros (_ & ? & ?)].
    + split; [apply NoDup_nil_2|]. intros k. split; [by intros ?%elem_of_nil|].
      intros (_ & Hk & HF). exfalso.
      apply (not_elem_of_empty (C := gset str) k). rewrite <-Hnew.
      apply elem_of_difference. by rewrite elem_of_list_to_set.
  - split; [apply NoDup_nil_2|]. intros k. split; [by intros ?%elem_of_nil|].
    by intros ([=] & _).
Qed.

(** C4, as the code has it.  Once a schema is committed, whatever is
    called, the names of the writer only grow at the end.  A record adds its
    keys that are not yet in the schema when a handling is chosen, and
    nothing otherwise: each new key once, in the order in which the runtime
    enumerates the set of the new keys. *)
Theorem schema_only_extended (rt : PyRuntime) w wr :
  _writer (self w) = Some wr →
  (∀ calls, ∃ ext,
      _writer (self (run rt w calls))
      = Some {| fieldnames := fieldnames wr ++ ext |})
  ∧ (∀ (t : TabularInput) F,
       _fieldnames (self w) = Some F →
       let keys := dict_keys (as_primitive_dict t) in
       let ext :=
         schema_extension rt (_inconsistency_handling (self w)) F
                          (list_to_set keys) in
       _writer (self (do_call rt (Record_ (PyTabular t)) w))
       = Some {| fieldnames := fieldnames wr ++ ext |}
       ∧ NoDup ext
       ∧ ∀ k, k ∈ ext ↔
              handling_enabled (_inconsistency_handling (self w)) = true
              ∧ k ∈ keys ∧ k ∉ F).
Proof.
  intros Hwr. split.
  - intros calls. revert w wr Hwr.
    induction calls as [|c calls IH]; intros w wr Hwr.
    + exists []. rewrite app_nil_r. by destruct wr.
    + rewrite run_cons.
      destruct (do_call_writer rt c w wr Hwr) as (ext1 & H1).
      destruct (IH _ _ H1) as (ext2 & H2).
      exists (ext1 ++ ext2). rewrite H2. simpl. by rewrite (assoc_L (++)).
  - intros t F HF keys ext.
    pose proof (record_logic rt t w wr Hwr) as HL. cbv zeta in HL.
    rewrite HF in HL. destruct HL as (HL & _).
    split; [exact HL|]. apply schema_extension_spec.
Qed.

Lemma schema_only_extended_witness :
  let w := run rt_elements (fresh (txt "progress.csv") (Some copy) 140)
               [log [("a", "1")]%string] in
  (∀ calls, ∃ ext,
      _writer (self (run rt_elements w calls))
      = Some {| fieldnames := [txt "a"] ++ ext |})
  ∧ (∀ (t : TabularInput) F,
       _fieldnames (self w) = Some F →
       let keys := dict_keys (as_primitive_dict t) in
       let ext := schema_extension rt_elements (Some copy) F (list_to_set keys) in
       _writer (self (do_call rt_elements (Record_ (PyTabular t)) w))
       = Some {| fieldnames := [txt "a"] ++ ext |}
       ∧ NoDup ext
       ∧ ∀ k, k ∈ ext ↔
              handling_enabled (Some copy) = true ∧ k ∈ keys ∧ k ∉ F).
Proof.
  apply (schema_only_extended rt_elements
           (run rt_elements (fresh (txt "progress.csv") (Some copy) 140)
                [log [("a", "1")]%string])
           {| fieldnames := [txt "a"] |}).
  reflexivity.
Defined.

(** C4 as the specification words it fails: with the schema [a] and a
    runtime that enumerates the set of [d] and [x] as [x], [d], the record
    with the keys [d], [x] in this order extends the schema to [a], [x], [d],
    not by the order of first appearance. *)
Lemma extension_order_counterexample :
  let w := run rt_elements (fresh (txt "progress.csv") (Some copy) 140)
               [log [("a", "1")]%string] in
  let t := tabular [("d", "1"); ("x", "2")]%string in
  _writer (self w) = Some {| fieldnames := [txt "a"] |}
  ∧ first_appearance_extension {[ txt "a" ]} (dict_keys (as_primitive_dict t))
    = [txt "d"; txt "x"]
  ∧ _writer (self (do_call rt_elements (Record_ (PyTabular t)) w))
    = Some {| fieldnames := [txt "a"; txt "x"; txt "d"] |}.
Proof. vm_compute. done. Qed.

(** The same calls under the runtime that enumerates a set the other way
    round extend the schema to [a], [d], [x]: the order of the new names is
    the runtime's, not the record's. *)
Example extension_order_rt_reverse :
  _writer (self
    (run rt_reverse (fresh (txt "progress.csv") (Some copy) 140)
       [log [("a", "1")]%string; log [("d", "1"); ("x", "2")]%string]))
  = Some {| fieldnames := [txt "a"; txt "d"; txt "x"] |}.
Proof. by vm_compute. Qed.

(** ** Warnings are shown once *)

Lemma shown_do_call (rt : PyRuntime) c w m :
  m ∈ shown w → m ∈ shown (do_call rt c w).
Proof.
  intros Hm. destruct c as [data| |]; unfold do_call.
  - destruct data as [t| | |]; [|done..].
    destruct (_writer (self w)) as [wr|] eqn:Hwr.
    + pose proof (record_logic rt t w wr Hwr) as HL. cbv zeta in HL.
      destruct (_fieldnames (self w)) as [F|]; [|by rewrite HL].
      destruct HL as (_ & _ & _ & ->).
      repeat case_match; rewrite ?elem_of_app; auto.
    + by destruct (record_logic_uncommitted rt t w Hwr) as (-> & _).
  - done.
  - by pose proof (close_frame w) as (_ & _ & _ & _ & _ & _ & -> & _).
Qed.

Lemma shown_run (rt : PyRuntime) calls w m :
  m ∈ shown w → m ∈ shown (run rt w calls).
Proof.
  revert w. induction calls as [|c calls IH]; intros w Hm; [done|].
  rewrite run_cons. by apply IH, shown_do_call.
Qed.

Lemma filter_eq_NoDup (l : list str) (m : str) :
  NoDup l → length (filter (λ x, x = m) l) = if decide (m ∈ l) then 1 else 0.
Proof.
  induction 1 as [|x l Hx Hnd IH].
  - by rewrite decide_False by apply not_elem_of_nil.
  - rewrite filter_cons. destruct (decide (x = m)) as [->|Hne].
    + rewrite decide_True by apply list_elem_of_here.
      simpl. rewrite IH. by rewrite decide_False.
    + rewrite IH. destruct (decide (m ∈ l)).
      * by rewrite decide_True by by apply list_elem_of_further.
      * rewrite decide_False; [done|].
        intros [->|?]%elem_of_cons; done.
Qed.

(** C6.  In the life of a writer no warning text is ever shown twice.  With
    warnings enabled, once a record whose keys differ from the committed ones
    has been written, the warning for this pair of key sets has been shown
    exactly once, and that stays so whatever is called afterwards, writes of
    the same or of other key sets included. *)
Theorem warning_shown_once (rt : PyRuntime) fn impl hl calls :
  let w := run rt (fresh fn impl hl) calls in
  (∀ msg, times_shown msg w ≤ 1)
  ∧ ∀ (t : TabularInput) wr F calls',
      _writer (self w) = Some wr →
      _fieldnames (self w) = Some F →
      _disable_warnings (self w) = false →
      let K : gset str := list_to_set (dict_keys (as_primitive_dict t)) in
      K ≠ F →
      times_shown (inconsistent_keys_msg rt F K)
                  (run rt w (Record_ (PyTabular t) :: calls')) = 1.
Proof.
  intros w.
  assert (inv w) as Hinv by apply inv_run, inv_fresh.
  split.
  - intros msg. destruct Hinv as (_ & (Hnd & _) & _).
    unfold times_shown. rewrite filter_eq_NoDup by done. case_decide; lia.
  - intros t wr F calls' Hwr HF Hdw K HK.
    rewrite run_cons.
    set (w1 := do_call rt (Record_ (PyTabular t)) w).
    assert (inv (run rt w1 calls')) as (_ & (Hnd & _) & _)
      by by apply inv_run, inv_do_call.
    unfold times_shown. rewrite filter_eq_NoDup by done.
    rewrite decide_True; [done|].
    apply shown_run. subst w1. unfold do_call.
    pose proof (record_logic rt t w wr Hwr) as HL. cbv zeta in HL.
    rewrite HF in HL. destruct HL as (_ & _ & _ & ->).
    fold K. rewrite decide_True, Hdw by done. simpl.
    case_bool_decide as Hm.
    + apply elem_of_app. right. apply list_elem_of_here.
    + destruct Hinv as (_ & (_ & _ & Hall) & _). by apply Hall.
Qed.

Lemma warning_shown_once_witness :
  let w := run rt_elements (fresh (txt "progress.csv") None 140)
               [log [("foo", "1")]%string] in
  let t := tabular [("foo", "2"); ("bar", "20")]%string in
  times_shown
    (inconsistent_keys_msg rt_elements {[ txt "foo" ]}
                           (list_to_set [txt "foo"; txt "bar"]))
    (run rt_elements w [Record_ (PyTabular t); Record_ (PyTabular t)])
  = 1.
Proof.
  intros w t.
  apply (proj2 (warning_shown_once rt_elements (txt "progress.csv") None 140
                  [log [("foo", "1")]%string])
               t {| fieldnames := [txt "foo"] |} {[ txt "foo" ]}
               [Record_ (PyTabular t)]).
  - reflexivity.
  - by vm_compute.
  - reflexivity.
  - by_compute.
Defined.

(** ** The header patch of the fixed header length *)

(** C2.  The header patch on a UTF-8 file, header length 5.  The first
    record, with the key [a], leaves the header [a] padded to five bytes,
    its line terminator and the row [1].  A second record that brings the
    key of two letters e-acute extends the field names; the patch is the
    four characters of the joined names, which take six bytes, and it goes
    over the last space of the header and the carriage return of its
    terminator.  With a key of three such letters instead the patch is five
    characters in eight bytes: it goes over the whole header line and the
    row [1], which is lost; the terminator of that row then ends the header.
    So the bytes written over are not bounded by the header length, and a
    row written before does not stay. *)
Theorem fixed_header_patch_bytes :
  let e := "233"%char in
  let t1 := tabular [("a", "1")]%string in
  let t2 := {| as_primitive_dict := [(txt "a", txt "2"); ([e; e], txt "3")];
               _recorded := ∅ |} in
  let t3 := {| as_primitive_dict := [(txt "a", txt "2"); ([e; e; e], txt "3")];
               _recorded := ∅ |} in
  let w0 := fresh (txt "progress.csv") (Some fixed_header_length) 5 in
  let w1 := (record_enc rt_elements utf8 (PyTabular t1) w0).1 in
  let w2 := (record_enc rt_elements utf8 (PyTabular t2) w1).1 in
  let w3 := (record_enc rt_elements utf8 (PyTabular t3) w1).1 in
  content (_log_file (self w1)) = txt "a    " ++ CRLF ++ txt "1" ++ CRLF
  ∧ _writer (self w2) = Some {| fieldnames := [txt "a"; [e; e]] |}
  ∧ content (_log_file (self w2))
    = txt "a," ++ ["195"; "169"; "195"; "169"]%char ++ [LF]
      ++ txt "1" ++ CRLF ++ txt "2,3" ++ CRLF
  ∧ _writer (self w3) = Some {| fieldnames := [txt "a"; [e; e; e]] |}
  ∧ content (_log_file (self w3))
    = txt "a," ++ ["195"; "169"; "195"; "169"; "195"; "169"]%char ++ CRLF
      ++ txt "2,3" ++ CRLF.
Proof. by vm_compute. Qed.

(** ** Reading back what the writer wrote *)

Lemma parse_chars_app s1 s2 r :
  parse_chars (s1 ++ s2) r =
    match parse_chars s1 r with
    | inl e => inl e
    | inr r' => parse_chars s2 r'
    end.
Proof.
  revert r. induction s1 as [|c s1 IH]; intros r; simpl; [done|].
  destruct (parse_process_char (Some c) r); [done|]. apply IH.
Qed.

Lemma parse_chars_snoc s c r :
  parse_chars (s ++ [c]) r = feed c (parse_chars s r).
Proof.
  rewrite parse_chars_app. unfold feed.
  destruct (parse_chars s r) as [e|r']; [done|]. simpl.
  by destruct (parse_process_char (Some c) r').
Qed.

Lemma reader_rows_line r0 n line lines :
  reader_rows r0 n (line :: lines)
  = end_line (parse_chars line r0) n (λ r, reader_rows r (S n) lines).
Proof.
  simpl. unfold parse_line, end_line.
  destruct (parse_chars line r0) as [e|r]; [done|].
  destruct (parse_process_char None r) as [e|r']; [done|].
  by destruct (state r').
Qed.

Lemma end_line_ext x n k1 k2 :
  (∀ r, k1 r = k2 r) → end_line x n k1 = end_line x n k2.
Proof.
  intros Hk. unfold end_line. destruct x as [e|r]; [done|].
  destruct (parse_process_char None r) as [e|r']; [done|].
  destruct (state r'); by rewrite ?Hk.
Qed.

(** [scan] is the reader on the lines of the text. *)
Lemma scan_readlines s r0 cur n :
  reader_rows r0 n (readlines cur s)
  = scan (parse_chars cur r0) (bool_decide (cur ≠ [])) n s.
Proof.
  remember (length s) as m eqn:Hm.
  revert s Hm r0 cur n. induction (lt_wf m) as [m _ IH].
  intros s -> r0 cur n.
  destruct s as [|c s'].
  - simpl. destruct cur as [|c cur].
    + by rewrite bool_decide_eq_false_2 by (by intros []).
    + rewrite bool_decide_eq_true_2 by done. apply reader_rows_line.
  - cbn [readlines scan].
    destruct (decide (c = LF)) as [->|HLF].
    + rewrite reader_rows_line, parse_chars_snoc. apply end_line_ext.
      intros r. by rewrite (IH (length s')) by (simpl; lia).
    + destruct (decide (c = CR)) as [->|HCR].
      * destruct s' as [|c' s''].
        -- by rewrite reader_rows_line, parse_chars_snoc.
        -- destruct (decide (c' = LF)) as [->|HLF'].
           ++ rewrite reader_rows_line.
              change [CR; LF] with ([CR] ++ [LF]).
              rewrite (assoc_L (++)), !parse_chars_snoc. apply end_line_ext.
              intros r. by rewrite (IH (length s'')) by (simpl; lia).
           ++ rewrite reader_rows_line, parse_chars_snoc. apply end_line_ext.
              intros r. by rewrite (IH (length (c' :: s''))) by (simpl; lia).
      * rewrite (IH (length s')) by (simpl; lia).
        rewrite parse_chars_snoc.
        by rewrite bool_decide_eq_true_2 by (by destruct cur).
Qed.

Lemma csv_rows_scan text :
  csv_rows text = rows_of (scan (inr parse_reset) false 0 text).
Proof. unfold csv_rows, csv_reader. by rewrite scan_readlines. Qed.

(** *** Fields, records and whole files *)

Lemma special_false c :
  special c = false ↔ c ≠ COMMA ∧ c ≠ QUOTE ∧ c ≠ CR ∧ c ≠ LF.
Proof.
  unfold special. rewrite !orb_false_iff, !bool_decide_eq_false. tauto.
Qed.

Lemma is_newline_false c : c ≠ CR → c ≠ LF → is_newline c = false.
Proof.
  intros. unfold is_newline.
  by rewrite !bool_decide_eq_false_2.
Qed.

Lemma scan_cons_other c x p n s :
  c ≠ LF → c ≠ CR → scan x p n (c :: s) = scan (feed c x) true n s.
Proof. intros. cbn [scan]. by rewrite !decide_False. Qed.

Lemma QUOTE_not_LF : QUOTE ≠ LF.
Proof. done. Qed.

Lemma QUOTE_not_CR : QUOTE ≠ CR.
Proof. done. Qed.

Lemma COMMA_not_LF : COMMA ≠ LF.
Proof. done. Qed.

Lemma COMMA_not_CR : COMMA ≠ CR.
Proof. done. Qed.

(** One character inside a quoted field. *)
Lemma scan_in_quoted f fs c s p n :
  c ≠ QUOTE →
  ∃ p' n',
    scan (inr (mk IN_QUOTED_FIELD f fs)) p n (c :: s)
    = scan (inr (mk IN_QUOTED_FIELD (f ++ [c]) fs)) p' n' s.
Proof.
  intros HQ.
  assert (feed c (inr (mk IN_QUOTED_FIELD f fs))
          = inr (mk IN_QUOTED_FIELD (f ++ [c]) fs)) as Hfeed.
  { unfold feed, parse_process_char. simpl. by rewrite decide_False. }
  assert (∀ g m k, end_line (inr (mk IN_QUOTED_FIELD g fs)) m k
                   = k (mk IN_QUOTED_FIELD g fs)) as Hend by done.
  cbn [scan].
  destruct (decide (c = LF)) as [->|HLF].
  { rewrite Hfeed, Hend. by eexists _, _. }
  destruct (decide (c = CR)) as [->|HCR].
  - destruct s as [|c' s''].
    + rewrite Hfeed, Hend. exists false, (S n). done.
    + destruct (decide (c' = LF)) as [->|HLF'].
      * rewrite Hfeed. exists p, n. cbn [scan].
        by rewrite decide_True by done.
      * rewrite Hfeed, Hend. by eexists _, _.
  - rewrite Hfeed. by eexists _, _.
Qed.

(** A quoted field up to its closing quote. *)
Lemma scan_quoted v f fs rest p n :
  ∃ p' n',
    scan (inr (mk IN_QUOTED_FIELD f fs)) p n (double_quotes v ++ QUOTE :: rest)
    = scan (inr (mk QUOTE_IN_QUOTED_FIELD (f ++ v) fs)) p' n' rest.
Proof.
  revert f p n. induction v as [|c v IH]; intros f p n.
  - exists true, n. rewrite app_nil_r. cbn [double_quotes app].
    by rewrite scan_cons_other by done.
  - cbn [double_quotes]. destruct (decide (c = QUOTE)) as [->|HQ].
    + destruct (IH (f ++ [QUOTE]) true n) as (p' & n' & E).
      exists p', n'.
      replace (f ++ QUOTE :: v) with ((f ++ [QUOTE]) ++ v)
        by (by rewrite <-(assoc_L (++))).
      rewrite <-E. cbn [app].
      by rewrite !scan_cons_other by done.
    + destruct (scan_in_quoted f fs c (double_quotes v ++ QUOTE :: rest) p n HQ)
        as (p1 & n1 & E1).
      destruct (IH (f ++ [c]) p1 n1) as (p' & n' & E).
      exists p', n'.
      replace (f ++ c :: v) with ((f ++ [c]) ++ v)
        by (by rewrite <-(assoc_L (++))).
      rewrite <-E. exact E1.
Qed.

(** An unquoted field: its characters are taken as they are. *)
Lemma scan_plain v f fs rest n :
  existsb special v = false →
  scan (inr (mk IN_FIELD f fs)) true n (v ++ rest)
  = scan (inr (mk IN_FIELD (f ++ v) fs)) true n rest.
Proof.
  revert f. induction v as [|c v IH]; intros f Hv.
  - by rewrite app_nil_r.
  - simpl in Hv. apply orb_false_iff in Hv as [Hc Hv].
    apply special_false in Hc as (HC & HQ & HCR & HLF).
    cbn [app]. rewrite scan_cons_other by done.
    replace (f ++ c :: v) with ((f ++ [c]) ++ v)
      by (by rewrite <-(assoc_L (++))).
    rewrite <-IH by done.
    unfold feed, parse_process_char. simpl.
    by rewrite is_newline_false, decide_False by done.
Qed.

(** A field as [csv.writer] writes it, read from the start of a field. *)
Lemma scan_field v fs rest p n :
  ∃ st p' n',
    scan (inr (mk START_FIELD [] fs)) p n (csv_field v ++ rest)
    = scan (inr (mk st v fs)) p' n' rest
    ∧ (st = START_FIELD ∨ st = IN_FIELD ∨ st = QUOTE_IN_QUOTED_FIELD).
Proof.
  unfold csv_field. destruct (existsb special v) eqn:Hv.
  - destruct (scan_quoted v [] fs rest true n) as (p' & n' & E).
    exists QUOTE_IN_QUOTED_FIELD, p', n'. split; [|by auto].
    rewrite app_nil_l in E. rewrite <-E.
    cbn [app]. rewrite scan_cons_other by done.
    by rewrite <-(assoc_L (++)).
  - destruct v as [|c v].
    + exists START_FIELD, p, n. by auto.
    + exists IN_FIELD, true, n. split; [|by auto].
      simpl in Hv. apply orb_false_iff in Hv as [Hc Hv].
      apply special_false in Hc as (HC & HQ & HCR & HLF).
      cbn [app]. rewrite scan_cons_other by done.
      change (c :: v) with ([c] ++ v).
      rewrite <-(scan_plain v [c] fs rest n Hv).
      unfold feed, parse_process_char, start_field. simpl.
      by rewrite is_newline_false, !decide_False by done.
Qed.

Lemma feed_comma st v fs :
  st = START_FIELD ∨ st = IN_FIELD ∨ st = QUOTE_IN_QUOTED_FIELD →
  feed COMMA (inr (mk st v fs)) = inr (mk START_FIELD [] (fs ++ [v])).
Proof. by intros [->|[->| ->]]. Qed.

(** The end of a record. *)
Lemma scan_record_end st v fs rest p n :
  st = START_FIELD ∨ st = IN_FIELD ∨ st = QUOTE_IN_QUOTED_FIELD →
  scan (inr (mk st v fs)) p n (CRLF ++ rest)
  = cons_row (fs ++ [v], S n) (scan (inr parse_reset) false (S n) rest).
Proof. by intros [->|[->| ->]]. Qed.

(** The fields of a record, from the start of a field. *)
Lemma scan_fields v vs fs rest p n :
  ∃ n',
    scan (inr (mk START_FIELD [] fs)) p n
         (join [COMMA] (csv_field <$> v :: vs) ++ CRLF ++ rest)
    = cons_row (fs ++ v :: vs, n') (scan (inr parse_reset) false n' rest).
Proof.
  revert v fs p n. induction vs as [|v2 vs IH]; intros v fs p n.
  - cbn [fmap list_fmap join].
    destruct (scan_field v fs (CRLF ++ rest) p n) as (st & p' & n' & E & Hst).
    exists (S n'). rewrite E. by apply scan_record_end.
  - change (join [COMMA] (csv_field <$> v :: v2 :: vs))
      with (csv_field v ++ [COMMA] ++ join [COMMA] (csv_field <$> v2 :: vs)).
    rewrite <-!(assoc_L (++)).
    destruct (scan_field v fs
                ([COMMA] ++ join [COMMA] (csv_field <$> v2 :: vs) ++ CRLF ++ rest)
                p n) as (st & p' & n' & E & Hst).
    destruct (IH v2 (fs ++ [v]) true n') as (n'' & E2).
    exists n''. rewrite E. cbn [app]. rewrite scan_cons_other by done.
    rewrite (feed_comma st v fs Hst), E2. by rewrite <-(assoc_L (++)).
Qed.

Lemma csv_field_head v c s : csv_field v = c :: s → c ≠ CR ∧ c ≠ LF.
Proof.
  unfold csv_field. destruct (existsb special v) eqn:Hv.
  - by intros [= <- _].
  - intros ->. simpl in Hv. apply orb_false_iff in Hv as [Hc _].
    apply special_false in Hc. tauto.
Qed.

Lemma csv_field_nil v : csv_field v = [] → v = [].
Proof. unfold csv_field. by destruct (existsb special v). Qed.

Lemma join_fields_head v vs c s :
  join [COMMA] (csv_field <$> v :: vs) = c :: s → c ≠ CR ∧ c ≠ LF.
Proof.
  destruct vs as [|v2 vs].
  - apply csv_field_head.
  - change (join [COMMA] (csv_field <$> v :: v2 :: vs))
      with (csv_field v ++ [COMMA] ++ join [COMMA] (csv_field <$> v2 :: vs)).
    destruct (csv_field v) as [|c' s'] eqn:Hv.
    + by intros [= <- _].
    + intros [= <- _]. by apply csv_field_head in Hv.
Qed.

Lemma join_fields_nil v vs :
  join [COMMA] (csv_field <$> v :: vs) = [] → v = [] ∧ vs = [].
Proof.
  destruct vs as [|v2 vs].
  - intros ?%csv_field_nil. done.
  - change (join [COMMA] (csv_field <$> v :: v2 :: vs))
      with (csv_field v ++ [COMMA] ++ join [COMMA] (csv_field <$> v2 :: vs)).
    by intros [_ [=]]%app_eq_nil.
Qed.

(** A record as [csv.writer] writes it is read back as it was. *)
Lemma scan_writerow vs rest p n :
  ∃ n',
    scan (inr parse_reset) p n (csv_writerow vs ++ rest)
    = cons_row (vs, n') (scan (inr parse_reset) false n' rest).
Proof.
  destruct vs as [|v vs].
  - by exists (S n).
  - unfold csv_writerow.
    destruct (join [COMMA] (csv_field <$> v :: vs)) as [|c s] eqn:Hj.
    + apply join_fields_nil in Hj as [-> ->]. by exists (S n).
    + destruct (join_fields_head _ _ _ _ Hj) as [HCR HLF].
      destruct (scan_fields v vs [] rest p n) as (n' & E).
      rewrite app_nil_l in E.
      exists n'. rewrite <-E, Hj, <-!(assoc_L (++)).
      cbn [app]. rewrite !scan_cons_other by done.
      unfold feed, parse_process_char, parse_reset, mk. cbn [state].
      by rewrite is_newline_false.
Qed.

(** Every record of a file the writer wrote is read back. *)
Lemma scan_writerows (rows : list (list str)) n :
  rows_of (scan (inr parse_reset) false n (concat (csv_writerow <$> rows)))
  = (rows, None).
Proof.
  revert n. induction rows as [|vs rows IH]; intros n; [done|].
  rewrite fmap_cons, concat_cons.
  destruct (scan_writerow vs (concat (csv_writerow <$> rows)) false n)
    as (n' & ->).
  specialize (IH n').
  destruct (scan _ _ n' _) as [l e]. unfold rows_of, cons_row in *.
  cbn [fst snd] in *. rewrite fmap_cons. cbn [fst].
  by injection IH as -> ->.
Qed.

Theorem csv_rows_writerows (rows : list (list str)) :
  csv_rows (concat (csv_writerow <$> rows)) = (rows, None).
Proof. rewrite csv_rows_scan. apply scan_writerows. Qed.

(** ** The first record with fields, read back *)

(** C7.  On a fresh writer records without fields are no-ops: each returns
    normally and leaves the world untouched, so nothing is written, no
    warning is shown and no schema is committed.  The first record with
    fields then commits the schema: the writer holds its keys in their
    order, the file is the header line of those keys followed by the row of
    the record, and no warning is shown.  Unless the header has the fixed
    length, [csv.reader] reads the file back as the keys of that record, in
    their order, and then its values. *)
Theorem empty_records_then_commit (rt : PyRuntime) fn impl hl
    (es : list TabularInput) (t : TabularInput) :
  Forall (λ e, dict_keys (as_primitive_dict e) = []) es →
  dict_keys (as_primitive_dict t) ≠ [] →
  let w0 := fresh fn impl hl in
  let keys := dict_keys (as_primitive_dict t) in
  Forall (λ e, record rt (PyTabular e) w0 = (w0, inr (PyTabular e))) es
  ∧ run rt w0 (Record_ ∘ PyTabular <$> es) = w0
  ∧ ∃ w1,
      record rt (PyTabular t) (run rt w0 (Record_ ∘ PyTabular <$> es))
      = (w1, inr (PyTabular (mark_all keys t)))
      ∧ _writer (self w1) = Some {| fieldnames := keys |}
      ∧ _fieldnames (self w1) = Some (list_to_set keys)
      ∧ content (_log_file (self w1))
        = header_line impl hl keys
          ++ csv_writerow (dict_to_list {| fieldnames := keys |}
                                        (as_primitive_dict t))
      ∧ shown w1 = []
      ∧ (impl ≠ Some fixed_header_length →
         csv_rows (content (_log_file (self w1)))
         = ([keys; row_of keys t], None)).
Proof.
  intros Hes HK w0 keys.
  split_and!.
  - eapply Forall_impl; [exact Hes|]. intros e He. by apply record_noop.
  - by apply run_empty_records.
  - rewrite run_empty_records by done.
    rewrite record_first by done.
    eexists. split; [done|]. split_and!; [done..|].
    intros Himpl. cbn [self _log_file content fresh __init__ open_w].
    unfold header_line. rewrite decide_False by done.
    rewrite app_nil_l.
    change (dict_to_list {| fieldnames := dict_keys (as_primitive_dict t) |}
                         (as_primitive_dict t))
      with (row_of keys t).
    replace (csv_writerow (dict_keys (as_primitive_dict t))
             ++ csv_writerow (row_of keys t))
      with (concat (csv_writerow <$> [keys; row_of keys t]))
      by (simpl; by rewrite app_nil_r).
    apply csv_rows_writerows.
Qed.

Lemma empty_records_then_commit_witness :
  let w0 := fresh (txt "progress.csv") None 140 in
  let es := [tabular []; tabular []] in
  let t := tabular [("foo", "1"); ("bar", "10")]%string in
  let keys := [txt "foo"; txt "bar"] in
  Forall (λ e, record rt_elements (PyTabular e) w0 = (w0, inr (PyTabular e))) es
  ∧ run rt_elements w0 (Record_ ∘ PyTabular <$> es) = w0
  ∧ ∃ w1,
      record rt_elements (PyTabular t)
             (run rt_elements w0 (Record_ ∘ PyTabular <$> es))
      = (w1, inr (PyTabular (mark_all keys t)))
      ∧ _writer (self w1) = Some {| fieldnames := keys |}
      ∧ _fieldnames (self w1) = Some (list_to_set keys)
      ∧ content (_log_file (self w1))
        = (txt "foo,bar" ++ CRLF) ++ txt "1,10" ++ CRLF
      ∧ shown w1 = []
      ∧ (None ≠ Some fixed_header_length →
         csv_rows (content (_log_file (self w1)))
         = ([[txt "foo"; txt "bar"]; [txt "1"; txt "10"]], None)).
Proof.
  apply (empty_records_then_commit rt_elements (txt "progress.csv") None 140
           [tabular []; tabular []]
           (tabular [("foo", "1"); ("bar", "10")]%string)).
  - repeat constructor.
  - discriminate.
Defined.

(** ** Records that all have the committed keys *)

Lemma schema_extension_same (rt : PyRuntime) (h : option str) (F : gset str) :
  schema_extension rt h F F = [].
Proof.
  unfold schema_extension. rewrite difference_diag_L.
  by rewrite (bool_decide_eq_false_2 (∅ ≠ ∅)), andb_false_r by (by intros []).
Qed.

Lemma record_stable (rt : PyRuntime) (t : TabularInput) w wr :
  closed (_log_file (self w)) = false →
  position (_log_file (self w)) = length (content (_log_file (self w))) →
  _writer (self w) = Some wr →
  _fieldnames (self w)
  = Some (list_to_set (dict_keys (as_primitive_dict t))) →
  let text :=
    content (_log_file (self w))
    ++ csv_writerow (dict_to_list wr (as_primitive_dict t)) in
  record rt (PyTabular t) w =
    ({| self :=
          with_log_file
            {| name := name (_log_file (self w)); content := text;
               position := length text; closed := false |}
            (self w);
        shown := shown w |},
     inr (PyTabular (mark_all (dict_keys (as_primitive_dict t)) t))).
Proof.
  intros Hcl Hpos Hwr HF.
  rewrite (record_committed rt t w wr _ Hcl Hpos Hwr HF).
  rewrite schema_extension_same.
  unfold header_patch, overwrite. rewrite decide_True by done.
  rewrite !decide_False by (by intros []).
  change (list_to_set []) with (∅ : gset str).
  rewrite union_empty_r_L, app_nil_r.
  destruct w as [[h hl f wr0 F0 ms dw] sh], wr. simpl in *. by subst.
Qed.

Lemma run_stable (rt : PyRuntime) (names : list str) (ts : list TabularInput) w :
  closed (_log_file (self w)) = false →
  position (_log_file (self w)) = length (content (_log_file (self w))) →
  _writer (self w) = Some {| fieldnames := names |} →
  _fieldnames (self w) = Some (list_to_set names) →
  Forall (λ t, list_to_set (dict_keys (as_primitive_dict t))
               = (list_to_set names : gset str)) ts →
  let w' := run rt w (Record_ ∘ PyTabular <$> ts) in
  content (_log_file (self w'))
  = content (_log_file (self w)) ++ concat (csv_writerow <$> (row_of names <$> ts))
  ∧ shown w' = shown w.
Proof.
  intros Hcl Hpos Hwr HF Hts. cbv zeta. revert w Hcl Hpos Hwr HF.
  induction Hts as [|t ts Ht _ IH]; intros w Hcl Hpos Hwr HF.
  - by rewrite app_nil_r.
  - rewrite fmap_cons, run_cons.
    change ((Record_ ∘ PyTabular) t) with (Record_ (PyTabular t)).
    unfold do_call.
    rewrite <-Ht in HF.
    rewrite (record_stable rt t w _ Hcl Hpos Hwr HF). cbn [fst].
    set (w1 := {| self := _; shown := _ |}).
    destruct (IH w1) as [-> ->]; [done|done|done| |].
    { subst w1. cbn [self with_log_file _fieldnames]. by rewrite HF, Ht. }
    subst w1. cbn [self with_log_file _log_file content shown].
    by rewrite !fmap_cons, concat_cons, <-(assoc_L (++)).
Qed.

Lemma dict_get_is_Some key (d : dict) :
  key ∈ dict_keys d → is_Some (dict_get key d).
Proof.
  induction d as [|[k v] d IH]; simpl.
  - by intros ?%elem_of_nil.
  - intros [->|?]%elem_of_cons.
    + rewrite decide_True by done. by eexists.
    + case_decide; [by eexists|by apply IH].
Qed.

(** C8.  A first record with fields and then records with the same key set,
    on a fresh writer: the file is the header line followed by one row per
    record; read back by [csv.reader], the rows are the values of the
    records under the committed field order, each value the record's own;
    unless the header has the fixed length, the whole file reads back as the
    names and then the rows; no warning is shown. *)
Theorem stable_schema_round_trip (rt : PyRuntime) fn impl hl
    (t0 : TabularInput) (ts : list TabularInput) :
  let names := dict_keys (as_primitive_dict t0) in
  names ≠ [] →
  Forall (λ t, list_to_set (dict_keys (as_primitive_dict t))
               = (list_to_set names : gset str)) ts →
  let w := run rt (fresh fn impl hl) (Record_ ∘ PyTabular <$> t0 :: ts) in
  let rows := row_of names <$> t0 :: ts in
  content (_log_file (self w))
  = header_line impl hl names ++ concat (csv_writerow <$> rows)
  ∧ length rows = S (length ts)
  ∧ csv_rows (concat (csv_writerow <$> rows)) = (rows, None)
  ∧ (impl ≠ Some fixed_header_length →
     csv_rows (content (_log_file (self w))) = (names :: rows, None))
  ∧ Forall (λ t, ∀ i key, names !! i = Some key →
                 ∃ v, dict_get key (as_primitive_dict t) = Some v
                      ∧ row_of names t !! i = Some v) (t0 :: ts)
  ∧ shown w = [].
Proof.
  intros names Hnames Hts w rows.
  assert (content (_log_file (self w))
          = header_line impl hl names ++ concat (csv_writerow <$> rows)
          ∧ shown w = []) as [Hc Hsh].
  { subst w rows. rewrite !fmap_cons, run_cons.
    change ((Record_ ∘ PyTabular) t0) with (Record_ (PyTabular t0)).
    unfold do_call.
    rewrite record_first by done. cbn [fst].
    edestruct (run_stable rt names ts) as [-> ->]; [..|exact Hts|]; try done.
    cbn [self _log_file content shown fresh __init__ open_w
         _inconsistency_handling _header_length].
    by rewrite app_nil_l, concat_cons, <-(assoc_L (++)). }
  split_and!; [done| |apply csv_rows_writerows| | |done].
  - subst rows. by rewrite length_fmap.
  - intros Himpl. rewrite Hc. unfold header_line.
    rewrite decide_False by done.
    by rewrite <-concat_cons, <-fmap_cons, csv_rows_writerows.
  - apply Forall_cons. split.
    + intros i key Hi.
      destruct (dict_get_is_Some key (as_primitive_dict t0)) as [v Hv].
      { by eapply list_elem_of_lookup_2. }
      exists v. split; [done|]. unfold row_of.
      by rewrite list_lookup_fmap, Hi; simpl; rewrite Hv.
    + eapply Forall_impl; [exact Hts|]. intros t Ht i key Hi.
      destruct (dict_get_is_Some key (as_primitive_dict t)) as [v Hv].
      { apply (elem_of_list_to_set (C := gset str)). rewrite Ht.
        apply elem_of_list_to_set. by eapply list_elem_of_lookup_2. }
      exists v. split; [done|]. unfold row_of.
      by rewrite list_lookup_fmap, Hi; simpl; rewrite Hv.
Qed.

Lemma stable_schema_round_trip_witness :
  let t0 := tabular [("foo", "1"); ("bar", "10")]%string in
  let ts := [tabular [("bar", "a,b"); ("foo", "2")]%string] in
  let names := [txt "foo"; txt "bar"] in
  let w := run rt_elements (fresh (txt "progress.csv") None 140)
               (Record_ ∘ PyTabular <$> t0 :: ts) in
  let rows := [[txt "1"; txt "10"]; [txt "2"; txt "a,b"]] in
  content (_log_file (self w))
  = header_line None 140 names ++ concat (csv_writerow <$> rows)
  ∧ length rows = 2
  ∧ csv_rows (concat (csv_writerow <$> rows)) = (rows, None)
  ∧ (None ≠ Some fixed_header_length →
     csv_rows (content (_log_file (self w))) = (names :: rows, None))
  ∧ Forall (λ t, ∀ i key, names !! i = Some key →
                 ∃ v, dict_get key (as_primitive_dict t) = Some v
                      ∧ row_of names t !! i = Some v) (t0 :: ts)
  ∧ shown w = [].
Proof.
  apply (stable_schema_round_trip rt_elements (txt "progress.csv") None 140
           (tabular [("foo", "1"); ("bar", "10")]%string)
           [tabular [("bar", "a,b"); ("foo", "2")]%string]).
  - discriminate.
  - repeat constructor.
Defined.

(** ** The copy at close on plain data *)

Lemma header_patch_other (h : option str) hl names ext :
  h ≠ Some fixed_header_length → header_patch h hl names ext = [].
Proof. intros Hh. unfold header_patch. by repeat case_decide. Qed.

Lemma run_written_rows (rt : PyRuntime) (ts : list TabularInput) w names :
  _inconsistency_handling (self w) ≠ Some fixed_header_length →
  closed (_log_file (self w)) = false →
  position (_log_file (self w)) = length (content (_log_file (self w))) →
  _writer (self w) = Some {| fieldnames := names |} →
  _fieldnames (self w) = Some (list_to_set names) →
  let w' := run rt w (Record_ ∘ PyTabular <$> ts) in
  let res := written_rows rt (_inconsistency_handling (self w)) names ts in
  content (_log_file (self w'))
  = content (_log_file (self w)) ++ concat (csv_writerow <$> res.1)
  ∧ _writer (self w') = Some {| fieldnames := res.2 |}
  ∧ closed (_log_file (self w')) = false
  ∧ _inconsistency_handling (self w') = _inconsistency_handling (self w).
Proof.
  cbv zeta. revert w names.
  induction ts as [|t ts IH]; intros w names Hh Hcl Hpos Hwr HF.
  - simpl. by rewrite app_nil_r.
  - rewrite fmap_cons, run_cons.
    change ((Record_ ∘ PyTabular) t) with (Record_ (PyTabular t)).
    unfold do_call.
    rewrite (record_committed rt t w _ _ Hcl Hpos Hwr HF). cbn [fst].
    rewrite header_patch_other by done. unfold overwrite.
    cbn [app length drop fieldnames].
    set (names' := names ++ schema_extension rt _ _ _).
    set (w1 := {| self := _; shown := _ |}).
    destruct (IH w1 names') as (Hc & Hw & Hcl' & Hh'); [done..| |].
    { subst w1 names'. cbn [self _fieldnames].
      by rewrite list_to_set_app_L. }
    rewrite Hc, Hw, Hcl', Hh'. subst w1. cbn [self _log_file content
      _inconsistency_handling written_rows fst snd].
    fold names'. by rewrite fmap_cons, concat_cons, <-(assoc_L (++)).
Qed.

Lemma plain_nil : plain [].
Proof. done. Qed.

Lemma dict_get_plain key (d : dict) :
  Forall (λ kv, plain kv.1 ∧ plain kv.2) d → plain (default [] (dict_get key d)).
Proof.
  induction 1 as [|[k v] d [_ Hv] _ IH]; simpl; [done|].
  by case_decide.
Qed.

Lemma dict_get_None key (d : dict) : key ∉ dict_keys d → dict_get key d = None.
Proof.
  induction d as [|[k v] d IH]; simpl; [done|].
  intros Hk. apply not_elem_of_cons in Hk as [Hne Hk].
  rewrite decide_False by done. by apply IH.
Qed.

Lemma row_of_plain names (t : TabularInput) :
  plain_record t → Forall plain (row_of names t).
Proof.
  intros [_ Ht]. unfold row_of. apply Forall_fmap, Forall_forall.
  intros key _. by apply dict_get_plain.
Qed.

Lemma length_row_of names (t : TabularInput) :
  length (row_of names t) = length names.
Proof. unfold row_of. by rewrite length_fmap. Qed.

Lemma row_of_app names more (t : TabularInput) :
  (∀ key, key ∈ more → key ∉ dict_keys (as_primitive_dict t)) →
  row_of (names ++ more) t = row_of names t ++ replicate (length more) [].
Proof.
  intros Hmore. unfold row_of. rewrite fmap_app. f_equal.
  induction more as [|key more IH]; [done|].
  rewrite fmap_cons. cbn [length replicate].
  rewrite dict_get_None by (apply Hmore; left).
  f_equal. apply IH. intros k Hk. apply Hmore. by right.
Qed.

Lemma written_rows_spec (rt : PyRuntime) (h : option str) (ts : list TabularInput)
    (names : list str) :
  handling_enabled h = true →
  NoDup names → Forall plain names → Forall plain_record ts →
  let res := written_rows rt h names ts in
  NoDup res.2 ∧ Forall plain res.2
  ∧ (∃ more, res.2 = names ++ more)
  ∧ Forall2 (λ row t,
       Forall plain row
       ∧ length row ≤ length res.2 ∧ length names ≤ length row
       ∧ row ++ replicate (length res.2 - length row) [] = row_of res.2 t)
     res.1 ts.
Proof.
  intros Hh. cbv zeta. revert names.
  induction ts as [|t ts IH]; intros names Hnd Hpl Hts.
  - simpl. split_and!; [done|done|by exists []; rewrite app_nil_r|constructor].
  - apply Forall_cons in Hts as [Ht Hts].
    cbn [written_rows fst snd].
    set (ext := schema_extension rt h _ _).
    destruct (schema_extension_spec rt h (list_to_set names)
                (dict_keys (as_primitive_dict t))) as [Hext_nd Hext].
    fold ext in Hext_nd, Hext.
    assert (NoDup (names ++ ext)) as Hnd'.
    { apply NoDup_app. split_and!; [done| |done].
      intros k Hk (_ & _ & HkF)%Hext. apply HkF.
      by apply elem_of_list_to_set. }
    assert (Forall plain (names ++ ext)) as Hpl'.
    { apply Forall_app. split; [done|]. apply Forall_forall.
      intros k (_ & Hk & _)%Hext. destruct Ht as [_ Ht].
      unfold dict_keys in Hk.
      apply list_elem_of_fmap in Hk as ([k' v] & -> & Hkv).
      rewrite Forall_forall in Ht. by destruct (Ht _ Hkv). }
    destruct (IH _ Hnd' Hpl' Hts) as (Hnd2 & Hpl2 & (more & Hmore) & Hrows).
    split_and!; [done|done| |].
    + exists (ext ++ more). by rewrite Hmore, (assoc_L (++)).
    + constructor.
      * split_and!.
        -- by apply row_of_plain.
        -- rewrite length_row_of, Hmore, !length_app. lia.
        -- rewrite length_row_of, !length_app. lia.
        -- rewrite Hmore, length_row_of.
           replace (length ((names ++ ext) ++ more) - length (names ++ ext))
             with (length more) by (rewrite (length_app (names ++ ext)); lia).
           symmetry. apply row_of_app.
           intros k Hk Hkt. rewrite Hmore in Hnd2.
           apply NoDup_app in Hnd2 as (_ & Hdisj & _).
           apply (Hdisj k); [|done].
           destruct (decide (k ∈ names)) as [Hin|Hnin];
             [by apply elem_of_app; left|].
           apply elem_of_app. right. apply Hext. split_and!; [done|done|].
           by rewrite elem_of_list_to_set.
      * eapply Forall2_impl; [exact Hrows|].
        intros row t' (? & ? & Hlen & ?). split_and!; [done|done| |done].
        rewrite !length_app in Hlen. lia.
Qed.

(** *** Reading plain records line by line *)

Lemma csv_field_plain v : plain v → csv_field v = v.
Proof. intros Hv. unfold csv_field. by rewrite Hv. Qed.

Lemma csv_fields_plain vs : Forall plain vs → csv_field <$> vs = vs.
Proof.
  induction 1 as [|v vs Hv _ IH]; [done|].
  by rewrite fmap_cons, csv_field_plain, IH.
Qed.

Lemma csv_writerow_plain vs :
  Forall plain vs → csv_writerow vs = record_text vs ++ CRLF.
Proof.
  intros Hvs. unfold csv_writerow, record_text.
  rewrite csv_fields_plain by done.
  destruct vs; [done|]. by destruct (join _ _).
Qed.

Lemma plain_not_CR v : plain v → CR ∉ v.
Proof.
  unfold plain. induction v as [|c v IH]; simpl; [by intros _ ?%elem_of_nil|].
  intros [Hc Hv]%orb_false_iff. apply special_false in Hc.
  apply not_elem_of_cons. split; [by intros <-; tauto|by apply IH].
Qed.

Lemma join_not_CR vs : Forall plain vs → CR ∉ join [COMMA] vs.
Proof.
  induction 1 as [|v vs Hv Hvs IH]; [by intros ?%elem_of_nil|].
  destruct vs as [|v2 vs]; [by apply plain_not_CR|].
  change (join [COMMA] (v :: v2 :: vs))
    with (v ++ [COMMA] ++ join [COMMA] (v2 :: vs)).
  rewrite !not_elem_of_app. split_and!; [by apply plain_not_CR| |done].
  by intros [=]%list_elem_of_singleton.
Qed.

Lemma record_text_not_CR vs : Forall plain vs → CR ∉ record_text vs.
Proof.
  intros Hvs. pose proof (join_not_CR vs Hvs) as Hj. unfold record_text.
  destruct vs; [done|]. destruct (join _ _); [|done].
  rewrite !not_elem_of_cons. split_and!; [done|done|apply not_elem_of_nil].
Qed.

Lemma universal_newlines_line text rest :
  CR ∉ text →
  universal_newlines (text ++ CRLF ++ rest)
  = text ++ [LF] ++ universal_newlines rest.
Proof.
  induction text as [|c text IH]; intros Hc.
  - done.
  - apply not_elem_of_cons in Hc as [Hne Hc]. cbn [app universal_newlines].
    rewrite decide_False by done. by rewrite IH.
Qed.

Lemma universal_newlines_rows (rows : list (list str)) :
  Forall (Forall plain) rows →
  universal_newlines (concat (csv_writerow <$> rows))
  = concat ((λ vs, record_text vs ++ [LF]) <$> rows).
Proof.
  induction 1 as [|vs rows Hvs _ IH]; [done|].
  rewrite !fmap_cons, !concat_cons, csv_writerow_plain by done.
  rewrite <-!(assoc_L (++)), universal_newlines_line
    by by apply record_text_not_CR.
  by rewrite IH.
Qed.

Lemma plain_cons c v :
  plain (c :: v) → c ≠ COMMA ∧ c ≠ QUOTE ∧ c ≠ CR ∧ c ≠ LF ∧ plain v.
Proof.
  unfold plain. simpl. intros [Hc Hv]%orb_false_iff.
  apply special_false in Hc. tauto.
Qed.

Lemma scan_field_plain v fs rest p n :
  plain v →
  ∃ st p',
    scan (inr (mk START_FIELD [] fs)) p n (v ++ rest)
    = scan (inr (mk st v fs)) p' n rest
    ∧ (st = START_FIELD ∨ st = IN_FIELD ∨ st = QUOTE_IN_QUOTED_FIELD).
Proof.
  intros Hv. destruct v as [|c v].
  - exists START_FIELD, p. by auto.
  - exists IN_FIELD, true. split; [|by auto].
    apply plain_cons in Hv as (HC & HQ & HCR & HLF & Hv).
    cbn [app]. rewrite scan_cons_other by done.
    change (c :: v) with ([c] ++ v).
    rewrite <-(scan_plain v [c] fs rest n Hv).
    unfold feed, parse_process_char, start_field. simpl.
    by rewrite is_newline_false, !decide_False by done.
Qed.

Lemma scan_record_end_lf st v fs rest p n :
  st = START_FIELD ∨ st = IN_FIELD ∨ st = QUOTE_IN_QUOTED_FIELD →
  scan (inr (mk st v fs)) p n (LF :: rest)
  = cons_row (fs ++ [v], S n) (scan (inr parse_reset) false (S n) rest).
Proof. by intros [->|[->| ->]]. Qed.

Lemma scan_fields_plain v vs fs rest p n :
  Forall plain (v :: vs) →
  scan (inr (mk START_FIELD [] fs)) p n (join [COMMA] (v :: vs) ++ LF :: rest)
  = cons_row (fs ++ v :: vs, S n) (scan (inr parse_reset) false (S n) rest).
Proof.
  revert v fs p. induction vs as [|v2 vs IH]; intros v fs p Hvs.
  - apply Forall_cons in Hvs as [Hv _]. cbn [join].
    destruct (scan_field_plain v fs (LF :: rest) p n Hv) as (st & p' & E & Hst).
    rewrite E. by apply scan_record_end_lf.
  - apply Forall_cons in Hvs as [Hv Hvs].
    change (join [COMMA] (v :: v2 :: vs))
      with (v ++ [COMMA] ++ join [COMMA] (v2 :: vs)).
    rewrite <-!(assoc_L (++)).
    destruct (scan_field_plain v fs
                ([COMMA] ++ join [COMMA] (v2 :: vs) ++ LF :: rest) p n Hv)
      as (st & p' & E & Hst).
    rewrite E. cbn [app]. rewrite scan_cons_other by done.
    rewrite (feed_comma st v fs Hst).
    rewrite (IH v2 (fs ++ [v]) true Hvs). by rewrite <-(assoc_L (++)).
Qed.

Lemma join_plain_head v vs c s :
  Forall plain (v :: vs) → join [COMMA] (v :: vs) = c :: s → c ≠ CR ∧ c ≠ LF.
Proof.
  intros Hvs Hj. apply (join_fields_head v vs c s).
  by rewrite csv_fields_plain.
Qed.

(** A line holding a record of plain values is read as that record. *)
Lemma scan_line_plain vs rest n :
  vs ≠ [] → Forall plain vs →
  scan (inr parse_reset) false n (record_text vs ++ LF :: rest)
  = cons_row (vs, S n) (scan (inr parse_reset) false (S n) rest).
Proof.
  intros Hne Hvs. destruct vs as [|v vs]; [done|]. unfold record_text.
  destruct (join [COMMA] (v :: vs)) as [|c s] eqn:Hj.
  - assert (v = [] ∧ vs = []) as [-> ->]; [|done].
    apply join_fields_nil. by rewrite csv_fields_plain.
  - destruct (join_plain_head _ _ _ _ Hvs Hj) as [HCR HLF].
    pose proof (scan_fields_plain v vs [] rest false n Hvs) as E.
    rewrite app_nil_l in E. rewrite <-E, Hj.
    cbn [app]. rewrite !scan_cons_other by done.
    unfold feed, parse_process_char, parse_reset, mk. cbn [state].
    by rewrite is_newline_false.
Qed.

(** The lines of plain records are read one record a line. *)
Lemma scan_lines_plain (rows : list (list str)) n :
  Forall (λ vs, vs ≠ [] ∧ Forall plain vs) rows →
  scan (inr parse_reset) false n
       (concat ((λ vs, record_text vs ++ [LF]) <$> rows))
  = (zip rows (seq (S n) (length rows)), None).
Proof.
  intros Hrows. revert n.
  induction Hrows as [|vs rows [Hne Hvs] _ IH]; intros n; [done|].
  rewrite fmap_cons, concat_cons, <-(assoc_L (++)). cbn [app].
  rewrite scan_line_plain, IH by done. done.
Qed.

(** *** The reader with the limit, on fields within it *)

Lemma within_limit_nil : within_limit [].
Proof. unfold within_limit, field_size_limit. simpl. lia. Qed.

Lemma parse_add_char_within st c r :
  within_limit (field r ++ [c]) →
  parse_add_char_limited st c r = inr (parse_add_char st c r).
Proof.
  unfold within_limit, parse_add_char_limited. rewrite length_app. simpl.
  intros H. by rewrite (proj2 (N.leb_gt _ _)) by lia.
Qed.

Lemma within_limit_app_l (f : str) c : within_limit (f ++ [c]) → within_limit f.
Proof. unfold within_limit. rewrite length_app. lia. Qed.

Ltac reader_step :=
  repeat match goal with
    | H : inr _ = inr _ |- _ => injection H as <-
    | H : inl _ = inr _ |- _ => discriminate H
    | H : context [if is_newline ?c then _ else _] |- _ =>
        destruct (is_newline c) eqn:?
    | H : context [if decide ?P then _ else _] |- _ => destruct (decide P)
    end.

Lemma parse_process_char_within c r r1 :
  parse_process_char c r = inr r1 →
  reader_within_limit r1 →
  parse_process_char_limited c r = inr r1 ∧ reader_within_limit r.
Proof.
  destruct r as [st f fs].
  unfold parse_process_char, parse_process_char_limited, start_field,
    start_field_limited, reader_within_limit.
  cbn [state field fields].
  intros E [Hf Hfs].
  destruct st, c as [c|]; reader_step;
    cbn [parse_add_char parse_save_field set_state state field fields] in *.
  all: try (apply Forall_app in Hfs as [Hfs Hf']; rewrite Forall_singleton in Hf').
  all: try done.
  all: rewrite ?parse_add_char_within by done.
  all: try (split; [done|split; [by eapply within_limit_app_l|done]]).
Qed.

Lemma parse_process_char_wf c r r1 :
  reader_wf r → parse_process_char c r = inr r1 → reader_wf r1.
Proof.
  destruct r as [st f fs].
  unfold parse_process_char, start_field, reader_wf.
  cbn [state field fields].
  intros Hwf E.
  destruct st, c as [c|]; reader_step;
    cbn [parse_add_char parse_save_field set_state state field fields] in *.
  all: try done.
  all: first [by intros [?|?]|intros _; apply Hwf; auto].
Qed.

Lemma parse_chars_within s r r' :
  parse_chars s r = inr r' →
  reader_within_limit r' →
  parse_chars_limited s r = inr r' ∧ reader_within_limit r.
Proof.
  revert r. induction s as [|c s IH]; intros r E Hr'.
  - injection E as <-. done.
  - cbn [parse_chars] in E.
    destruct (parse_process_char (Some c) r) as [e|r1] eqn:E1; [done|].
    destruct (IH r1 E Hr') as [E' Hr1].
    destruct (parse_process_char_within _ _ _ E1 Hr1) as [E1' Hr].
    cbn [parse_chars_limited]. by rewrite E1'.
Qed.

Lemma parse_chars_wf s r r' :
  reader_wf r → parse_chars s r = inr r' → reader_wf r'.
Proof.
  revert r. induction s as [|c s IH]; intros r Hwf E.
  - by injection E as <-.
  - cbn [parse_chars] in E.
    destruct (parse_process_char (Some c) r) as [e|r1] eqn:E1; [done|].
    eapply IH; [|exact E]. by eapply parse_process_char_wf.
Qed.

Lemma parse_line_within line r r' :
  parse_line line r = inr r' →
  reader_within_limit r' →
  parse_line_limited line r = inr r' ∧ reader_within_limit r.
Proof.
  unfold parse_line, parse_line_limited. intros E Hr'.
  destruct (parse_chars line r) as [e|r1] eqn:E1; [done|].
  destruct (parse_process_char_within _ _ _ E Hr') as [E' Hr1].
  destruct (parse_chars_within _ _ _ E1 Hr1) as [-> Hr]. done.
Qed.

Lemma parse_line_wf line r r' :
  reader_wf r → parse_line line r = inr r' → reader_wf r'.
Proof.
  unfold parse_line. intros Hwf E.
  destruct (parse_chars line r) as [e|r1] eqn:E1; [done|].
  eapply parse_process_char_wf; [|exact E]. by eapply parse_chars_wf.
Qed.

Lemma parse_line_state line r r' :
  parse_line line r = inr r' →
  state r' = START_RECORD ∨ state r' = IN_QUOTED_FIELD.
Proof.
  unfold parse_line. intros E.
  destruct (parse_chars line r) as [e|[st f fs]]; [done|].
  unfold parse_process_char in E. cbn [state] in E.
  destruct st; injection E as <-; cbn; auto.
Qed.

(** When what the reader without the limit yields is within the limit, the
    reader with the limit yields the same. *)
Lemma reader_rows_within (lines : list str) r n rows :
  reader_wf r →
  reader_rows r n lines = (rows, None) →
  Forall (λ rn, Forall within_limit rn.1) rows →
  reader_rows_limited r n lines = (rows, None)
  ∧ (lines ≠ [] ∨ state r = IN_QUOTED_FIELD → reader_within_limit r).
Proof.
  revert r n rows. induction lines as [|line lines IH]; intros r n rows Hwf E Hrows.
  - split; [done|]. intros [?|Hst]; [done|].
    cbn [reader_rows] in E.
    rewrite (bool_decide_eq_true_2 _ Hst), orb_true_r in E.
    injection E as <-. rewrite Forall_singleton in Hrows.
    cbn [fst parse_save_field fields] in Hrows.
    apply Forall_app in Hrows as [Hfs Hf]. rewrite Forall_singleton in Hf.
    by split.
  - cbn [reader_rows reader_rows_limited] in *.
    destruct (parse_line line r) as [e|r'] eqn:E1; [done|].
    pose proof (parse_line_wf _ _ _ Hwf E1) as Hwf'.
    assert (reader_rows_limited
              match state r' with START_RECORD => parse_reset | _ => r' end
              (S n) lines
            = (match state r' with
               | START_RECORD => drop 1 rows | _ => rows end, None)
            ∧ reader_within_limit r') as [Hrest Hr'].
    { destruct (parse_line_state _ _ _ E1) as [Hst|Hst]; rewrite Hst in *.
      - destruct (reader_rows parse_reset (S n) lines) as [rest e] eqn:E2.
        cbn [fst snd] in E. injection E as <- ->.
        apply Forall_cons in Hrows as [Hrow Hrows]. cbn [fst] in Hrow.
        destruct (IH parse_reset (S n) rest) as [-> _]; [by intros _|done..|].
        split; [done|]. split; [|done].
        rewrite Hwf' by auto. apply within_limit_nil.
      - destruct (IH r' (S n) rows Hwf' E Hrows) as [-> Hr'].
        split; [done|]. apply Hr'.
        destruct lines; [by right|by left]. }
    destruct (parse_line_within _ _ _ E1 Hr') as [-> Hr].
    split; [|by intros _].
    destruct (parse_line_state _ _ _ E1) as [Hst|Hst]; rewrite Hst in *.
    + rewrite Hrest. cbn [fst snd].
      destruct (reader_rows parse_reset (S n) lines) as [rest e] eqn:E2.
      cbn [fst snd] in E. by injection E as <- ->.
    + done.
Qed.

Lemma csv_reader_within (lines : list str) rows :
  csv_reader lines = (rows, None) →
  Forall (λ rn, Forall within_limit rn.1) rows →
  csv_reader_limited lines = (rows, None).
Proof.
  intros E Hrows. unfold csv_reader_limited.
  by destruct (reader_rows_within lines parse_reset 0 rows) as [-> _];
    [by intros _|..].
Qed.

(** *** The rows as [csv.DictReader] hands them to [close] *)

Lemma foldl_insert_lookup_notin (ks : list str) (vs : list str)
    (m : gmap str str) key :
  key ∉ ks →
  foldl (λ d kv, <[kv.1 := kv.2]> d) m (zip ks vs) !! key = m !! key.
Proof.
  revert vs m. induction ks as [|k ks IH]; intros vs m Hk; [done|].
  apply not_elem_of_cons in Hk as [Hne Hk].
  destruct vs as [|v vs]; [done|]. simpl.
  rewrite IH by done. by rewrite lookup_insert_ne.
Qed.

Lemma dictreader_values (ks vs : list str) (m : gmap str str) :
  NoDup ks → length vs = length ks →
  (λ key, default [] (foldl (λ d kv, <[kv.1 := kv.2]> d) m (zip ks vs) !! key))
    <$> ks = vs.
Proof.
  intros Hnd. revert vs m.
  induction Hnd as [|k ks Hk Hnd IH]; intros vs m Hlen.
  - by destruct vs.
  - destruct vs as [|v vs]; [done|]. simpl in Hlen.
    rewrite fmap_cons. cbn [zip zip_with foldl fst snd].
    rewrite foldl_insert_lookup_notin by done.
    rewrite lookup_insert_eq. simpl. f_equal. apply IH. lia.
Qed.

Lemma dictreader_row_values (names row : list str) :
  NoDup names → length row ≤ length names →
  (λ key, default [] (dictreader_row names [] row !! key)) <$> names
  = row ++ replicate (length names - length row) [].
Proof.
  intros Hnd Hlen. unfold dictreader_row.
  apply dictreader_values; [done|].
  rewrite length_app, length_replicate. lia.
Qed.

Lemma close_print_row (names row : list str) k :
  NoDup names → length row ≤ length names → k ≠ 1 →
  close_print names (dictreader_row names [] row, k)
  = join [COMMA] (row ++ replicate (length names - length row) []) ++ [LF].
Proof.
  intros Hnd Hlen Hk. unfold close_print. cbn [fst snd].
  rewrite decide_False by done. by rewrite dictreader_row_values.
Qed.

Lemma close_print_rows (names : list str) (rows : list (list str))
    (ts : list TabularInput) k :
  NoDup names → 2 ≤ k →
  Forall2 (λ row t,
     Forall plain row
     ∧ length row ≤ length names ∧ 1 ≤ length row
     ∧ row ++ replicate (length names - length row) [] = row_of names t)
    rows ts →
  concat (close_print names
            <$> ((λ rn, (dictreader_row names [] rn.1, rn.2))
                   <$> zip rows (seq k (length rows))))
  = concat ((λ t, join [COMMA] (row_of names t) ++ [LF]) <$> ts).
Proof.
  intros Hnd Hk Hrows. revert k Hk.
  induction Hrows as [|row t rows ts (_ & Hlen & _ & Hpad) _ IH]; intros k Hk;
    [done|].
  cbn [length seq zip zip_with]. rewrite !fmap_cons, !concat_cons. cbn [fst snd].
  rewrite close_print_row, Hpad by (done || lia).
  f_equal. apply IH. lia.
Qed.

Lemma close_copy w wr :
  _inconsistency_handling (self w) = Some copy →
  _writer (self w) = Some wr →
  let reader :=
    dict_reader_limited (fieldnames wr) []
      (readlines [] (universal_newlines (content (_log_file (self w))))) in
  content (_log_file (self (close w).1))
  = concat (close_print (fieldnames wr) <$> reader.1)
  ∧ (close w).2 = match reader.2 with Some e => inl e | None => inr () end.
Proof.
  intros Hh Hwr.
  destruct w as [[h hl [nm c pos cl] wr0 F ms dw] sh].
  simpl in Hh, Hwr. subst. mred.
  rewrite decide_True by done. mred.
  by destruct (dict_reader_limited _ _ _) as [rows [e|]].
Qed.

(** *** [close] in copy mode on plain data *)

Lemma filter_all {A} (P : A → Prop) `{∀ x, Decision (P x)} (l : list A) :
  Forall P l → filter P l = l.
Proof.
  induction 1 as [|x l Hx _ IH]; [done|].
  rewrite filter_cons, decide_True by done. by f_equal.
Qed.

Lemma plain_record_keys (t : TabularInput) :
  plain_record t → Forall plain (dict_keys (as_primitive_dict t)).
Proof.
  intros [_ Ht]. unfold dict_keys. apply Forall_fmap.
  eapply Forall_impl; [exact Ht|]. by intros kv [? _].
Qed.

Lemma copy_not_fixed_header_length : Some copy ≠ Some fixed_header_length.
Proof. intros [=]. Qed.

(** What [csv.DictReader] reads from the plain records [rows], written one
    per line. *)
Lemma dict_reader_limited_rows (names : list str) (lines : list str)
    (rows : list (list str)) :
  csv_reader lines = (zip rows (seq 1 (length rows)), None) →
  Forall (λ vs, vs ≠ [] ∧ Forall within_limit vs) rows →
  dict_reader_limited names [] lines
  = ((λ rn, (dictreader_row names [] rn.1, rn.2))
       <$> zip rows (seq 1 (length rows)), None).
Proof.
  intros E Hrows. unfold dict_reader_limited.
  rewrite (csv_reader_within _ _ E).
  - cbn [fst snd]. rewrite filter_all; [done|].
    apply Forall_forall. intros [vs n] Hin. cbn [fst].
    apply elem_of_zip_l in Hin.
    by destruct (proj1 (Forall_forall _ _) Hrows vs Hin).
  - apply Forall_forall. intros [vs n] Hin. cbn [fst].
    apply elem_of_zip_l in Hin.
    by destruct (proj1 (Forall_forall _ _) Hrows vs Hin).
Qed.

Lemma csv_reader_plain (rows : list (list str)) :
  Forall (λ vs, vs ≠ [] ∧ Forall plain vs) rows →
  csv_reader
    (readlines [] (universal_newlines (concat (csv_writerow <$> rows))))
  = (zip rows (seq 1 (length rows)), None).
Proof.
  intros Hrows. unfold csv_reader.
  rewrite universal_newlines_rows
    by (eapply Forall_impl; [exact Hrows|]; by intros vs [_ ?]).
  rewrite scan_readlines.
  change (scan _ _ 0) with (scan (inr parse_reset) false 0).
  by rewrite scan_lines_plain.
Qed.

Lemma dict_reader_plain (names : list str) (rows : list (list str)) :
  Forall (λ vs, vs ≠ [] ∧ Forall plain vs) rows →
  Forall (Forall within_limit) rows →
  dict_reader_limited names []
    (readlines [] (universal_newlines (concat (csv_writerow <$> rows))))
  = ((λ rn, (dictreader_row names [] rn.1, rn.2))
       <$> zip rows (seq 1 (length rows)), None).
Proof.
  intros Hrows Hlim.
  apply dict_reader_limited_rows; [by apply csv_reader_plain|].
  apply Forall_and. split; [|done].
  eapply Forall_impl; [exact Hrows|]. by intros vs [? _].
Qed.

Lemma row_of_within names (t : TabularInput) :
  record_within_limit t → Forall within_limit (row_of names t).
Proof.
  intros Ht. unfold row_of. apply Forall_fmap, Forall_forall. intros key _.
  simpl. induction Ht as [|[k v] d [_ Hv] _ IH]; simpl.
  - apply within_limit_nil.
  - by case_decide.
Qed.

Lemma keys_within (t : TabularInput) :
  record_within_limit t → Forall within_limit (dict_keys (as_primitive_dict t)).
Proof.
  intros Ht. unfold dict_keys. apply Forall_fmap.
  eapply Forall_impl; [exact Ht|]. by intros kv [? _].
Qed.

Lemma written_rows_within (rt : PyRuntime) (h : option str)
    (ts : list TabularInput) (names : list str) :
  Forall within_limit names → Forall record_within_limit ts →
  let res := written_rows rt h names ts in
  Forall (Forall within_limit) res.1 ∧ Forall within_limit res.2.
Proof.
  cbv zeta. intros Hn Hts. revert names Hn.
  induction Hts as [|t ts Ht _ IH]; intros names Hn; [by split|].
  cbn [written_rows fst snd].
  set (ext := schema_extension rt h _ _).
  destruct (IH (names ++ ext)) as [H1 H2].
  { apply Forall_app. split; [done|]. apply Forall_forall. intros k Hk.
    destruct (schema_extension_spec rt h (list_to_set names)
                (dict_keys (as_primitive_dict t))) as [_ Hext].
    apply Hext in Hk as (_ & Hk & _).
    by apply (proj1 (Forall_forall _ _) (keys_within t Ht)). }
  split; [|done]. apply Forall_cons. split; [by apply row_of_within|done].
Qed.

Lemma close_copy_plain (rt : PyRuntime) fn hl t0 (ts : list TabularInput) :
  dict_keys (as_primitive_dict t0) ≠ [] →
  Forall plain_record (t0 :: ts) →
  Forall record_within_limit (t0 :: ts) →
  let w := run rt (fresh fn (Some copy) hl)
               (Record_ ∘ PyTabular <$> t0 :: ts) in
  ∃ names,
    _writer (self w) = Some {| fieldnames := names |}
    ∧ Forall plain names
    ∧ Forall within_limit names
    ∧ NoDup names
    ∧ dict_keys (as_primitive_dict t0) `prefix_of` names
    ∧ (close w).2 = inr ()
    ∧ content (_log_file (self (close w).1)) = rectangular names (t0 :: ts).
Proof.
  intros Hk Hpl Hlim. cbv zeta.
  apply Forall_cons in Hpl as [Ht0 Hts].
  apply Forall_cons in Hlim as [Hl0 Hls].
  destruct (written_rows_within rt (Some copy) ts
              (dict_keys (as_primitive_dict t0))) as [Hwrows Hwnames];
    [by apply keys_within|done|].
  rewrite fmap_cons, run_cons.
  change ((Record_ ∘ PyTabular) t0) with (Record_ (PyTabular t0)).
  unfold do_call.
  rewrite (record_first rt t0 (fresh fn (Some copy) hl)) by done.
  cbn [fst].
  set (names0 := dict_keys (as_primitive_dict t0)) in *.
  assert (1 ≤ length names0) as Hlen0
    by (destruct names0; [done|simpl; lia]).
  set (w1 := {| self := _; shown := _ |}).
  pose proof (run_written_rows rt ts w1 names0) as Hrun.
  cbv zeta in Hrun.
  destruct Hrun as (Hc & Hw & Hcl & Hh);
    [apply copy_not_fixed_header_length|done..|].
  change (_inconsistency_handling (self w1)) with (Some copy) in Hc, Hw, Hh.
  pose proof (written_rows_spec rt (Some copy) ts names0) as Hspec.
  cbv zeta in Hspec.
  destruct Hspec as (Hnd & Hnpl & [more Hmore] & Hrows);
    [done|by destruct Ht0|by apply plain_record_keys|done|].
  set (res := written_rows rt (Some copy) names0 ts) in *.
  set (w := run rt w1 _) in *.
  exists res.2. split; [done|]. split; [done|]. split; [done|]. split; [done|].
  split; [by exists more|].
  destruct (close_copy w {| fieldnames := res.2 |} Hh Hw) as [Hcont Hres].
  cbv zeta in Hcont, Hres. cbn [fieldnames] in Hcont, Hres.
  assert (content (_log_file (self w))
          = concat (csv_writerow <$> names0 :: row_of names0 t0 :: res.1))
    as Hfile.
  { rewrite Hc. subst w1. cbn [self _log_file content fresh __init__ open_w].
    unfold header_line. rewrite decide_False
      by apply copy_not_fixed_header_length.
    rewrite !fmap_cons, !concat_cons, app_nil_l, <-!(assoc_L (++)).
    done. }
  assert (Forall (λ vs, vs ≠ [] ∧ Forall plain vs)
            (names0 :: row_of names0 t0 :: res.1)) as Hplain.
  { apply Forall_cons. split; [split; [done|by apply plain_record_keys]|].
    apply Forall_cons. split.
    { split; [|by apply row_of_plain].
      intros E. apply (f_equal length) in E.
      rewrite length_row_of in E. simpl in E. lia. }
    eapply Forall2_Forall_l; [exact Hrows|].
    apply Forall_forall. intros t _ row (Hp & _ & Hl & _).
    split; [|done]. intros ->. simpl in Hl. lia. }
  assert (Forall (Forall within_limit)
            (names0 :: row_of names0 t0 :: res.1)) as Hwithin.
  { apply Forall_cons. split; [by apply keys_within|].
    apply Forall_cons. split; [by apply row_of_within|done]. }
  rewrite Hfile, (dict_reader_plain _ _ Hplain Hwithin) in Hcont, Hres.
  cbn [fst snd] in Hcont, Hres. split; [done|].
  rewrite Hcont. cbn [length seq zip zip_with].
  rewrite !fmap_cons, concat_cons. cbn [fst snd].
  unfold close_print at 1. cbn [snd]. rewrite decide_True by done.
  unfold rectangular. rewrite <-!(assoc_L (++)). do 2 f_equal.
  apply (close_print_rows res.2 (row_of names0 t0 :: res.1) (t0 :: ts) 2);
    [done|lia|].
  apply Forall2_cons. split.
  - split_and!.
    + by apply row_of_plain.
    + rewrite length_row_of, Hmore, length_app. lia.
    + by rewrite length_row_of.
    + rewrite length_row_of, Hmore, length_app.
      replace (length names0 + length more - length names0)
        with (length more) by lia.
      symmetry. apply row_of_app.
      intros key Hkey Hin. rewrite Hmore in Hnd.
      apply NoDup_app in Hnd as (_ & Hdisj & _).
      by apply (Hdisj key).
  - eapply Forall2_impl; [exact Hrows|].
    intros row t (Hp & Hl1 & Hl2 & Hpad). split_and!; [done..|lia|done].
Qed.

(** X1.  After [close], the file of a writer in copy mode that recorded
    plain data, no key or value beyond the limit of the reader on the size
    of a field, holds the header with every field name and, for each
    record, its values under these names, the missing ones empty; [close]
    returns normally. *)
Theorem close_copy_rectangular (rt : PyRuntime) fn hl t0
    (ts : list TabularInput) :
  dict_keys (as_primitive_dict t0) ≠ [] →
  Forall plain_record (t0 :: ts) →
  Forall record_within_limit (t0 :: ts) →
  let w := run rt (fresh fn (Some copy) hl)
               (Record_ ∘ PyTabular <$> t0 :: ts) in
  ∃ names,
    _writer (self w) = Some {| fieldnames := names |}
    ∧ (close w).2 = inr ()
    ∧ content (_log_file (self (close w).1)) = rectangular names (t0 :: ts).
Proof.
  intros Hk Hpl Hlim.
  destruct (close_copy_plain rt fn hl t0 ts Hk Hpl Hlim)
    as (names & Hwr & _ & _ & _ & _ & Hres & Hc).
  by exists names.
Qed.

Lemma close_copy_rectangular_witness :
  let t0 := tabular [("a", "1"); ("b", "10"); ("c", "100")]%string in
  let ts := [tabular [("a", "2"); ("c", "200")]%string;
             tabular [("x", "-3")]%string;
             tabular [("b", "40"); ("x", "-4")]%string;
             tabular [("b", "50"); ("x", "-5"); ("d", "5000")]%string] in
  let w := run rt_elements (fresh (txt "progress.csv") (Some copy) 140)
               (Record_ ∘ PyTabular <$> t0 :: ts) in
  ∃ names,
    _writer (self w) = Some {| fieldnames := names |}
    ∧ (close w).2 = inr ()
    ∧ content (_log_file (self (close w).1)) = rectangular names (t0 :: ts).
Proof.
  apply close_copy_rectangular.
  - by_compute.
  - unfold plain_record, plain. by_compute.
  - unfold record_within_limit, within_limit. by_compute.
Defined.

(** ** Reading back the copy made at close *)

Lemma join_two_nonempty (vs : list str) : 2 ≤ length vs → join [COMMA] vs ≠ [].
Proof. destruct vs as [|v [|v' vs]]; simpl; [lia..|]. by destruct v. Qed.

Lemma record_text_join (vs : list str) :
  2 ≤ length vs → record_text vs = join [COMMA] vs.
Proof.
  intros Hl. pose proof (join_two_nonempty vs Hl) as Hne.
  unfold record_text. destruct vs; [done|]. by destruct (join _ _).
Qed.

Lemma csv_rows_lines_plain (rows : list (list str)) :
  Forall (λ vs, 2 ≤ length vs ∧ Forall plain vs) rows →
  csv_rows (concat ((λ vs, join [COMMA] vs ++ [LF]) <$> rows)) = (rows, None).
Proof.
  intros Hrows. rewrite csv_rows_scan.
  replace (concat ((λ vs, join [COMMA] vs ++ [LF]) <$> rows))
    with (concat ((λ vs, record_text vs ++ [LF]) <$> rows)).
  - rewrite scan_lines_plain.
    + unfold rows_of. cbn [fst snd]. rewrite fst_zip; [done|].
      by rewrite length_seq.
    + eapply Forall_impl; [exact Hrows|]. intros vs [Hl Hp]. split; [|done].
      intros ->. simpl in Hl. lia.
  - f_equal. apply Forall_fmap_ext. eapply Forall_impl; [exact Hrows|].
    intros vs [Hl _]. simpl. by rewrite record_text_join.
Qed.

(** X2.  A writer in copy mode that recorded plain data under at least two
    field names, no key or value beyond the limit of the reader on the size
    of a field: after [close], [csv.reader] reads the file as the final
    field names followed, for each record in order, by one value per final
    field name, the record's own or the empty text. *)
Theorem close_copy_reads_back (rt : PyRuntime) fn hl t0
    (ts : list TabularInput) :
  2 ≤ length (dict_keys (as_primitive_dict t0)) →
  Forall plain_record (t0 :: ts) →
  Forall record_within_limit (t0 :: ts) →
  let w := (close (run rt (fresh fn (Some copy) hl)
                       (Record_ ∘ PyTabular <$> t0 :: ts))).1 in
  ∃ names,
    _writer (self w) = Some {| fieldnames := names |}
    ∧ csv_rows (content (_log_file (self w)))
      = (names :: (row_of names <$> t0 :: ts), None).
Proof.
  intros Hlen Hpl Hlim. cbv zeta.
  assert (dict_keys (as_primitive_dict t0) ≠ []) as Hk
    by (intros E; rewrite E in Hlen; simpl in Hlen; lia).
  destruct (close_copy_plain rt fn hl t0 ts Hk Hpl Hlim)
    as (names & Hwr & Hnpl & _ & _ & [more Hmore] & _ & Hc).
  exists names. split.
  - destruct (close_frame (run rt (fresh fn (Some copy) hl)
                            (Record_ ∘ PyTabular <$> t0 :: ts)))
      as (_ & _ & -> & _). done.
  - rewrite Hc. unfold rectangular.
    replace (join [COMMA] names ++ [LF]
             ++ concat ((λ t, join [COMMA] (row_of names t) ++ [LF])
                          <$> t0 :: ts))
      with (concat ((λ vs, join [COMMA] vs ++ [LF])
                      <$> names :: (row_of names <$> t0 :: ts))).
    + apply csv_rows_lines_plain.
      assert (2 ≤ length names) as Hl2
        by (rewrite Hmore, length_app; lia).
      apply Forall_cons. split; [done|].
      apply Forall_fmap. eapply Forall_impl; [exact Hpl|].
      intros t Ht. simpl. split; [by rewrite length_row_of|by apply row_of_plain].
    + rewrite fmap_cons, concat_cons, <-(assoc_L (++)). do 2 f_equal.
      by rewrite <-list_fmap_compose.
Qed.

Lemma close_copy_reads_back_witness :
  let t0 := tabular [("a", "1"); ("b", "10"); ("c", "100")]%string in
  let ts := [tabular [("a", "2"); ("c", "200")]%string;
             tabular [("x", "-3")]%string;
             tabular [("b", "50"); ("x", "-5"); ("d", "5000")]%string] in
  let w := (close (run rt_elements (fresh (txt "progress.csv") (Some copy) 140)
                       (Record_ ∘ PyTabular <$> t0 :: ts))).1 in
  ∃ names,
    _writer (self w) = Some {| fieldnames := names |}
    ∧ csv_rows (content (_log_file (self w)))
      = (names :: (row_of names <$> t0 :: ts), None).
Proof.
  apply close_copy_reads_back.
  - vm_compute. lia.
  - unfold plain_record, plain. by_compute.
  - unfold record_within_limit, within_limit. by_compute.
Defined.

(** ** Closing twice *)

Lemma universal_newlines_no_CR (s : str) : CR ∉ s → universal_newlines s = s.
Proof.
  induction s as [|c s IH]; [done|].
  intros [Hc Hs]%not_elem_of_cons. simpl.
  rewrite decide_False by done. by rewrite IH.
Qed.

Lemma lines_no_CR (rows : list (list str)) :
  Forall (Forall plain) rows →
  CR ∉ concat ((λ vs, join [COMMA] vs ++ [LF]) <$> rows).
Proof.
  induction 1 as [|vs rows Hvs _ IH]; [by intros ?%elem_of_nil|].
  rewrite fmap_cons, concat_cons, !elem_of_app.
  intros [[Hin|Hin]|Hin].
  - by apply (join_not_CR vs).
  - apply list_elem_of_singleton in Hin. vm_compute in Hin. discriminate Hin.
  - by apply IH.
Qed.

(** What [csv.DictReader] reads from plain records of two fields or more,
    one per line as [print] wrote them. *)
Lemma dict_reader_lines_plain (names : list str) (rows : list (list str)) :
  Forall (λ vs, 2 ≤ length vs ∧ Forall plain vs) rows →
  Forall (Forall within_limit) rows →
  dict_reader_limited names []
    (readlines []
       (universal_newlines
          (concat ((λ vs, join [COMMA] vs ++ [LF]) <$> rows))))
  = ((λ rn, (dictreader_row names [] rn.1, rn.2))
       <$> zip rows (seq 1 (length rows)), None).
Proof.
  intros Hrows Hlim.
  apply dict_reader_limited_rows.
  2: { apply Forall_and. split; [|done].
       eapply Forall_impl; [exact Hrows|]. intros vs [Hl _] ->.
       simpl in Hl. lia. }
  unfold csv_reader.
  rewrite universal_newlines_no_CR
    by (apply lines_no_CR; eapply Forall_impl; [exact Hrows|]; by intros ? [_ ?]).
  rewrite scan_readlines.
  change (scan _ _ 0) with (scan (inr parse_reset) false 0).
  replace (concat ((λ vs, join [COMMA] vs ++ [LF]) <$> rows))
    with (concat ((λ vs, record_text vs ++ [LF]) <$> rows)).
  2: { f_equal. apply Forall_fmap_ext. eapply Forall_impl; [exact Hrows|].
       intros vs [Hl _]. simpl. by rewrite record_text_join. }
  rewrite scan_lines_plain; [done|].
  eapply Forall_impl; [exact Hrows|]. intros vs [Hl Hp]. split; [|done].
  intros ->. simpl in Hl. lia.
Qed.

Lemma run_frame (rt : PyRuntime) calls w :
  _inconsistency_handling (self (run rt w calls))
  = _inconsistency_handling (self w)
  ∧ _header_length (self (run rt w calls)) = _header_length (self w).
Proof.
  revert w. induction calls as [|c calls IH]; intros w; [done|].
  rewrite run_cons. destruct (IH (do_call rt c w)) as [-> ->].
  destruct c as [data| |]; unfold do_call.
  - by destruct (record_frame rt data w) as (-> & -> & _).
  - done.
  - by destruct (close_frame w) as (-> & -> & _).
Qed.

(** X14.  Closing twice: for a writer in copy mode that recorded plain data
    under at least two field names, no key or value beyond the limit of the
    reader on the size of a field, a second [close] returns normally and
    writes the file as the first one left it. *)
Theorem close_copy_twice (rt : PyRuntime) fn hl t0 (ts : list TabularInput) :
  2 ≤ length (dict_keys (as_primitive_dict t0)) →
  Forall plain_record (t0 :: ts) →
  Forall record_within_limit (t0 :: ts) →
  let w := (close (run rt (fresh fn (Some copy) hl)
                       (Record_ ∘ PyTabular <$> t0 :: ts))).1 in
  (close w).2 = inr ()
  ∧ content (_log_file (self (close w).1)) = content (_log_file (self w)).
Proof.
  intros Hlen Hpl Hlim. cbv zeta.
  assert (dict_keys (as_primitive_dict t0) ≠ []) as Hk
    by (intros E; rewrite E in Hlen; simpl in Hlen; lia).
  destruct (close_copy_plain rt fn hl t0 ts Hk Hpl Hlim)
    as (names & Hwr & Hnpl & Hnlim & Hnd & [more Hmore] & _ & Hc).
  set (w0 := run rt _ _) in *.
  destruct (close_frame w0) as (Hh & _ & Hwr1 & _).
  destruct (run_frame rt (Record_ ∘ PyTabular <$> t0 :: ts)
              (fresh fn (Some copy) hl)) as [Hh0 _].
  fold w0 in Hh0. rewrite Hh0 in Hh. rewrite Hwr in Hwr1.
  destruct (close_copy (close w0).1 {| fieldnames := names |} Hh Hwr1)
    as [Hcont Hres].
  cbv zeta in Hcont, Hres. cbn [fieldnames] in Hcont, Hres.
  assert (2 ≤ length names) as Hl2 by (rewrite Hmore, length_app; lia).
  assert (content (_log_file (self (close w0).1))
          = concat ((λ vs, join [COMMA] vs ++ [LF])
                      <$> names :: (row_of names <$> t0 :: ts))) as Hfile.
  { rewrite Hc. unfold rectangular. symmetry.
    rewrite fmap_cons, concat_cons, <-(assoc_L (++)). do 2 f_equal.
    by rewrite <-list_fmap_compose. }
  assert (Forall (λ vs, 2 ≤ length vs ∧ Forall plain vs)
            (names :: (row_of names <$> t0 :: ts))) as Hrows.
  { apply Forall_cons. split; [done|].
    apply Forall_fmap. eapply Forall_impl; [exact Hpl|].
    intros t Ht. simpl. split; [by rewrite length_row_of|by apply row_of_plain]. }
  assert (Forall (Forall within_limit)
            (names :: (row_of names <$> t0 :: ts))) as Hwithin.
  { apply Forall_cons. split; [done|].
    apply Forall_fmap. eapply Forall_impl; [exact Hlim|].
    intros t Ht. by apply row_of_within. }
  rewrite Hfile, (dict_reader_lines_plain _ _ Hrows Hwithin) in Hcont, Hres.
  cbn [fst snd] in Hcont, Hres. split; [done|].
  rewrite Hcont, Hfile.
  set (R := row_of names <$> t0 :: ts).
  cbn [length seq zip zip_with].
  rewrite !fmap_cons, !concat_cons. cbn [fst snd].
  unfold close_print at 1. cbn [snd]. rewrite decide_True by done.
  rewrite <-!(assoc_L (++)). do 2 f_equal. subst R.
  rewrite (close_print_rows names (row_of names <$> t0 :: ts) (t0 :: ts) 2);
    [by rewrite <-list_fmap_compose|done|lia|].
  apply Forall2_fmap_l, Forall_Forall2_diag.
  eapply Forall_impl; [exact Hpl|]. intros t Ht. unfold compose. cbv beta.
  rewrite length_row_of, Nat.sub_diag, app_nil_r.
  split_and!; [by apply row_of_plain|lia|lia|done].
Qed.

Lemma close_copy_twice_witness :
  let t0 := tabular [("a", "1"); ("b", "10"); ("c", "100")]%string in
  let ts := [tabular [("a", "2"); ("c", "200")]%string;
             tabular [("x", "-3")]%string] in
  let w := (close (run rt_elements (fresh (txt "progress.csv") (Some copy) 140)
                       (Record_ ∘ PyTabular <$> t0 :: ts))).1 in
  (close w).2 = inr ()
  ∧ content (_log_file (self (close w).1)) = content (_log_file (self w)).
Proof.
  apply close_copy_twice.
  - vm_compute. lia.
  - unfold plain_record, plain. by_compute.
  - unfold record_within_limit, within_limit. by_compute.
Defined.

(** ** The tests of the repository *)

(** The test of the fixed header length: the header is patched in place,
    the rows keep the width they were written with. *)
Example test_record_inconsistency_handling_fixed_header_length :
  content (_log_file (self
    (run rt_elements (fresh (txt "progress.csv") (Some fixed_header_length) 14)
       [log [("a", "1"); ("b", "10"); ("c", "100")]%string;
        log [("a", "2"); ("c", "200")]%string;
        log [("x", "-3")]%string;
        log [("b", "40"); ("x", "-4")]%string;
        log [("b", "50"); ("x", "-5"); ("d", "5000")]%string])))
  = txt "a,b,c,x,d     " ++ CRLF
    ++ txt "1,10,100" ++ CRLF
    ++ txt "2,,200" ++ CRLF
    ++ txt ",,,-3" ++ CRLF
    ++ txt ",40,,-4" ++ CRLF
    ++ txt ",50,,-5,5000" ++ CRLF.
Proof. by vm_compute. Qed.

(** The test of the copy at close. *)
Example test_record_inconsistency_handling_copy :
  content (_log_file (self
    (run rt_elements (fresh (txt "progress.csv") (Some copy) 140)
       [log [("a", "1"); ("b", "10"); ("c", "100")]%string;
        log [("a", "2"); ("c", "200")]%string;
        log [("x", "-3")]%string;
        log [("b", "40"); ("x", "-4")]%string;
        log [("b", "50"); ("x", "-5"); ("d", "5000")]%string;
        Close])))
  = txt "a,b,c,x,d" ++ [LF]
    ++ txt "1,10,100,," ++ [LF]
    ++ txt "2,,200,," ++ [LF]
    ++ txt ",,,-3," ++ [LF]
    ++ txt ",40,,-4," ++ [LF]
    ++ txt ",50,,-5,5000" ++ [LF].
Proof. by vm_compute. Qed.

(** ** The copy at close on data that is quoted *)

(** C1.  The rewrite at close joins the values without quoting them.  A
    record with the value [x,y] under [a] and [1] under [b] is written as the
    two fields it has; after [close] its row reads [x,y,1], three values
    under the two names of the header. *)
Theorem close_copy_unquoted :
  let before := run rt_elements (fresh (txt "progress.csv") (Some copy) 140)
                    [log [("a", "x,y"); ("b", "1")]%string] in
  let after := do_call rt_elements Close before in
  csv_rows (content (_log_file (self before)))
  = ([[txt "a"; txt "b"]; [txt "x,y"; txt "1"]], None)
  ∧ content (_log_file (self after))
    = txt "a,b" ++ [LF] ++ txt "x,y,1" ++ [LF]
  ∧ csv_rows (content (_log_file (self after)))
    = ([[txt "a"; txt "b"]; [txt "x"; txt "y"; txt "1"]], None).
Proof. by vm_compute. Qed.

(** * Further properties of the writer *)

(** ** A closed writer *)

Lemma record_closed_content (rt : PyRuntime) data w :
  closed (_log_file (self w)) = true →
  content (_log_file (self (record rt data w).1)) = content (_log_file (self w)).
Proof.
  intros Hcl.
  destruct (record rt data w) as [w' r] eqn:E.
  destruct data as [t| | |]; [|by inversion E..].
  destruct w as [[h hl [nm c pos cl] wr F ms dw] sh].
  simpl in Hcl. subst cl.
  mwalk E.
  all: inversion E; subst; mred; done.
Qed.

Lemma record_closed (rt : PyRuntime) (t : TabularInput) w :
  closed (_log_file (self w)) = true →
  schema_inv (self w) →
  dict_keys (as_primitive_dict t) ≠ [] ∨ _writer (self w) ≠ None →
  (record rt (PyTabular t) w).2 = inl closed_file_error.
Proof.
  intros Hcl Hs Hk.
  destruct (record rt (PyTabular t) w) as [w' r] eqn:E.
  destruct w as [[h hl [nm c pos cl] wr F ms dw] sh].
  simpl in Hcl, Hk. subst cl.
  unfold schema_inv in Hs. simpl in Hs.
  destruct wr as [wr|], F as [F|]; try done.
  - mred_in E.
    rewrite (bool_decide_eq_false_2 (Some wr = None)), andb_false_r in E by done.
    mwalk E.
    all: by inversion E.
  - destruct Hk as [Hk|Hk]; [|done].
    mred_in E.
    rewrite (bool_decide_eq_false_2 _ Hk), andb_false_l in E.
    mwalk E.
    all: by inversion E.
Qed.

Lemma close_other w :
  _inconsistency_handling (self w) ≠ Some copy →
  close w
  = ({| self := with_log_file (file_close (_log_file (self w))) (self w);
        shown := shown w |}, inr ()).
Proof.
  intros Hh. destruct w as [[h hl f wr F ms dw] sh]. simpl in Hh.
  mred. by rewrite decide_False by done.
Qed.

(** X10.  On a closed writer [record] raises the [ValueError] of the closed
    file for every record, but for the record without fields while no schema
    is committed; the file keeps its content and stays closed. *)
Theorem record_on_closed_writer (rt : PyRuntime) w (t : TabularInput) :
  reachable rt w →
  closed (_log_file (self w)) = true →
  dict_keys (as_primitive_dict t) ≠ [] ∨ _writer (self w) ≠ None →
  let res := record rt (PyTabular t) w in
  res.2 = inl closed_file_error
  ∧ content (_log_file (self res.1)) = content (_log_file (self w))
  ∧ closed (_log_file (self res.1)) = true.
Proof.
  intros Hw Hcl Hk. cbv zeta.
  apply reachable_inv in Hw as (Hs & _ & _).
  split_and!.
  - by apply record_closed.
  - by apply record_closed_content.
  - destruct (record_frame rt (PyTabular t) w) as (_ & _ & _ & _ & ->). done.
Qed.

Lemma record_on_closed_writer_witness :
  let w := run rt_elements (fresh (txt "progress.csv") None 140)
               [log [("foo", "1")]%string; Close] in
  let res := record rt_elements (PyTabular (tabular [("foo", "2")]%string)) w in
  res.2 = inl closed_file_error
  ∧ content (_log_file (self res.1)) = content (_log_file (self w))
  ∧ closed (_log_file (self res.1)) = true.
Proof.
  apply record_on_closed_writer.
  - by eexists _, _, _, _.
  - reflexivity.
  - left. by_compute.
Defined.

(** X11.  Nothing reopens or changes a closed file: whatever is called on a
    closed writer, the file keeps its content and stays closed; only a
    further [close] with the copy handling, which rewrites the file, is set
    apart. *)
Theorem closed_writer_frozen (rt : PyRuntime) w calls :
  closed (_log_file (self w)) = true →
  (_inconsistency_handling (self w) = Some copy → Close ∉ calls) →
  let w' := run rt w calls in
  content (_log_file (self w')) = content (_log_file (self w))
  ∧ closed (_log_file (self w')) = true.
Proof.
  cbv zeta. revert w. induction calls as [|c calls IH]; intros w Hcl Hc; [done|].
  rewrite run_cons.
  assert (closed (_log_file (self (do_call rt c w))) = true
          ∧ content (_log_file (self (do_call rt c w)))
            = content (_log_file (self w))
          ∧ _inconsistency_handling (self (do_call rt c w))
            = _inconsistency_handling (self w)) as (Hcl' & Hc' & Hh').
  { destruct c as [data| |]; unfold do_call.
    - destruct (record_frame rt data w) as (-> & _ & _ & _ & ->).
      by rewrite record_closed_content.
    - done.
    - destruct (decide (_inconsistency_handling (self w) = Some copy)) as [E|E].
      + destruct (Hc E). left.
      + rewrite close_other by done. done. }
  destruct (IH (do_call rt c w)) as [-> ->]; [done| |done].
  rewrite Hh'. intros E Hin. apply (Hc E). by right.
Qed.

Lemma closed_writer_frozen_witness :
  let w := run rt_elements
               (fresh (txt "progress.csv") (Some fixed_header_length) 10)
               [log [("a", "1")]%string; Close] in
  let w' := run rt_elements w
              [log [("a", "2"); ("x", "3")]%string; DisableWarnings; Close;
               log [("a", "4")]%string] in
  content (_log_file (self w')) = content (_log_file (self w))
  ∧ closed (_log_file (self w')) = true.
Proof.
  apply closed_writer_frozen.
  - reflexivity.
  - intros E. vm_compute in E. discriminate E.
Defined.

(** ** Disabling the warnings *)

(* walk the paths of the method bodies in the goal *)
Ltac gwalk :=
  repeat (mred;
          match goal with
          | |- context [decide ?P] => destruct (decide P)
          | |- context [handling_enabled ?h] => destruct (handling_enabled h) eqn:?
          | |- context [?a && ?b] => destruct (a && b) eqn:?
          | |- context [match ?x with _ => _ end] => is_var x; destruct x
          end);
  mred.

Lemma unwarned_record (rt : PyRuntime) data w :
  unwarned (record rt data w).1 = unwarned (record rt data (unwarned w)).1.
Proof.
  destruct w as [[h hl [nm c pos cl] wr F ms dw] sh].
  destruct data as [t| | |]; [|done..].
  unfold unwarned. gwalk.
  all: done.
Qed.

Lemma unwarned_do_call (rt : PyRuntime) c w :
  unwarned (do_call rt c w) = unwarned (do_call rt c (unwarned w)).
Proof.
  destruct c as [data| |]; unfold do_call.
  - apply unwarned_record.
  - done.
  - destruct w as [[h hl [nm c pos cl] wr F ms dw] sh].
    unfold unwarned. gwalk.
    all: try (destruct (dict_reader_limited _ _ _) as [rows [e0|]]; mred).
    all: done.
Qed.

Lemma unwarned_run (rt : PyRuntime) calls w1 w2 :
  unwarned w1 = unwarned w2 →
  unwarned (run rt w1 calls) = unwarned (run rt w2 calls).
Proof.
  revert w1 w2. induction calls as [|c calls IH]; intros w1 w2 E; [done|].
  rewrite !run_cons. apply IH.
  by rewrite (unwarned_do_call rt c w1), (unwarned_do_call rt c w2), E.
Qed.

Lemma silent_do_call (rt : PyRuntime) c w :
  _disable_warnings (self w) = true →
  shown (do_call rt c w) = shown w
  ∧ _disable_warnings (self (do_call rt c w)) = true.
Proof.
  intros Hd. destruct c as [data| |]; unfold do_call.
  - destruct (record_frame rt data w) as (_ & _ & -> & _). split; [|done].
    destruct data as [t| | |]; [|done..].
    destruct w as [[h hl [nm c pos cl] wr F ms dw] sh].
    simpl in Hd. subst dw. gwalk. all: done.
  - done.
  - by destruct (close_frame w) as (_ & _ & _ & _ & _ & -> & -> & _).
Qed.

Lemma silent_run (rt : PyRuntime) calls w :
  _disable_warnings (self w) = true → shown (run rt w calls) = shown w.
Proof.
  revert w. induction calls as [|c calls IH]; intros w Hd; [done|].
  rewrite run_cons. destruct (silent_do_call rt c w Hd) as [Hs Hd'].
  by rewrite IH.
Qed.

(** X12.  [disable_warnings] silences the writer and changes nothing else:
    whatever is called afterwards, no further warning is shown, while the
    file, the field names and the remembered messages are what they would be
    without the call. *)
Theorem disable_warnings_only_silences (rt : PyRuntime) w calls :
  let quiet := run rt (do_call rt DisableWarnings w) calls in
  let loud := run rt w calls in
  shown quiet = shown w
  ∧ _log_file (self quiet) = _log_file (self loud)
  ∧ _writer (self quiet) = _writer (self loud)
  ∧ _fieldnames (self quiet) = _fieldnames (self loud)
  ∧ _warned_once (self quiet) = _warned_once (self loud).
Proof.
  cbv zeta. split; [by rewrite silent_run|].
  assert (unwarned (run rt (do_call rt DisableWarnings w) calls)
          = unwarned (run rt w calls)) as E
    by (apply unwarned_run; by destruct w as [[] ?]).
  unfold unwarned in E.
  split_and!.
  - by apply (f_equal (λ x, _log_file (self x))) in E.
  - by apply (f_equal (λ x, _writer (self x))) in E.
  - by apply (f_equal (λ x, _fieldnames (self x))) in E.
  - by apply (f_equal (λ x, _warned_once (self x))) in E.
Qed.

(** ** The committed schema is never empty *)

Lemma names_nonempty_do_call (rt : PyRuntime) c w :
  (∀ wr, _writer (self w) = Some wr → fieldnames wr ≠ []) →
  ∀ wr, _writer (self (do_call rt c w)) = Some wr → fieldnames wr ≠ [].
Proof.
  intros Hw wr Hwr.
  destruct (_writer (self w)) as [wr0|] eqn:Hwr0.
  - destruct (do_call_writer rt c w wr0 Hwr0) as [ext Hext].
    rewrite Hext in Hwr. injection Hwr as <-. cbn [fieldnames].
    specialize (Hw wr0 eq_refl). by destruct (fieldnames wr0).
  - destruct c as [data| |]; unfold do_call in Hwr.
    + destruct data as [t| | |].
      2-4: rewrite record_other in Hwr by (by intros ?); cbn [fst] in Hwr;
           congruence.
      destruct (record_logic_uncommitted rt t w Hwr0)
        as (_ & _ & [[_ E]|(Hk & E & _)]).
      * by rewrite E, Hwr0 in Hwr.
      * rewrite E in Hwr. by injection Hwr as <-.
    + rewrite disable_warnings_eq in Hwr. simpl in Hwr. congruence.
    + destruct (close_frame w) as (_ & _ & E & _). congruence.
Qed.

Lemma names_nonempty_run (rt : PyRuntime) calls w :
  (∀ wr, _writer (self w) = Some wr → fieldnames wr ≠ []) →
  ∀ wr, _writer (self (run rt w calls)) = Some wr → fieldnames wr ≠ [].
Proof.
  revert w. induction calls as [|c calls IH]; intros w Hw; [done|].
  rewrite run_cons. apply IH. by apply names_nonempty_do_call.
Qed.

Lemma names_nonempty (rt : PyRuntime) w wr :
  reachable rt w → _writer (self w) = Some wr → fieldnames wr ≠ [].
Proof.
  intros (fn & impl & hl & calls & ->). by apply names_nonempty_run.
Qed.

(** ** A record without fields after the schema is committed *)

Lemma schema_extension_none (rt : PyRuntime) (h : option str) (F K : gset str) :
  K ⊆ F → schema_extension rt h F K = [].
Proof.
  intros HK. unfold schema_extension.
  rewrite (bool_decide_eq_false_2 (K ∖ F ≠ ∅)), andb_false_r; [done|].
  intros H. apply H. apply elem_of_equiv_empty_L.
  intros x [Hx Hn]%elem_of_difference. by apply Hn, HK.
Qed.

Lemma header_patch_nil (h : option str) hl names : header_patch h hl names [] = [].
Proof. unfold header_patch. by rewrite decide_True. Qed.

Lemma dict_to_list_empty (wr : DictWriter) :
  dict_to_list wr [] = replicate (length (fieldnames wr)) [].
Proof.
  unfold dict_to_list. induction (fieldnames wr) as [|k ks IH]; [done|].
  rewrite fmap_cons. simpl. by f_equal.
Qed.

(** X9.  Once a schema is committed a record without fields is no longer
    a no-op: on an open file it returns normally, keeps the field names,
    adds a row of empty values and remembers the warning for the empty key
    set, which with warnings enabled has then been shown exactly once. *)
Theorem fieldless_record_after_commit (rt : PyRuntime) w (t : TabularInput) wr :
  reachable rt w →
  closed (_log_file (self w)) = false →
  _writer (self w) = Some wr →
  dict_keys (as_primitive_dict t) = [] →
  let msg := inconsistent_keys_msg rt (list_to_set (fieldnames wr)) ∅ in
  ∃ w',
    record rt (PyTabular t) w = (w', inr (PyTabular t))
    ∧ _writer (self w') = Some wr
    ∧ content (_log_file (self w'))
      = content (_log_file (self w))
        ++ csv_writerow (replicate (length (fieldnames wr)) [])
    ∧ msg ∈ _warned_once (self w')
    ∧ (_disable_warnings (self w) = false → times_shown msg w' = 1).
Proof.
  intros Hw Hcl Hwr Hk. cbv zeta.
  pose proof (names_nonempty rt w wr Hw Hwr) as Hne.
  pose proof (reachable_inv rt w Hw) as Hinv.
  pose proof (inv_do_call rt (Record_ (PyTabular t)) w Hinv) as (_ & Hwarn' & _).
  destruct Hinv as (Hs & _ & Hf).
  destruct (Hf Hcl) as (Hpos & _).
  unfold schema_inv in Hs. rewrite Hwr in Hs.
  destruct (_fieldnames (self w)) as [F|] eqn:HF; [|done]. subst F.
  unfold do_call in Hwarn'.
  pose proof (record_committed rt t w wr _ Hcl Hpos Hwr HF) as E.
  cbv zeta in E. rewrite Hk in E.
  change (list_to_set []) with (∅ : gset str) in E.
  rewrite schema_extension_none, header_patch_nil in E by set_solver.
  rewrite app_nil_r in E. unfold overwrite in E. cbn [length drop app] in E.
  assert ((∅ : gset str) ≠ list_to_set (fieldnames wr)) as Hdiff.
  { destruct (fieldnames wr) as [|k ks]; [done|]. set_solver. }
  rewrite !(decide_True _ _ Hdiff) in E.
  destruct wr as [names]. cbn [fieldnames] in *.
  rewrite E in Hwarn'. rewrite E. clear E.
  eexists. split; [reflexivity|].
  cbn [self _writer _log_file content _warned_once].
  split_and!; [done| |set_solver|].
  - assert (as_primitive_dict t = []) as ->
      by (by destruct (as_primitive_dict t)).
    by rewrite dict_to_list_empty.
  - intros Hd. destruct Hwarn' as (Hnd & _ & Hall).
    cbn [fst self _disable_warnings] in Hall.
    unfold times_shown. rewrite filter_eq_NoDup by done.
    rewrite decide_True; [done|].
    apply (Hall Hd). cbn [_warned_once]. set_solver.
Qed.

Lemma fieldless_record_after_commit_witness :
  let w := run rt_elements (fresh (txt "progress.csv") None 140)
               [log [("foo", "1"); ("bar", "10")]%string] in
  let wr := {| fieldnames := [txt "foo"; txt "bar"] |} in
  let t := tabular [] in
  let msg := inconsistent_keys_msg rt_elements
               (list_to_set (fieldnames wr)) ∅ in
  ∃ w',
    record rt_elements (PyTabular t) w = (w', inr (PyTabular t))
    ∧ _writer (self w') = Some wr
    ∧ content (_log_file (self w'))
      = content (_log_file (self w))
        ++ csv_writerow (replicate (length (fieldnames wr)) [])
    ∧ msg ∈ _warned_once (self w')
    ∧ (_disable_warnings (self w) = false → times_shown msg w' = 1).
Proof.
  apply (fieldless_record_after_commit rt_elements
           (run rt_elements (fresh (txt "progress.csv") None 140)
                [log [("foo", "1"); ("bar", "10")]%string])
           (tabular [])
           {| fieldnames := [txt "foo"; txt "bar"] |}).
  - by eexists _, _, _, _.
  - reflexivity.
  - reflexivity.
  - reflexivity.
Defined.

(** ** One record on a committed writer, file open or closed *)

Lemma record_content (rt : PyRuntime) (t : TabularInput) w wr :
  inv w →
  _writer (self w) = Some wr →
  let d := as_primitive_dict t in
  let ext :=
    schema_extension rt (_inconsistency_handling (self w))
                     (list_to_set (fieldnames wr)) (list_to_set (dict_keys d)) in
  let names := fieldnames wr ++ ext in
  let patch :=
    header_patch (_inconsistency_handling (self w)) (_header_length (self w))
                 (fieldnames wr) ext in
  let w' := (record rt (PyTabular t) w).1 in
  _writer (self w') = Some {| fieldnames := names |}
  ∧ content (_log_file (self w'))
    = if closed (_log_file (self w)) then content (_log_file (self w))
      else overwrite patch (content (_log_file (self w)))
           ++ csv_writerow (dict_to_list {| fieldnames := names |} d).
Proof.
  intros (Hs & _ & Hf) Hwr. cbv zeta.
  unfold schema_inv in Hs. rewrite Hwr in Hs.
  destruct (_fieldnames (self w)) as [F|] eqn:HF; [|done]. subst F.
  split.
  - pose proof (record_logic rt t w wr Hwr) as HL. cbv zeta in HL.
    rewrite HF in HL. by destruct HL as (-> & _).
  - destruct (closed (_log_file (self w))) eqn:Hcl.
    + by apply record_closed_content.
    + destruct (Hf Hcl) as (Hpos & _).
      by rewrite (record_committed rt t w wr _ Hcl Hpos Hwr HF).
Qed.

(** ** Without a handling the schema is fixed for good *)

Lemma schema_extension_disabled (rt : PyRuntime) (h : option str) (F K : gset str) :
  handling_enabled h = false → schema_extension rt h F K = [].
Proof. intros Hh. unfold schema_extension. by rewrite Hh. Qed.

Lemma handling_disabled_not_copy (h : option str) :
  handling_enabled h = false → h ≠ Some copy.
Proof. by intros Hh ->. Qed.

Lemma no_handling_do_call (rt : PyRuntime) c w wr :
  inv w →
  handling_enabled (_inconsistency_handling (self w)) = false →
  _writer (self w) = Some wr →
  let w' := do_call rt c w in
  _writer (self w') = Some wr
  ∧ _inconsistency_handling (self w') = _inconsistency_handling (self w)
  ∧ ∃ more, content (_log_file (self w')) = content (_log_file (self w)) ++ more.
Proof.
  intros Hinv Hh Hwr. cbv zeta.
  destruct c as [data| |]; unfold do_call.
  - destruct (record_frame rt data w) as (-> & _).
    destruct data as [t| | |].
    2-4: rewrite record_other by (by intros ?); cbn [fst];
         split_and!; [done..|exists []; by rewrite app_nil_r].
    destruct (record_content rt t w wr Hinv Hwr) as [-> ->].
    rewrite schema_extension_disabled, header_patch_nil, app_nil_r by done.
    split_and!; [by destruct wr|done|].
    destruct (closed _); [exists []; by rewrite app_nil_r|].
    by eexists.
  - split_and!; [done..|exists []; by rewrite app_nil_r].
  - rewrite close_other by (by apply handling_disabled_not_copy).
    split_and!; [done..|exists []; by rewrite app_nil_r].
Qed.

(** X7.  Without a handling ([None] or the empty text) the schema of the
    first record stays for good: whatever is called, the writer keeps its
    field names, and the file only grows at its end. *)
Theorem no_handling_schema_fixed (rt : PyRuntime) w wr calls :
  reachable rt w →
  handling_enabled (_inconsistency_handling (self w)) = false →
  _writer (self w) = Some wr →
  let w' := run rt w calls in
  _writer (self w') = Some wr
  ∧ ∃ more, content (_log_file (self w')) = content (_log_file (self w)) ++ more.
Proof.
  intros Hw%reachable_inv Hh Hwr. cbv zeta.
  revert w Hw Hh Hwr. induction calls as [|c calls IH]; intros w Hw Hh Hwr.
  - split; [done|]. exists []. by rewrite app_nil_r.
  - rewrite run_cons.
    destruct (no_handling_do_call rt c w wr Hw Hh Hwr) as (Hwr' & Hh' & more & Hc).
    destruct (IH (do_call rt c w)) as (-> & more' & ->);
      [by apply inv_do_call|by rewrite Hh'|done|].
    split; [done|]. exists (more ++ more'). by rewrite Hc, (assoc_L (++)).
Qed.

Lemma no_handling_schema_fixed_witness :
  let w := run rt_elements (fresh (txt "progress.csv") None 140)
               [log [("foo", "1")]%string] in
  let w' := run rt_elements w
              [log [("foo", "2"); ("bar", "20")]%string; Close] in
  _writer (self w') = Some {| fieldnames := [txt "foo"] |}
  ∧ ∃ more, content (_log_file (self w')) = content (_log_file (self w)) ++ more.
Proof.
  apply no_handling_schema_fixed.
  - by eexists _, _, _, _.
  - reflexivity.
  - reflexivity.
Defined.

(** ** The header line under the patch *)

Lemma join_app (sep : str) (names ext : list str) :
  names ≠ [] → ext ≠ [] →
  join sep (names ++ ext) = join sep names ++ sep ++ join sep ext.
Proof.
  intros Hn He. induction names as [|x names IH]; [done|].
  destruct names as [|y names].
  - destruct ext as [|e ext]; [done|]. done.
  - change (join sep ((x :: y :: names) ++ ext))
      with (x ++ sep ++ join sep ((y :: names) ++ ext)).
    rewrite IH by done.
    change (join sep (x :: y :: names)) with (x ++ sep ++ join sep (y :: names)).
    by rewrite <-!(assoc_L (++)).
Qed.

Lemma header_patch_sync hl (names ext : list str) (X : str) :
  names ≠ [] →
  overwrite (header_patch (Some fixed_header_length) hl names ext)
            (header_line (Some fixed_header_length) hl names ++ X)
  = header_line (Some fixed_header_length) hl (names ++ ext) ++ X.
Proof.
  intros Hn. unfold header_line, header_patch.
  rewrite !(decide_True (P := Some fixed_header_length = Some _)) by done.
  destruct (decide (ext = [])) as [->|He].
  { by rewrite app_nil_r. }
  rewrite <-!(assoc_L (++)).
  set (jn := join [COMMA] names).
  set (h' := join [COMMA] (names ++ ext)).
  assert (∃ more, h' = jn ++ more) as [more Hh']
    by (eexists; by apply join_app).
  assert (length jn ≤ length h') as Hle by (rewrite Hh', length_app; lia).
  rewrite overwrite_app
    by (rewrite length_take, fixed_header_length_exact; lia).
  f_equal. unfold overwrite, ljust. rewrite length_take.
  destruct (decide (hl ≤ length h')) as [Hlong|Hshort].
  - replace ((length h' `min` hl) `min` length h') with hl by lia.
    replace (length h' `min` hl) with hl by lia.
    rewrite drop_ge by (rewrite length_take, length_app, length_replicate; lia).
    rewrite app_nil_r, take_app_le by done. done.
  - replace ((length h' `min` hl) `min` length h') with (length h') by lia.
    replace (length h' `min` hl) with (length h') by lia.
    rewrite (take_ge h') by lia.
    rewrite !take_ge by (rewrite length_app, length_replicate; lia).
    f_equal. rewrite drop_app_ge by lia. rewrite drop_replicate.
    f_equal. lia.
Qed.

Lemma run_snoc (rt : PyRuntime) w calls c :
  run rt w (calls ++ [c]) = do_call rt c (run rt w calls).
Proof. unfold run. by rewrite foldl_app. Qed.

(** ** Reading back a file of records with changing keys *)

Lemma written_rows_under (rt : PyRuntime) (h : option str)
    (ts : list TabularInput) (names : list str) :
  let res := written_rows rt h names ts in
  names `prefix_of` res.2
  ∧ Forall2 (row_under h names res.2) res.1 ts.
Proof.
  cbv zeta. revert names. induction ts as [|t ts IH]; intros names.
  - split; [done|constructor].
  - cbn [written_rows fst snd].
    set (ext := schema_extension rt h _ _).
    destruct (IH (names ++ ext)) as [Hpre Hrows].
    assert (names `prefix_of` names ++ ext) as Hp by (by exists ext).
    split; [by etrans|].
    constructor.
    + exists (names ++ ext). split_and!; [done..|].
      intros Hh k Hk.
      destruct (schema_extension_spec rt h (list_to_set names)
                  (dict_keys (as_primitive_dict t))) as [_ Hext].
      fold ext in Hext. rewrite elem_of_app, Hext, elem_of_list_to_set.
      destruct (decide (k ∈ names)); [by left|by right].
    + eapply Forall2_impl; [exact Hrows|].
      intros row t' (ns & H1 & H2 & H3 & H4). exists ns.
      split_and!; [by etrans|done..].
Qed.

(** X3.  With any handling but the fixed header length, after a first
    record with fields and any further records, [csv.reader] reads the file
    as the names of the first record, then one row per record: the values of
    the record under the field names the writer had when it wrote the row,
    which begin with the first names and are a beginning of the final ones,
    and which hold every key of the record when a handling is chosen.  The
    header on the file is not extended before [close]. *)
Theorem records_read_back (rt : PyRuntime) fn impl hl
    (t0 : TabularInput) (ts : list TabularInput) :
  impl ≠ Some fixed_header_length →
  dict_keys (as_primitive_dict t0) ≠ [] →
  let names0 := dict_keys (as_primitive_dict t0) in
  let w := run rt (fresh fn impl hl) (Record_ ∘ PyTabular <$> t0 :: ts) in
  ∃ rows names,
    _writer (self w) = Some {| fieldnames := names |}
    ∧ csv_rows (content (_log_file (self w)))
      = (names0 :: row_of names0 t0 :: rows, None)
    ∧ Forall2 (row_under impl names0 names) rows ts.
Proof.
  intros Himpl Hk. cbv zeta.
  rewrite fmap_cons, run_cons.
  change ((Record_ ∘ PyTabular) t0) with (Record_ (PyTabular t0)).
  unfold do_call.
  rewrite (record_first rt t0 (fresh fn impl hl)) by done.
  cbn [fst].
  set (names0 := dict_keys (as_primitive_dict t0)) in *.
  set (w1 := {| self := _; shown := _ |}).
  pose proof (run_written_rows rt ts w1 names0) as Hrun.
  cbv zeta in Hrun.
  destruct Hrun as (Hc & Hw & _ & _); [done..|].
  change (_inconsistency_handling (self w1)) with impl in Hc, Hw.
  destruct (written_rows_under rt impl ts names0) as [_ Hrows].
  set (res := written_rows rt impl names0 ts) in *.
  exists res.1, res.2. split_and!; [done| |done].
  rewrite Hc. subst w1. cbn [self _log_file content fresh __init__ open_w].
  unfold header_line. rewrite decide_False by done.
  rewrite app_nil_l.
  replace ((csv_writerow names0
            ++ csv_writerow (dict_to_list {| fieldnames := names0 |}
                                          (as_primitive_dict t0)))
           ++ concat (csv_writerow <$> res.1))
    with (concat (csv_writerow <$> names0 :: row_of names0 t0 :: res.1))
    by (by rewrite !fmap_cons, !concat_cons, <-!(assoc_L (++))).
  apply csv_rows_writerows.
Qed.

Lemma records_read_back_witness :
  let t0 := tabular [("a", "1"); ("b", "x,y")]%string in
  let ts := [tabular [("c", "3"); ("a", "2")]%string] in
  let names0 := dict_keys (as_primitive_dict t0) in
  let w := run rt_elements (fresh (txt "progress.csv") (Some copy) 140)
               (Record_ ∘ PyTabular <$> t0 :: ts) in
  ∃ rows names,
    _writer (self w) = Some {| fieldnames := names |}
    ∧ csv_rows (content (_log_file (self w)))
      = (names0 :: row_of names0 t0 :: rows, None)
    ∧ Forall2 (row_under (Some copy) names0 names) rows ts.
Proof.
  apply (records_read_back rt_elements (txt "progress.csv") (Some copy) 140
           (tabular [("a", "1"); ("b", "x,y")]%string)
           [tabular [("c", "3"); ("a", "2")]%string]).
  - intros E. vm_compute in E. discriminate E.
  - by_compute.
Defined.

(** ** The padded header as a row of the reader *)








(** ** [CsvOutput.types_accepted] *)

Lemma record_tabular_not_unacceptable (rt : PyRuntime) (t : TabularInput) w :
  (record rt (PyTabular t) w).2 ≠ inl (ValueError (txt "Unacceptable type.")).
Proof.
  destruct (record rt (PyTabular t) w) as [w' r] eqn:E.
  world_cases w.
  all: mwalk E.
  all: inversion E; subst; clear E; cbn [snd].
  all: first [ by intros [=]
             | by intros ?%symmetry%inl_inj%symmetry%unacceptable_not_closed
             | idtac ].
Qed.

(** X13.  [record] raises the error of the unacceptable type exactly for
    the objects that are no instance of a class in [types_accepted]. *)
Theorem record_accepts_types_accepted (rt : PyRuntime) (data : PyObject) w :
  (record rt data w).2 = inl (ValueError (txt "Unacceptable type."))
  ↔ isinstance data types_accepted = false.
Proof.
  destruct data as [t| | |]; [|done..].
  split; [|done].
  intros E. by destruct (record_tabular_not_unacceptable rt t w).
Qed.

(** ** No field name is listed twice *)

Lemma distinct_names_do_call (rt : PyRuntime) c w :
  inv w → distinct_keys c →
  (∀ wr, _writer (self w) = Some wr → NoDup (fieldnames wr)) →
  ∀ wr, _writer (self (do_call rt c w)) = Some wr → NoDup (fieldnames wr).
Proof.
  intros Hinv Hc Hw wr' Hwr'.
  destruct c as [data| |]; unfold do_call in Hwr'.
  - destruct data as [t| | |].
    2-4: rewrite record_other in Hwr' by (by intros ?); by apply Hw.
    destruct (_writer (self w)) as [wr|] eqn:Hwr.
    + destruct (record_content rt t w wr Hinv Hwr) as [E _].
      rewrite E in Hwr'. injection Hwr' as <-. cbn [fieldnames].
      destruct (schema_extension_spec rt (_inconsistency_handling (self w))
                  (list_to_set (fieldnames wr))
                  (dict_keys (as_primitive_dict t))) as [Hnd Hext].
      apply NoDup_app. split_and!; [by apply Hw| |done].
      intros x Hx [_ [_ Hn]]%Hext. apply Hn. by apply elem_of_list_to_set.
    + destruct (record_logic_uncommitted rt t w Hwr)
        as (_ & _ & [[_ E]|(Hk & E & _)]).
      * rewrite E, Hwr in Hwr'. done.
      * rewrite E in Hwr'. by injection Hwr' as <-.
  - by apply Hw.
  - destruct (close_frame w) as (_ & _ & E & _). rewrite E in Hwr'.
    by apply Hw.
Qed.

(** X8.  When the keys of each record are pairwise distinct, so are the
    field names of the writer after any calls, and the set [_fieldnames]
    holds exactly these names. *)
Theorem field_names_distinct (rt : PyRuntime) fn impl hl calls wr :
  Forall distinct_keys calls →
  let w := run rt (fresh fn impl hl) calls in
  _writer (self w) = Some wr →
  NoDup (fieldnames wr)
  ∧ _fieldnames (self w) = Some (list_to_set (fieldnames wr)).
Proof.
  intros Hcalls. cbv zeta. intros Hwr. split.
  - revert wr Hwr.
    induction calls as [|c calls IH] using rev_ind; intros wr Hwr; [done|].
    apply Forall_app in Hcalls as [Hcalls Hc].
    rewrite Forall_singleton in Hc.
    rewrite run_snoc in Hwr.
    eapply distinct_names_do_call; [|exact Hc| |exact Hwr].
    + apply (reachable_inv rt). by eexists _, _, _, _.
    + by apply IH.
  - assert (reachable rt (run rt (fresh fn impl hl) calls)) as Hw
      by (by eexists _, _, _, _).
    apply reachable_inv in Hw as (Hs & _).
    unfold schema_inv in Hs. rewrite Hwr in Hs.
    destruct (_fieldnames _); [by subst|done].
Qed.

Lemma field_names_distinct_witness :
  let calls := [log [("a", "1"); ("b", "10")]%string;
                log [("b", "20"); ("x", "3"); ("a", "2")]%string;
                DisableWarnings;
                log [("x", "4"); ("d", "5")]%string] in
  let wr := {| fieldnames := [txt "a"; txt "b"; txt "x"; txt "d"] |} in
  let w := run rt_elements (fresh (txt "progress.csv") (Some copy) 140) calls in
  NoDup (fieldnames wr)
  ∧ _fieldnames (self w) = Some (list_to_set (fieldnames wr)).
Proof.
  apply (field_names_distinct rt_elements (txt "progress.csv") (Some copy) 140
           [log [("a", "1"); ("b", "10")]%string;
            log [("b", "20"); ("x", "3"); ("a", "2")]%string;
            DisableWarnings;
            log [("x", "4"); ("d", "5")]%string]
           {| fieldnames := [txt "a"; txt "b"; txt "x"; txt "d"] |}).
  - repeat constructor; unfold distinct_keys, log; by_compute.
  - by vm_compute.
Defined.

(** * When [close] fails *)

Lemma universal_newlines_CR_free (s : str) : CR ∉ universal_newlines s.
Proof.
  remember (length s) as m eqn:Hm.
  revert s Hm. induction (lt_wf m) as [m _ IH]. intros s ->.
  destruct s as [|c s]; [by intros ?%elem_of_nil|].
  simpl. destruct (decide (c = CR)) as [->|Hc].
  - intros [E|Hin]%elem_of_cons; [by vm_compute in E|].
    destruct s as [|c' s]; [by apply elem_of_nil in Hin|].
    destruct (decide (c' = LF)).
    + by apply (IH (length s)) in Hin; [|simpl; lia|].
    + by apply (IH (length (c' :: s))) in Hin; [|simpl; lia|].
  - intros [E|Hin]%elem_of_cons; [done|].
    by apply (IH (length s)) in Hin; [|simpl; lia|].
Qed.

Lemma parse_eol_state (r : Reader) :
  ∃ r', parse_process_char None r = inr r'
        ∧ (state r' = START_RECORD ∨ state r' = IN_QUOTED_FIELD).
Proof.
  destruct r as [st f fs]. unfold parse_process_char. cbn [state].
  destruct st; eexists; (split; [reflexivity|]); cbn; auto.
Qed.

Lemma parse_char_ok (c : ascii) (r : Reader) :
  state r ≠ EAT_CRNL →
  ∃ r', parse_process_char (Some c) r = inr r'
        ∧ (is_newline c = false → state r' ≠ EAT_CRNL).
Proof.
  destruct r as [st f fs]. unfold parse_process_char, start_field. cbn [state].
  intros Hst.
  destruct st; [..|done]; destruct (is_newline c) eqn:Hnl;
    repeat case_decide; eexists; (split; [reflexivity|]); cbn; done.
Qed.

Lemma reader_rows_nil_ok (r : Reader) n : (reader_rows r n []).2 = None.
Proof. simpl. by destruct (_ || _). Qed.

Lemma end_line_ok (r : Reader) n
    (k : Reader → list (list str * nat) * option exn) :
  (∀ r', state r' ≠ EAT_CRNL → (k r').2 = None) →
  (end_line (inr r) n k).2 = None.
Proof.
  intros Hk. unfold end_line.
  destruct (parse_eol_state r) as (r' & -> & Hst).
  destruct Hst as [Hst|Hst]; rewrite Hst.
  - unfold cons_row. cbn [snd]. by apply Hk.
  - apply Hk. by rewrite Hst.
Qed.

Lemma scan_no_CR_ok (s : str) (r : Reader) (partial : bool) n :
  CR ∉ s → state r ≠ EAT_CRNL → (scan (inr r) partial n s).2 = None.
Proof.
  revert r partial n. induction s as [|c s IH]; intros r partial n Hs Hst.
  - cbn [scan]. destruct partial; [|apply reader_rows_nil_ok].
    apply end_line_ok. intros r' _. apply reader_rows_nil_ok.
  - apply not_elem_of_cons in Hs as [Hc Hs].
    destruct (parse_char_ok c r Hst) as (r1 & E & Hst1).
    cbn [scan feed]. rewrite E.
    destruct (decide (c = LF)) as [->|Hlf].
    + apply end_line_ok. intros r' Hr'. by apply IH.
    + rewrite decide_False by done. apply IH; [done|].
      apply Hst1. unfold is_newline.
      by rewrite !bool_decide_eq_false_2.
Qed.

Lemma csv_reader_no_CR_ok (s : str) :
  CR ∉ s → (csv_reader (readlines [] s)).2 = None.
Proof.
  intros Hs. unfold csv_reader. rewrite scan_readlines.
  change (scan _ _ 0 s) with (scan (inr parse_reset) false 0 s).
  by apply scan_no_CR_ok.
Qed.

(** The reader with the limit fails on the limit or does what the reader
    without it does. *)
Lemma parse_process_char_limited_cases c r :
  parse_process_char_limited c r = inl field_limit_error
  ∨ parse_process_char_limited c r = parse_process_char c r.
Proof.
  destruct r as [st f fs].
  unfold parse_process_char, parse_process_char_limited, start_field,
    start_field_limited, parse_add_char_limited.
  cbn [state field].
  destruct (field_size_limit <=? N.of_nat (length f))%N;
    destruct st, c as [c|]; try destruct (is_newline c);
    repeat case_decide; auto.
Qed.

Lemma parse_chars_limited_cases s r :
  parse_chars_limited s r = inl field_limit_error
  ∨ parse_chars_limited s r = parse_chars s r.
Proof.
  revert r. induction s as [|c s IH]; intros r; [by right|].
  cbn [parse_chars parse_chars_limited].
  destruct (parse_process_char_limited_cases (Some c) r) as [->| ->]; [by left|].
  destruct (parse_process_char (Some c) r); [by right|]. apply IH.
Qed.

Lemma parse_line_limited_cases line r :
  parse_line_limited line r = inl field_limit_error
  ∨ parse_line_limited line r = parse_line line r.
Proof.
  unfold parse_line, parse_line_limited.
  destruct (parse_chars_limited_cases line r) as [->| ->]; [by left|].
  destruct (parse_chars line r); [by right|].
  apply parse_process_char_limited_cases.
Qed.

Lemma reader_rows_limited_cases (lines : list str) r n :
  (reader_rows_limited r n lines).2 = Some field_limit_error
  ∨ (reader_rows_limited r n lines).2 = (reader_rows r n lines).2.
Proof.
  revert r n. induction lines as [|line lines IH]; intros r n; [by right|].
  cbn [reader_rows reader_rows_limited].
  destruct (parse_line_limited_cases line r) as [->| ->]; [by left|].
  destruct (parse_line line r) as [e|r']; [by right|].
  destruct (state r'); cbn [snd]; apply IH.
Qed.

(** X15.  [close] fails in two cases only, both with the copy handling: no
    schema is committed, and it fails on the absent writer; or a field of
    the file is beyond the limit of the reader on the size of a field.  It
    never fails on a line ending, whatever the file holds. *)
Theorem close_failures (w : World) :
  (close w).2 = inr ()
  ∨ _inconsistency_handling (self w) = Some copy
    ∧ (_writer (self w) = None
       ∧ (close w).2
         = inl (AttributeError
                  (txt "'NoneType' object has no attribute 'fieldnames'"))
       ∨ _writer (self w) ≠ None ∧ (close w).2 = inl field_limit_error).
Proof.
  destruct (decide (_inconsistency_handling (self w) = Some copy)) as [Hh|Hh].
  - destruct (_writer (self w)) as [wr|] eqn:Hwr.
    + destruct (close_copy w wr Hh Hwr) as [_ ->]. cbv zeta.
      unfold dict_reader_limited, csv_reader_limited. cbn [snd].
      destruct (reader_rows_limited_cases
                  (readlines []
                     (universal_newlines (content (_log_file (self w)))))
                  parse_reset 0) as [->| ->].
      * right. split; [done|]. by right.
      * left. fold (csv_reader (readlines []
                 (universal_newlines (content (_log_file (self w)))))).
        by rewrite csv_reader_no_CR_ok by apply universal_newlines_CR_free.
    + right. split; [done|]. left. split; [done|].
      destruct w as [[h hl f wr F ms dw] sh]. simpl in Hh, Hwr. subst.
      by vm_compute.
  - left. rewrite close_other by done. done.
Qed.

(** * The file in bytes

    [record_enc] on a UTF-8 file: what one record does to the bytes, the
    worlds a sequence of calls reaches, and the header of the fixed header
    length when the field names are ASCII, where a character of the header
    is a byte of the file. *)

(** ** One record *)

Ltac mred_enc :=
  lazy beta iota zeta delta
    [record_enc record_commit_enc record_reconcile_enc write_text
     writer_writerow_enc writer_writeheader_enc
     record record_commit record_reconcile close disable_warnings
     writer_writerow writer_writeheader
     bind ret raise get_self update_self on_log_file the_writer
     warnings_warn _warn
     file_write file_seek_start file_seek_end file_close
     with_log_file with_writer with_fieldnames with_warned_once
     with_disable_warnings self shown _inconsistency_handling _header_length
     _log_file _writer _fieldnames _warned_once _disable_warnings
     name content position closed fieldnames fst snd].

Ltac gwalk_enc :=
  repeat (mred_enc;
          match goal with
          | |- context [decide ?P] => destruct (decide P)
          | |- context [handling_enabled ?h] => destruct (handling_enabled h) eqn:?
          | |- context [?a && ?b] => destruct (a && b) eqn:?
          | |- context [match ?x with _ => _ end] => is_var x; destruct x
          end);
  mred_enc.

Lemma record_enc_id (rt : PyRuntime) : record_enc rt (λ s, s) = record rt.
Proof. reflexivity. Qed.

Lemma record_enc_other (rt : PyRuntime) enc data w :
  (∀ t, data ≠ PyTabular t) →
  record_enc rt enc data w = (w, inl (ValueError (txt "Unacceptable type."))).
Proof. intros H. destruct data; [by destruct (H t)|done..]. Qed.

Lemma record_enc_noop (rt : PyRuntime) enc t w :
  dict_keys (as_primitive_dict t) = [] →
  _writer (self w) = None →
  record_enc rt enc (PyTabular t) w = (w, inr (PyTabular t)).
Proof.
  intros HK Hwr.
  destruct w as [[h hl f wr0 F0 ms dw] sh]. simpl in Hwr. subst.
  mred_enc. by rewrite HK.
Qed.

Lemma record_enc_first (rt : PyRuntime) (enc : str → str) t w :
  closed (_log_file (self w)) = false →
  position (_log_file (self w)) = length (content (_log_file (self w))) →
  _writer (self w) = None →
  dict_keys (as_primitive_dict t) ≠ [] →
  let o := self w in
  let d := as_primitive_dict t in
  let wr' := {| fieldnames := dict_keys d |} in
  let text :=
    content (_log_file o)
    ++ enc (header_line (_inconsistency_handling o) (_header_length o)
                        (dict_keys d))
    ++ enc (csv_writerow (dict_to_list wr' d)) in
  record_enc rt enc (PyTabular t) w =
    ({| self :=
          {| _inconsistency_handling := _inconsistency_handling o;
             _header_length := _header_length o;
             _log_file :=
               {| name := name (_log_file o); content := text;
                  position := length text; closed := false |};
             _writer := Some wr';
             _fieldnames := Some (list_to_set (dict_keys d));
             _warned_once := _warned_once o;
             _disable_warnings := _disable_warnings o |};
        shown := shown w |},
     inr (PyTabular (mark_all (dict_keys d) t))).
Proof.
  intros Hcl Hpos Hwr HK.
  destruct w as [[h hl [nm c pos cl] wr0 F0 ms dw] sh].
  simpl in Hcl, Hpos, Hwr. subst.
  unfold header_line. mred_enc.
  rewrite (bool_decide_eq_false_2 _ HK), andb_false_l.
  generalize (csv_writerow). intros cw.
  set (K := list_to_set (dict_keys (as_primitive_dict t))).
  destruct (decide (h = Some fixed_header_length)); mred_enc.
  all: rewrite (decide_False (P := K ≠ K)) by (by intros []); mred_enc.
  all: file_eq.
  all: by rewrite <-?(assoc_L (++)).
Qed.

Lemma record_enc_committed (rt : PyRuntime) (enc : str → str) t w wr F :
  closed (_log_file (self w)) = false →
  position (_log_file (self w)) = length (content (_log_file (self w))) →
  _writer (self w) = Some wr →
  _fieldnames (self w) = Some F →
  let o := self w in
  let d := as_primitive_dict t in
  let K : gset str := list_to_set (dict_keys d) in
  let msg := inconsistent_keys_msg rt F K in
  let ext := schema_extension rt (_inconsistency_handling o) F K in
  let wr' := {| fieldnames := fieldnames wr ++ ext |} in
  let patch :=
    enc (header_patch (_inconsistency_handling o) (_header_length o)
                      (fieldnames wr) ext) in
  let text :=
    overwrite patch (content (_log_file o))
    ++ enc (csv_writerow (dict_to_list wr' d)) in
  enc [] = [] →
  record_enc rt enc (PyTabular t) w =
    ({| self :=
          {| _inconsistency_handling := _inconsistency_handling o;
             _header_length := _header_length o;
             _log_file :=
               {| name := name (_log_file o); content := text;
                  position := length text; closed := false |};
             _writer := Some wr';
             _fieldnames := Some (F ∪ list_to_set ext);
             _warned_once :=
               if decide (K ≠ F) then {[ msg ]} ∪ _warned_once o
               else _warned_once o;
             _disable_warnings := _disable_warnings o |};
        shown :=
          if decide (K ≠ F) then
            if negb (_disable_warnings o) && bool_decide (msg ∉ _warned_once o)
            then shown w ++ [msg] else shown w
          else shown w |},
     inr (PyTabular (mark_all (dict_keys d) t))).
Proof.
  intros Hcl Hpos Hwr HF o d K msg ext wr' patch text Henc.
  subst o d K msg ext wr' patch text.
  destruct w as [[h hl [nm c pos cl] wr0 F0 ms dw] sh].
  simpl in Hcl, Hpos, Hwr, HF. subst.
  unfold schema_extension, header_patch, overwrite.
  mred_enc.
  rewrite (bool_decide_eq_false_2 (Some wr = None)), andb_false_r by done.
  mred_enc.
  set (K := list_to_set (dict_keys (as_primitive_dict t))).
  generalize (inconsistent_keys_msg rt F K). intros msg.
  generalize (csv_writerow). intros cw.
  destruct (decide (K ≠ F)) as [HKF|HKF]; mred_enc.
  - destruct (handling_enabled h) eqn:Hh.
    + destruct (decide (K ∖ F ≠ ∅)) as [Hnew|Hnew].
      * rewrite (bool_decide_eq_true_2 _ Hnew), andb_true_l.
        rewrite set_iter_to_set.
        destruct (decide (set_iter rt (K ∖ F) = [])) as [Hext|Hext];
          [by apply set_iter_nil in Hext|].
        destruct (negb dw && bool_decide (msg ∉ ms)); mred_enc.
        all: destruct (decide (h = Some fixed_header_length)); mred_enc.
        all: rewrite ?Henc; by file_eq.
      * rewrite (bool_decide_eq_false_2 _ Hnew), andb_false_r.
        rewrite decide_True by done.
        change (list_to_set []) with (∅ : gset str).
        rewrite union_empty_r_L, app_nil_r, Henc.
        destruct (negb dw && bool_decide (msg ∉ ms)); mred_enc.
        all: destruct wr; by file_eq.
    + rewrite andb_false_l, decide_True by done.
      change (list_to_set []) with (∅ : gset str).
      rewrite union_empty_r_L, app_nil_r, Henc.
      destruct (negb dw && bool_decide (msg ∉ ms)); mred_enc.
      all: destruct wr; by file_eq.
  - apply dec_stable in HKF.
    rewrite HKF, difference_diag_L.
    rewrite (bool_decide_eq_false_2 (∅ ≠ ∅)), andb_false_r by (by intros []).
    rewrite decide_True by done.
    change (list_to_set []) with (∅ : gset str).
    rewrite union_empty_r_L, app_nil_r, Henc.
    destruct wr; by file_eq.
Qed.

(** The encoding changes the file and nothing else: the schema, the warnings
    and the result of [record] are those of the file in characters. *)
Lemma record_enc_same (rt : PyRuntime) enc data w1 w2 :
  same_but_file w1 w2 →
  same_but_file (record_enc rt enc data w1).1 (record rt data w2).1
  ∧ (record_enc rt enc data w1).2 = (record rt data w2).2.
Proof.
  intros (Hh & Hhl & Hcl & Hwr & HF & Hms & Hdw & Hsh).
  destruct data as [t| | |]; [|by split_and!..].
  destruct w1 as [[h hl [nm c pos cl] wr F ms dw] sh].
  destruct w2 as [[h2 hl2 [nm2 c2 pos2 cl2] wr2 F2 ms2 dw2] sh2].
  simpl in *. subst. unfold same_but_file.
  gwalk_enc.
  all: by split_and!.
Qed.

(** ** UTF-8 of ASCII text *)


Lemma utf8_one_byte (s : str) : one_byte s → utf8 s = s.
Proof.
  induction 1 as [|c s Hc _ IH]; [done|].
  unfold utf8 in *. rewrite fmap_cons, concat_cons, IH.
  unfold utf8_char. by rewrite (proj2 (Nat.ltb_lt _ _) Hc).
Qed.

Lemma one_byte_app (s1 s2 : str) : one_byte s1 → one_byte s2 → one_byte (s1 ++ s2).
Proof. intros. by apply Forall_app. Qed.

Lemma one_byte_join (names : list str) :
  Forall one_byte names → one_byte (join [COMMA] names).
Proof.
  induction 1 as [|x names Hx _ IH]; [constructor|].
  destruct names as [|y names]; [done|].
  change (join [COMMA] (x :: y :: names))
    with (x ++ [COMMA] ++ join [COMMA] (y :: names)).
  repeat apply one_byte_app; [done| |done].
  apply Forall_singleton. vm_compute. lia.
Qed.

Lemma one_byte_header_line hl (names : list str) :
  Forall one_byte names →
  one_byte (header_line (Some fixed_header_length) hl names).
Proof.
  intros Hn. unfold header_line. rewrite decide_True by done.
  apply one_byte_app.
  - apply Forall_take, one_byte_app; [by apply one_byte_join|].
    apply Forall_replicate. vm_compute. lia.
  - repeat constructor; vm_compute; lia.
Qed.

Lemma one_byte_header_patch (h : option str) hl (names ext : list str) :
  Forall one_byte (names ++ ext) →
  one_byte (header_patch h hl names ext).
Proof.
  intros Hn. unfold header_patch. repeat case_decide; try constructor.
  by apply Forall_take, one_byte_join.
Qed.

(** ** Sequences of calls *)

Lemma run_enc_cons (rt : PyRuntime) enc w calls c :
  run_enc rt enc w (c :: calls) = run_enc rt enc (do_call_enc rt enc c w) calls.
Proof. done. Qed.

Lemma run_enc_snoc (rt : PyRuntime) enc w calls c :
  run_enc rt enc w (calls ++ [c]) = do_call_enc rt enc c (run_enc rt enc w calls).
Proof. unfold run_enc. by rewrite foldl_app. Qed.

Lemma reachable_enc_do_call (rt : PyRuntime) enc c w :
  reachable_enc rt enc w → reachable_enc rt enc (do_call_enc rt enc c w).
Proof.
  intros (fn & impl & hl & calls & ->).
  exists fn, impl, hl, (calls ++ [c]). by rewrite run_enc_snoc.
Qed.

Lemma same_but_file_refl w : same_but_file w w.
Proof. by split_and!. Qed.

Lemma do_call_enc_same (rt : PyRuntime) enc c w1 w2 :
  same_but_file w1 w2 →
  same_but_file (do_call_enc rt enc c w1) (do_call rt c w2).
Proof.
  intros Hs. destruct c as [data| |]; unfold do_call_enc, do_call.
  - by apply record_enc_same.
  - destruct Hs as (? & ? & ? & ? & ? & ? & ? & ?).
    rewrite !disable_warnings_eq. by split_and!.
  - destruct Hs as (? & ? & ? & ? & ? & ? & ? & ?). unfold same_but_file.
    destruct (close_frame w1) as (-> & -> & -> & -> & -> & -> & -> & ->).
    destruct (close_frame w2) as (-> & -> & -> & -> & -> & -> & -> & ->).
    by split_and!.
Qed.

Lemma run_enc_same (rt : PyRuntime) enc calls w1 w2 :
  same_but_file w1 w2 →
  same_but_file (run_enc rt enc w1 calls) (run rt w2 calls).
Proof.
  revert w1 w2. induction calls as [|c calls IH]; intros w1 w2 Hs; [done|].
  rewrite run_enc_cons, run_cons. by apply IH, do_call_enc_same.
Qed.

Lemma reachable_enc_same (rt : PyRuntime) enc w :
  reachable_enc rt enc w → ∃ w', reachable rt w' ∧ same_but_file w w'.
Proof.
  intros (fn & impl & hl & calls & ->).
  exists (run rt (fresh fn impl hl) calls). split; [by eexists _, _, _, _|].
  apply run_enc_same, same_but_file_refl.
Qed.

Lemma reachable_enc_schema (rt : PyRuntime) enc w :
  reachable_enc rt enc w →
  schema_inv (self w)
  ∧ ∀ wr, _writer (self w) = Some wr → fieldnames wr ≠ [].
Proof.
  intros (w' & Hw' & (_ & _ & _ & Hwr & HF & _))%reachable_enc_same.
  split.
  - destruct (reachable_inv rt w' Hw') as (Hs & _).
    unfold schema_inv in *. by rewrite Hwr, HF.
  - intros wr E. rewrite Hwr in E. by eapply names_nonempty.
Qed.

Lemma record_enc_frame (rt : PyRuntime) enc data w :
  let w' := (record_enc rt enc data w).1 in
  _inconsistency_handling (self w') = _inconsistency_handling (self w)
  ∧ _header_length (self w') = _header_length (self w)
  ∧ closed (_log_file (self w')) = closed (_log_file (self w)).
Proof.
  cbv zeta.
  destruct (record_enc_same rt enc data w w (same_but_file_refl w))
    as ((-> & -> & -> & _) & _).
  by destruct (record_frame rt data w) as (-> & -> & _ & _ & ->).
Qed.

Lemma do_call_enc_frame (rt : PyRuntime) enc c w :
  let w' := do_call_enc rt enc c w in
  _inconsistency_handling (self w') = _inconsistency_handling (self w)
  ∧ _header_length (self w') = _header_length (self w)
  ∧ (closed (_log_file (self w')) = false → closed (_log_file (self w)) = false).
Proof.
  destruct c as [data| |]; unfold do_call_enc.
  - by destruct (record_enc_frame rt enc data w) as (-> & -> & ->).
  - done.
  - destruct (close_frame w) as (-> & -> & _ & _ & _ & _ & _ & ->). done.
Qed.

Lemma run_enc_frame (rt : PyRuntime) enc calls w :
  _inconsistency_handling (self (run_enc rt enc w calls))
  = _inconsistency_handling (self w)
  ∧ _header_length (self (run_enc rt enc w calls)) = _header_length (self w).
Proof.
  revert w. induction calls as [|c calls IH]; intros w; [done|].
  rewrite run_enc_cons. destruct (IH (do_call_enc rt enc c w)) as [-> ->].
  by destruct (do_call_enc_frame rt enc c w) as (-> & -> & _).
Qed.

Lemma record_enc_closed_content (rt : PyRuntime) enc data w :
  closed (_log_file (self w)) = true →
  content (_log_file (self (record_enc rt enc data w).1))
  = content (_log_file (self w)).
Proof.
  intros Hcl.
  destruct data as [t| | |]; [|done..].
  destruct w as [[h hl [nm c pos cl] wr F ms dw] sh].
  simpl in Hcl. subst cl.
  gwalk_enc.
  all: done.
Qed.

(** While the file is open the position is its end, and the file is empty
    until the schema is committed. *)
Lemma reachable_enc_end (rt : PyRuntime) enc w :
  enc [] = [] →
  reachable_enc rt enc w →
  closed (_log_file (self w)) = false →
  position (_log_file (self w)) = length (content (_log_file (self w)))
  ∧ (_writer (self w) = None → content (_log_file (self w)) = []).
Proof.
  intros Henc (fn & impl & hl & calls & ->).
  induction calls as [|c calls IH] using rev_ind; [done|].
  rewrite run_enc_snoc.
  assert (reachable_enc rt enc (run_enc rt enc (fresh fn impl hl) calls)) as Hw
    by (by eexists _, _, _, _).
  set (w := run_enc rt enc (fresh fn impl hl) calls) in *.
  intros Hcl'.
  destruct (do_call_enc_frame rt enc c w) as (_ & _ & Hcl).
  specialize (Hcl Hcl'). destruct (IH Hcl) as [Hpos Hempty].
  destruct (reachable_enc_schema rt enc w Hw) as [Hs _].
  destruct c as [data| |]; unfold do_call_enc in *.
  - destruct data as [t| | |].
    2-4: by rewrite record_enc_other by (by intros ?).
    unfold schema_inv in Hs.
    destruct (_writer (self w)) as [wr|] eqn:Hwr.
    + destruct (_fieldnames (self w)) as [F|] eqn:HF; [|done].
      rewrite (record_enc_committed rt enc t w wr F) by done. done.
    + destruct (decide (dict_keys (as_primitive_dict t) = [])) as [HK|HK].
      * rewrite record_enc_noop by done. cbn [fst]. split; [done|]. by intros _; apply Hempty.
      * rewrite record_enc_first by done. done.
  - done.
  - destruct (close_frame w) as (_ & _ & _ & _ & _ & _ & _ & E). congruence.
Qed.

(** ** The header of the fixed header length, ASCII field names *)

Lemma one_byte_extension (rt : PyRuntime) (h : option str) (F : gset str) (t : TabularInput) :
  one_byte_keys t →
  Forall one_byte
    (schema_extension rt h F (list_to_set (dict_keys (as_primitive_dict t)))).
Proof.
  intros Ht.
  destruct (schema_extension_spec rt h F (dict_keys (as_primitive_dict t)))
    as [_ Hext].
  apply Forall_forall. intros k (_ & Hk & _)%Hext.
  unfold one_byte_keys in Ht. rewrite Forall_forall in Ht. by apply Ht.
Qed.

(** One record on an open writer with a schema and the fixed header length:
    when the extended field names are ASCII, the bytes of the patch are its
    characters. *)
Lemma record_enc_fixed (rt : PyRuntime) (t : TabularInput) w wr :
  reachable_enc rt utf8 w →
  _inconsistency_handling (self w) = Some fixed_header_length →
  closed (_log_file (self w)) = false →
  _writer (self w) = Some wr →
  let d := as_primitive_dict t in
  let ext := schema_extension rt (Some fixed_header_length)
               (list_to_set (fieldnames wr)) (list_to_set (dict_keys d)) in
  let names := fieldnames wr ++ ext in
  let patch := header_patch (Some fixed_header_length) (_header_length (self w))
                 (fieldnames wr) ext in
  let w' := (record_enc rt utf8 (PyTabular t) w).1 in
  Forall one_byte names →
  _writer (self w') = Some {| fieldnames := names |}
  ∧ content (_log_file (self w'))
    = overwrite patch (content (_log_file (self w)))
      ++ utf8 (csv_writerow (dict_to_list {| fieldnames := names |} d))
  ∧ position (_log_file (self w')) = length (content (_log_file (self w')))
  ∧ (record_enc rt utf8 (PyTabular t) w).2
    = inr (PyTabular (mark_all (dict_keys d) t)).
Proof.
  intros Hw Hh Hcl Hwr d ext names patch w' Hone.
  destruct (reachable_enc_schema rt utf8 w Hw) as [Hs _].
  destruct (reachable_enc_end rt utf8 w eq_refl Hw Hcl) as [Hpos _].
  unfold schema_inv in Hs. rewrite Hwr in Hs.
  destruct (_fieldnames (self w)) as [F|] eqn:HF; [|done]. subst F.
  subst w'.
  rewrite (record_enc_committed rt utf8 t w wr _ Hcl Hpos Hwr HF eq_refl).
  cbn [fst snd self _writer _log_file content position].
  rewrite Hh. fold d ext names patch.
  by rewrite (utf8_one_byte patch) by (by apply one_byte_header_patch).
Qed.

(** The field names after one record, file open or closed. *)
Lemma record_enc_writer (rt : PyRuntime) enc (t : TabularInput) w wr :
  reachable_enc rt enc w →
  _writer (self w) = Some wr →
  _writer (self (record_enc rt enc (PyTabular t) w).1)
  = Some {| fieldnames :=
              fieldnames wr
              ++ schema_extension rt (_inconsistency_handling (self w))
                   (list_to_set (fieldnames wr))
                   (list_to_set (dict_keys (as_primitive_dict t))) |}.
Proof.
  intros Hw Hwr.
  destruct (reachable_enc_schema rt enc w Hw) as [Hs _].
  unfold schema_inv in Hs. rewrite Hwr in Hs.
  destruct (_fieldnames (self w)) as [F|] eqn:HF; [|done]. subst F.
  destruct (record_enc_same rt enc (PyTabular t) w w (same_but_file_refl w))
    as ((_ & _ & _ & -> & _) & _).
  pose proof (record_logic rt t w wr Hwr) as HL. cbv zeta in HL.
  rewrite HF in HL. by destruct HL as (-> & _).
Qed.

(** ** The header follows the field names *)

Lemma fixed_sync_enc (rt : PyRuntime) w :
  reachable_enc rt utf8 w →
  _inconsistency_handling (self w) = Some fixed_header_length →
  closed (_log_file (self w)) = false →
  ∀ wr, _writer (self w) = Some wr →
    Forall one_byte (fieldnames wr) →
    ∃ rest, content (_log_file (self w))
            = header_line (Some fixed_header_length) (_header_length (self w))
                          (fieldnames wr) ++ rest.
Proof.
  intros (fn & impl & hl & calls & ->).
  induction calls as [|c calls IH] using rev_ind; [done|].
  rewrite run_enc_snoc.
  assert (reachable_enc rt utf8 (run_enc rt utf8 (fresh fn impl hl) calls)) as Hw
    by (by eexists _, _, _, _).
  set (w := run_enc rt utf8 (fresh fn impl hl) calls) in *.
  destruct (do_call_enc_frame rt utf8 c w) as (Eh & Ehl & Ecl).
  rewrite Eh, Ehl. intros Hh Hcl' wr' Hwr' Hone.
  specialize (Ecl Hcl'). specialize (IH Hh Ecl).
  destruct (reachable_enc_schema rt utf8 w Hw) as [Hs Hne].
  destruct c as [data| |]; unfold do_call_enc in *.
  - destruct data as [t| | |].
    2-4: rewrite record_enc_other in * by (by intros ?); by apply IH.
    destruct (_writer (self w)) as [wr|] eqn:Hwr.
    + pose proof (record_enc_fixed rt t w wr Hw Hh Ecl Hwr) as HR.
      cbv zeta in HR.
      rewrite (record_enc_writer rt utf8 t w wr Hw Hwr), Hh in Hwr'.
      injection Hwr' as <-. cbn [fieldnames] in *.
      destruct (HR Hone) as (_ & -> & _).
      apply Forall_app in Hone as [Hone _].
      destruct (IH wr eq_refl Hone) as [rest ->].
      rewrite header_patch_sync by (by apply Hne).
      rewrite <-(assoc_L (++)). by eexists.
    + destruct (reachable_enc_end rt utf8 w eq_refl Hw Ecl) as [Hpos Hc].
      destruct (decide (dict_keys (as_primitive_dict t) = [])) as [Hk|Hk].
      * rewrite record_enc_noop in Hwr' by done. simpl in Hwr'. congruence.
      * rewrite record_enc_first in * by done.
        cbn [fst self _writer _log_file content] in *.
        injection Hwr' as <-. cbn [fieldnames] in *.
        rewrite Hc by done. rewrite app_nil_l, Hh.
        rewrite utf8_one_byte by (by apply one_byte_header_line).
        by eexists.
  - by apply IH.
  - destruct (close_frame w) as (_ & _ & _ & _ & _ & _ & _ & E). congruence.
Qed.

(** X5.  With the fixed header length, whatever was called, the file of an
    open writer whose field names are ASCII starts, byte for byte, with the
    comma-joined current field names, padded with spaces or cut to the
    header length, and the line terminator: the header on the file follows
    every extension. *)
Theorem fixed_header_in_sync (rt : PyRuntime) w wr :
  reachable_enc rt utf8 w →
  _inconsistency_handling (self w) = Some fixed_header_length →
  closed (_log_file (self w)) = false →
  _writer (self w) = Some wr →
  Forall one_byte (fieldnames wr) →
  ∃ rest,
    content (_log_file (self w))
    = take (_header_length (self w))
           (ljust (join [COMMA] (fieldnames wr)) (_header_length (self w)))
      ++ CRLF ++ rest.
Proof.
  intros Hw Hh Hcl Hwr Hone.
  destruct (fixed_sync_enc rt w Hw Hh Hcl wr Hwr Hone) as [rest ->].
  unfold header_line. rewrite decide_True by done.
  rewrite <-(assoc_L (++)). by eexists.
Qed.

Lemma fixed_header_in_sync_witness :
  let w := run_enc rt_elements utf8
               (fresh (txt "progress.csv") (Some fixed_header_length) 14)
               [log [("a", "1"); ("b", "10"); ("c", "100")]%string;
                log [("x", "-3")]%string;
                log [("b", "50"); ("x", "-5"); ("d", "5000")]%string] in
  ∃ rest, content (_log_file (self w)) = txt "a,b,c,x,d     " ++ CRLF ++ rest.
Proof.
  apply (fixed_header_in_sync rt_elements
           (run_enc rt_elements utf8
              (fresh (txt "progress.csv") (Some fixed_header_length) 14)
              [log [("a", "1"); ("b", "10"); ("c", "100")]%string;
               log [("x", "-3")]%string;
               log [("b", "50"); ("x", "-5"); ("d", "5000")]%string])
           {| fieldnames := [txt "a"; txt "b"; txt "c"; txt "x"; txt "d"] |}).
  - by eexists _, _, _, _.
  - reflexivity.
  - reflexivity.
  - by vm_compute.
  - unfold one_byte. by_compute.
Defined.

(** ** The header patch, ASCII field names *)

(** X16.  Fixed header length, a record on a committed, open file, the
    field names after it all ASCII.  When the record brings new keys, the
    writer overwrites the start of the file with the first
    [min (length header) header_length] characters of the comma-joined
    extended field names, one byte each, and nothing else: what is left of
    the [header_length] bytes of the old header, its line terminator and
    every row written before stay as they are; the bytes of the row of this
    record go to the end of the file, where the position is left.  Without
    new keys nothing is overwritten at all. *)
Theorem fixed_header_patch_one_byte (rt : PyRuntime) w (t : TabularInput) wr F :
  reachable_enc rt utf8 w →
  _inconsistency_handling (self w) = Some fixed_header_length →
  closed (_log_file (self w)) = false →
  _writer (self w) = Some wr →
  _fieldnames (self w) = Some F →
  let d := as_primitive_dict t in
  let K : gset str := list_to_set (dict_keys d) in
  let extends := bool_decide (K ∖ F ≠ ∅) in
  let names :=
    fieldnames wr ++ (if extends then set_iter rt (K ∖ F) else []) in
  let header := join [COMMA] names in
  let patch :=
    if extends then take (length header `min` _header_length (self w)) header
    else [] in
  let row := csv_writerow (dict_to_list {| fieldnames := names |} d) in
  Forall one_byte names →
  ∃ w' H rest,
    record_enc rt utf8 (PyTabular t) w
    = (w', inr (PyTabular (mark_all (dict_keys d) t)))
    ∧ _writer (self w') = Some {| fieldnames := names |}
    ∧ content (_log_file (self w)) = H ++ CRLF ++ rest
    ∧ length H = _header_length (self w)
    ∧ length patch ≤ length H
    ∧ content (_log_file (self w'))
      = (patch ++ drop (length patch) H) ++ CRLF ++ rest ++ utf8 row
    ∧ position (_log_file (self w'))
      = length (content (_log_file (self w'))).
Proof.
  intros Hw Hfixed Hopen Hwr HF d K extends names header patch row Hone.
  destruct (reachable_enc_schema rt utf8 w Hw) as [Hs _].
  unfold schema_inv in Hs. rewrite Hwr, HF in Hs.
  assert (schema_extension rt (Some fixed_header_length)
            (list_to_set (fieldnames wr)) K
          = if extends then set_iter rt (K ∖ F) else []) as Hext.
  { unfold schema_extension. by rewrite <-Hs. }
  assert (header_patch (Some fixed_header_length)
            (_header_length (self w)) (fieldnames wr)
            (if extends then set_iter rt (K ∖ F) else [])
          = patch) as Hpatch.
  { unfold header_patch, patch, header, names, extends.
    case_bool_decide as Hnew.
    - rewrite decide_False, decide_True; [done..|]. by rewrite set_iter_nil.
    - by rewrite decide_True. }
  pose proof (record_enc_fixed rt t w wr Hw Hfixed Hopen Hwr) as HR.
  cbv zeta in HR. fold d K in HR. rewrite Hext, Hpatch in HR.
  destruct (HR Hone) as (Hwr' & Hc' & Hpos' & Hres).
  assert (Forall one_byte (fieldnames wr)) as Hone0
    by (by apply Forall_app in Hone as [? _]).
  destruct (fixed_sync_enc rt w Hw Hfixed Hopen wr Hwr Hone0) as [rest Hc].
  unfold header_line in Hc. rewrite decide_True in Hc by done.
  rewrite <-(assoc_L (++)) in Hc.
  set (H := take _ (ljust _ _)) in Hc.
  assert (length H = _header_length (self w)) as HH
    by apply fixed_header_length_exact.
  assert (length patch ≤ length H) as Hle.
  { rewrite HH. unfold patch. destruct extends; simpl; [|lia].
    rewrite length_take. lia. }
  exists (record_enc rt utf8 (PyTabular t) w).1, H, rest.
  split_and!; [|done..| |done].
  - rewrite <-Hres. by destruct (record_enc _ _ _ _).
  - rewrite Hc', Hc, overwrite_app by done. unfold overwrite.
    by rewrite <-!(assoc_L (++)).
Qed.

Lemma fixed_header_patch_one_byte_witness :
  let w := run_enc rt_elements utf8
               (fresh (txt "progress.csv") (Some fixed_header_length) 10)
               [log [("a", "1")]%string] in
  let t := tabular [("a", "2"); ("x", "3")]%string in
  ∃ w' H rest,
    record_enc rt_elements utf8 (PyTabular t) w
    = (w', inr (PyTabular (mark_all [txt "a"; txt "x"] t)))
    ∧ _writer (self w') = Some {| fieldnames := [txt "a"; txt "x"] |}
    ∧ content (_log_file (self w)) = H ++ CRLF ++ rest
    ∧ length H = 10
    ∧ length (txt "a,x") ≤ length H
    ∧ content (_log_file (self w'))
      = (txt "a,x" ++ drop (length (txt "a,x")) H) ++ CRLF ++ rest
        ++ utf8 (txt "2,3" ++ CRLF)
    ∧ position (_log_file (self w'))
      = length (content (_log_file (self w'))).
Proof.
  assert (reachable_enc rt_elements utf8
            (run_enc rt_elements utf8
               (fresh (txt "progress.csv") (Some fixed_header_length) 10)
               [log [("a", "1")]%string])) as Hw
    by (by eexists _, _, _, _).
  assert (Forall one_byte [txt "a"; txt "x"]) as Hone
    by (unfold one_byte; by_compute).
  generalize (fixed_header_patch_one_byte rt_elements _
                (tabular [("a", "2"); ("x", "3")]%string)
                {| fieldnames := [txt "a"] |} {[ txt "a" ]}
                Hw eq_refl eq_refl eq_refl eq_refl Hone).
  vm_compute. exact (λ H, H).
Defined.

(** ** The rows under the fixed header are never rewritten *)

Lemma fixed_rows_do_call_enc (rt : PyRuntime) c w wr (H rest : str) :
  reachable_enc rt utf8 w →
  _inconsistency_handling (self w) = Some fixed_header_length →
  _writer (self w) = Some wr →
  Forall one_byte (fieldnames wr) →
  one_byte_call c →
  content (_log_file (self w)) = H ++ CRLF ++ rest →
  length H = _header_length (self w) →
  let w' := do_call_enc rt utf8 c w in
  ∃ wr' H' more,
    _writer (self w') = Some wr'
    ∧ Forall one_byte (fieldnames wr')
    ∧ content (_log_file (self w')) = H' ++ CRLF ++ rest ++ more
    ∧ length H' = _header_length (self w')
    ∧ _inconsistency_handling (self w') = Some fixed_header_length.
Proof.
  intros Hw Hh Hwr Hone Hc1 Hc HH. cbv zeta.
  assert (∃ wr' H' more,
    _writer (self w) = Some wr'
    ∧ Forall one_byte (fieldnames wr')
    ∧ content (_log_file (self w)) = H' ++ CRLF ++ rest ++ more
    ∧ length H' = _header_length (self w)
    ∧ _inconsistency_handling (self w) = Some fixed_header_length) as Hsame
    by (exists wr, H, []; by rewrite app_nil_r).
  destruct c as [data| |]; unfold do_call_enc.
  - destruct (record_enc_frame rt utf8 data w) as (Eh & Ehl & _).
    rewrite Eh, Ehl. clear Eh Ehl.
    destruct data as [t| | |].
    2-4: by rewrite record_enc_other by (by intros ?).
    simpl in Hc1.
    rewrite (record_enc_writer rt utf8 t w wr Hw Hwr), Hh.
    set (ext := schema_extension _ _ _ _).
    assert (Forall one_byte (fieldnames wr ++ ext)) as Hone'.
    { apply Forall_app. split; [done|]. by apply one_byte_extension. }
    destruct (closed (_log_file (self w))) eqn:Hcl.
    { rewrite record_enc_closed_content by done.
      eexists _, H, []. by rewrite app_nil_r. }
    pose proof (record_enc_fixed rt t w wr Hw Hh Hcl Hwr) as HR.
    cbv zeta in HR. fold ext in HR.
    destruct (HR Hone') as (_ & -> & _).
    set (p := header_patch _ _ _ _). set (row := utf8 _).
    assert (length p ≤ length H) by (rewrite HH; apply header_patch_length).
    eexists _, (overwrite p H), row.
    rewrite Hc, overwrite_app, overwrite_length, <-!(assoc_L (++)) by done.
    done.
  - done.
  - rewrite close_other by (rewrite Hh; by intros [=]). done.
Qed.

(** X6.  With the fixed header length, as long as the field names and the
    keys of the records are ASCII, no sequence of calls, [close] included,
    touches a byte of what follows the header line: the rows on the file
    stay and rows are only added after them, and the header keeps its
    length. *)
Theorem fixed_header_rows_kept (rt : PyRuntime) w wr (H rest : str) calls :
  reachable_enc rt utf8 w →
  _inconsistency_handling (self w) = Some fixed_header_length →
  _writer (self w) = Some wr →
  Forall one_byte (fieldnames wr) →
  Forall one_byte_call calls →
  content (_log_file (self w)) = H ++ CRLF ++ rest →
  length H = _header_length (self w) →
  ∃ H' more,
    content (_log_file (self (run_enc rt utf8 w calls)))
    = H' ++ CRLF ++ rest ++ more
    ∧ length H' = length H.
Proof.
  intros Hw Hh Hwr Hone Hcalls Hc HH. rewrite HH.
  destruct (run_enc_frame rt utf8 calls w) as [_ <-].
  revert w wr H rest Hw Hh Hwr Hone Hc HH.
  induction Hcalls as [|c calls Hc1 _ IH];
    intros w wr H rest Hw Hh Hwr Hone Hc HH.
  - exists H, []. by rewrite app_nil_r.
  - rewrite run_enc_cons.
    destruct (fixed_rows_do_call_enc rt c w wr H rest Hw Hh Hwr Hone Hc1 Hc HH)
      as (wr' & H' & more & Hwr' & Hone' & Hc' & HH' & Hh').
    destruct (IH (do_call_enc rt utf8 c w) wr' H' (rest ++ more))
      as (H'' & more' & -> & HH''); [by apply reachable_enc_do_call|done..|].
    exists H'', (more ++ more'). by rewrite <-!(assoc_L (++)).
Qed.

Lemma fixed_header_rows_kept_witness :
  let w := run_enc rt_elements utf8
               (fresh (txt "progress.csv") (Some fixed_header_length) 14)
               [log [("a", "1"); ("b", "10"); ("c", "100")]%string] in
  let calls := [log [("x", "-3")]%string;
                log [("b", "50"); ("x", "-5"); ("d", "5000")]%string; Close] in
  ∃ H' more,
    content (_log_file (self (run_enc rt_elements utf8 w calls)))
    = H' ++ CRLF ++ (txt "1,10,100" ++ CRLF) ++ more
    ∧ length H' = length (txt "a,b,c         ").
Proof.
  apply (fixed_header_rows_kept rt_elements
           (run_enc rt_elements utf8
              (fresh (txt "progress.csv") (Some fixed_header_length) 14)
              [log [("a", "1"); ("b", "10"); ("c", "100")]%string])
           {| fieldnames := [txt "a"; txt "b"; txt "c"] |}).
  - by eexists _, _, _, _.
  - reflexivity.
  - reflexivity.
  - unfold one_byte. by_compute.
  - apply Forall_cons; split;
      [unfold one_byte_call, log, one_byte_keys, one_byte; by_compute|].
    apply Forall_cons; split;
      [unfold one_byte_call, log, one_byte_keys, one_byte; by_compute|].
    apply Forall_cons; split; [exact I|constructor].
  - by vm_compute.
  - reflexivity.
Defined.

(** ** Reading back a file with the fixed header length *)




